(** * ExcelParser: table detection over a worksheet grid

    A shallow embedding of [src/utils/excelParser.js] and
    [src/utils/headerAnalyzer.js] (class [ExcelParser], class
    [HeaderAnalyzer]) together with the properties the specification
    states about them.

    Conventions of the embedding.
    - A cell value ([cell.v]) is a string, a number or a boolean; [None]
      stands for a missing cell, [null] and [undefined].  Numbers are
      integers ([Z]).
    - A string is the sequence of its code units, and the development
      covers the texts whose code units are below 256: the character with
      the number [n] stands for the code unit [n], so that the characters
      from 128 on are those of the Latin-1 supplement (160 is U+00A0, the
      no-break space).  White space and case are those of ECMAScript on
      these code units.
    - A row object (an entry of [dataRows]) is a finite map from header
      text to cell value.
    - Table objects are mutated in place and shared between the lists that
      hold them.  A list of tables is therefore a store (the objects, in
      the order of the array handed to the hierarchy pass) and references
      into it; [children] and [parent] are references as well.
    - A custom pattern is given by what [new RegExp(pattern, 'i')] makes
      of it: the test of the regular expression, or the [SyntaxError] the
      constructor throws.  A method that can throw on the way to its result
      comes as two definitions: its result, under the name of the method,
      and the error it throws, if it throws, under the name with [_throws].
    - The [string-similarity] package, the global [isNaN], [uuid] and the
      clock are parameters. *)

From Stdlib Require Import ZArith QArith Ascii.
From stdpp Require Import base decidable option list strings pretty gmap sets sorting.

Local Open Scope Z_scope.
Local Open Scope nat_scope.

(** ** Strings *)

Definition isUpper (c : ascii) : bool :=
  let n := nat_of_ascii c in (65 <=? n) && (n <=? 90).

Definition isLower (c : ascii) : bool :=
  let n := nat_of_ascii c in (97 <=? n) && (n <=? 122).

(** [/[A-Za-z]/] on one character. *)
Definition isLetter (c : ascii) : bool := isUpper c || isLower c.

(** [\d] on one character. *)
Definition isDigit (c : ascii) : bool :=
  let n := nat_of_ascii c in (48 <=? n) && (n <=? 57).

Fixpoint existsChar (p : ascii → bool) (s : string) : bool :=
  match s with
  | EmptyString => false
  | String c s' => p c || existsChar p s'
  end.

Fixpoint forallChar (p : ascii → bool) (s : string) : bool :=
  match s with
  | EmptyString => true
  | String c s' => p c && forallChar p s'
  end.

Fixpoint mapChar (f : ascii → ascii) (s : string) : string :=
  match s with
  | EmptyString => EmptyString
  | String c s' => String (f c) (mapChar f s')
  end.

(** White space and line terminators, as [String.prototype.trim] strips
    them: U+0009 to U+000D, U+0020 and U+00A0. *)
Definition isWhiteSpace (c : ascii) : bool :=
  let n := nat_of_ascii c in
  ((9 <=? n) && (n <=? 13)) || (n =? 32) || (n =? 160).

Fixpoint trimStart (s : string) : string :=
  match s with
  | EmptyString => EmptyString
  | String c s' => if isWhiteSpace c then trimStart s' else s
  end.

(** [String.prototype.trim]. *)
Definition trim (s : string) : string :=
  String.rev (trimStart (String.rev (trimStart s))).

(** The code units with a lower-case form: A to Z, and U+00C0 to U+00DE
    without the multiplication sign U+00D7. *)
Definition hasLowerCase (c : ascii) : bool :=
  let n := nat_of_ascii c in
  isUpper c || ((192 <=? n) && (n <=? 222) && negb (n =? 215)).

(** [String.prototype.toLowerCase]. *)
Definition toLowerCase (s : string) : string :=
  mapChar (λ c, if hasLowerCase c then ascii_of_nat (nat_of_ascii c + 32) else c) s.

Fixpoint startsWith (s prefix : string) : bool :=
  match prefix, s with
  | EmptyString, _ => true
  | String p prefix', String c s' => bool_decide (p = c) && startsWith s' prefix'
  | String _ _, EmptyString => false
  end.

(** [String.prototype.includes]. *)
Fixpoint includes (s needle : string) : bool :=
  startsWith s needle ||
  match s with
  | EmptyString => false
  | String _ s' => includes s' needle
  end.

(** ** Cell values and the worksheet *)

Inductive CellValue :=
  | VString (s : string)
  | VNumber (n : Z)
  | VBoolean (b : bool).

Global Instance CellValue_eq_dec : EqDecision CellValue.
Proof. solve_decision. Defined.

(** An entry of [worksheet['!merges']]: [merge.s.r], [merge.s.c],
    [merge.e.r], [merge.e.c]. *)
Record MergeRange := {
  merge_s_r : nat;
  merge_s_c : nat;
  merge_e_r : nat;
  merge_e_c : nat
}.

(** The worksheet as the parser reads it: the value of the cell at a row
    and a column, the end of the decoded range ([this.range.e]) and the
    merge rectangles. *)
Record Worksheet := {
  cell : nat → nat → option CellValue;
  range_e_r : nat;
  range_e_c : nat;
  merges : list MergeRange
}.

Module Header.
Record t := mk {
  row : nat;
  column : nat;
  value : string;
  level : Z
}.
Global Instance eq_dec : EqDecision t.
Proof. solve_decision. Defined.
End Header.

(** A row object: header text to cell value. *)
Abbreviation RowData := (gmap string CellValue).

Record Metadata := {
  indentation : option nat;
  patternType : option string;
  contentType : option string;
  relationshipType : option string
}.

(** A reference to a table object: its position in the store. *)
Abbreviation TableRef := nat (only parsing).

Record Table := {
  id : string;
  startRow : Z;
  endRow : Z;
  headers : list Header.t;
  dataRows : list RowData;
  children : list TableRef;
  level : nat;
  parent : option TableRef;
  rowCount : option nat;
  metadata : Metadata
}.

Definition set_endRow (v : Z) (t : Table) : Table :=
  {| id := id t; startRow := startRow t; endRow := v; headers := headers t;
     dataRows := dataRows t; children := children t; level := level t;
     parent := parent t; rowCount := rowCount t; metadata := metadata t |}.

Definition set_headers (v : list Header.t) (t : Table) : Table :=
  {| id := id t; startRow := startRow t; endRow := endRow t; headers := v;
     dataRows := dataRows t; children := children t; level := level t;
     parent := parent t; rowCount := rowCount t; metadata := metadata t |}.

Definition set_dataRows (v : list RowData) (t : Table) : Table :=
  {| id := id t; startRow := startRow t; endRow := endRow t; headers := headers t;
     dataRows := v; children := children t; level := level t;
     parent := parent t; rowCount := rowCount t; metadata := metadata t |}.

Definition set_children (v : list TableRef) (t : Table) : Table :=
  {| id := id t; startRow := startRow t; endRow := endRow t; headers := headers t;
     dataRows := dataRows t; children := v; level := level t;
     parent := parent t; rowCount := rowCount t; metadata := metadata t |}.

Definition set_level (v : nat) (t : Table) : Table :=
  {| id := id t; startRow := startRow t; endRow := endRow t; headers := headers t;
     dataRows := dataRows t; children := children t; level := v;
     parent := parent t; rowCount := rowCount t; metadata := metadata t |}.

Definition set_parent (v : option TableRef) (t : Table) : Table :=
  {| id := id t; startRow := startRow t; endRow := endRow t; headers := headers t;
     dataRows := dataRows t; children := children t; level := level t;
     parent := v; rowCount := rowCount t; metadata := metadata t |}.

Definition set_rowCount (v : option nat) (t : Table) : Table :=
  {| id := id t; startRow := startRow t; endRow := endRow t; headers := headers t;
     dataRows := dataRows t; children := children t; level := level t;
     parent := parent t; rowCount := v; metadata := metadata t |}.

Definition set_metadata (v : Metadata) (t : Table) : Table :=
  {| id := id t; startRow := startRow t; endRow := endRow t; headers := headers t;
     dataRows := dataRows t; children := children t; level := level t;
     parent := parent t; rowCount := rowCount t; metadata := v |}.

Definition set_relationshipType (v : string) (m : Metadata) : Metadata :=
  {| indentation := indentation m; patternType := patternType m;
     contentType := contentType m; relationshipType := Some v |}.

(** The result of [detectFormat]. *)
Module Format.
Record t := mk {
  type : string;
  format : option string
}.
End Format.

(** The result of [extractDataPattern]. *)
Module Pattern.
Record t := mk {
  type : string;
  format : Format.t;
  isUnique : bool;
  hasNulls : bool;
  examples : list (option CellValue)
}.
End Pattern.

Record Location := {
  loc_row : Z;
  loc_col : nat;
  loc_table : TableRef
}.

(** A value of the [groups] map of [findRelatedDataGroups]. *)
Record DataGroup := {
  group_type : string;
  locations : list Location;
  relatedData : gmap string (list CellValue);
  patterns : list Pattern.t
}.

(** A thrown [Error]. *)
Record JsError := {
  message : string;
  stack : string
}.

(** An entry of [this.errors]. *)
Module ErrorInfo.
Record t := mk {
  id : string;
  context : string;
  message : string;
  stack : string;
  timestamp : string
}.
End ErrorInfo.

Record PerformanceMetrics := {
  tablesProcessed : nat;
  rowsProcessed : nat;
  errorsEncountered : nat
}.

(** The parser instance ([this]).  [heap] holds the table objects of the
    run in progress and [clock] counts the entries logged so far; they
    have no field in the class.  [tableStructures] keeps the merged tables
    as they were when the run ended. *)
Record ExcelParser := {
  worksheet : Worksheet;
  tableStructures : list Table;
  errors : list ErrorInfo.t;
  performanceMetrics : PerformanceMetrics;
  heap : list Table;
  clock : nat
}.

Definition set_heap (v : list Table) (this : ExcelParser) : ExcelParser :=
  {| worksheet := worksheet this; tableStructures := tableStructures this;
     errors := errors this; performanceMetrics := performanceMetrics this;
     heap := v; clock := clock this |}.

Definition set_tableStructures (v : list Table) (this : ExcelParser) : ExcelParser :=
  {| worksheet := worksheet this; tableStructures := v;
     errors := errors this; performanceMetrics := performanceMetrics this;
     heap := heap this; clock := clock this |}.

Definition set_tablesProcessed (v : nat) (this : ExcelParser) : ExcelParser :=
  {| worksheet := worksheet this; tableStructures := tableStructures this;
     errors := errors this;
     performanceMetrics :=
       {| tablesProcessed := v;
          rowsProcessed := rowsProcessed (performanceMetrics this);
          errorsEncountered := errorsEncountered (performanceMetrics this) |};
     heap := heap this; clock := clock this |}.

(** How a call ends: it returns a value or throws. *)
Inductive Completion (A : Type) :=
  | Normal (a : A)
  | Throw (error : JsError).
Arguments Normal {A} a.
Arguments Throw {A} error.

(** A method of the parser: from the instance before the call to how the
    call ends and the instance after it. *)
Definition Method (A : Type) : Type := ExcelParser → Completion A * ExcelParser.

Definition ret {A} (a : A) : Method A := λ this, (Normal a, this).

Definition bind {A B} (m : Method A) (k : A → Method B) : Method B :=
  λ this,
    match m this with
    | (Normal a, this') => k a this'
    | (Throw error, this') => (Throw error, this')
    end.

(** [try { body } catch (error) { handler }]. *)
Definition tryCatch {A} (body : Method A) (handler : JsError → Method A) : Method A :=
  λ this,
    match body this with
    | (Normal a, this') => (Normal a, this')
    | (Throw error, this') => handler error this'
    end.

Definition throw {A} (error : JsError) : Method A := λ this, (Throw error, this).

Global Instance Method_ret : MRet Method := @ret.
Global Instance Method_bind : MBind Method := λ A B k m, bind m k.

(** A custom pattern, as [new RegExp(pattern, 'i')] finds it: a regular
    expression, given by its [test], or a text that is no regular
    expression, at which the constructor throws the given [SyntaxError]. *)
Inductive CustomPattern :=
  | RegExp (test : string → bool)
  | Invalid (syntaxError : JsError).

(** [new RegExp(pattern, 'i').test(value)], where the constructor returns.
    The loops over the patterns throw at an invalid pattern and so never
    test it; see [patternError]. *)
Definition testPattern (pattern : CustomPattern) : string → bool :=
  match pattern with
  | RegExp test => test
  | Invalid _ => λ _, false
  end.
Coercion testPattern : CustomPattern >-> Funclass.

(** [config.get('excel')], as far as the parser reads it:
    [customPatterns]; [headerDetection.fuzzyMatchThreshold];
    [errorHandling.throwErrors], false when it is not configured. *)
Record ExcelConfig := {
  customPatterns : list CustomPattern;
  fuzzyMatchThreshold : Q;
  throwErrors : bool
}.

(** What the parser calls outside the repository:
    [stringSimilarity.compareTwoStrings]; the global [isNaN], on a string;
    [uuidv4()] and [new Date().toISOString()] at the moment of the n-th log
    entry; the stack trace the runtime attaches to an error with a given
    message. *)
Record Runtime := {
  compareTwoStrings : string → string → Q;
  isNaN : string → bool;
  uuidv4 : nat → string;
  toISOString : nat → string;
  stackTrace : string → string
}.

(** [config/default.json]. *)
Definition defaultConfig : ExcelConfig :=
  {| customPatterns := []; fuzzyMatchThreshold := 6 # 10; throwErrors := false |}.

(** [new ExcelParser(worksheet)]. *)
Definition newParser (ws : Worksheet) : ExcelParser :=
  {| worksheet := ws; tableStructures := []; errors := [];
     performanceMetrics :=
       {| tablesProcessed := 0; rowsProcessed := 0; errorsEncountered := 0 |};
     heap := []; clock := 0 |}.

Definition emptyMetadata : Metadata :=
  {| indentation := None; patternType := None; contentType := None;
     relationshipType := None |}.

(** The columns [0 .. range.e.c] and the rows [0 .. range.e.r]. *)
Definition columns (ws : Worksheet) : list nat := seq 0 (S (range_e_c ws)).
Definition rows (ws : Worksheet) : list nat := seq 0 (S (range_e_r ws)).

(** A loop that returns from its body: the first result that is not
    [None], in the order of the list. *)
Fixpoint firstSome {A B} (body : A → option B) (l : list A) : option B :=
  match l with
  | [] => None
  | x :: l' =>
      match body x with
      | Some b => Some b
      | None => firstSome body l'
      end
  end.

(** The loop over the custom patterns in [isPotentialHeader] and in
    [getHeaders], at a text: the [SyntaxError] that
    [new RegExp(pattern, 'i')] throws, when the loop gets to an invalid
    pattern before a pattern that matches the text. *)
Fixpoint patternError (patterns : list CustomPattern) (s : string) : option JsError :=
  match patterns with
  | [] => None
  | RegExp test :: patterns' => if test s then None else patternError patterns' s
  | Invalid syntaxError :: _ => Some syntaxError
  end.

(** ** Sample inputs *)

(** The worksheet with the given rows of cells, from row 0 and column 0. *)
Definition sheetOfRows (cells : list (list (option CellValue))) : Worksheet :=
  {| cell := λ r c, mjoin (cells !! r ≫= (.!! c));
     range_e_r := length cells - 1;
     range_e_c := max_list (length <$> cells) - 1;
     merges := [] |}.

Definition text (s : string) : option CellValue := Some (VString s).

(** A header row, one data row and two empty rows. *)
Definition widgetSheet : Worksheet :=
  sheetOfRows
    [ [text "Product Name"; text "Barcode"; text "External Code"; text "QTY"];
      [text "Widget"; text "123"; text "EXT1"; text "5"];
      [None; None; None; None];
      [None; None; None; None] ].

(** A header row, a data row, two empty rows and a further data row. *)
Definition gapSheet : Worksheet :=
  sheetOfRows
    [ [text "Name"; text "Code"];
      [text "Widget"; text "1"];
      [None; None];
      [None; None];
      [text "Gadget"; text "2"] ].

(** A header row and a row of two words, then two empty rows. *)
Definition wordsSheet : Worksheet :=
  sheetOfRows
    [ [text "Name"; text "Code"];
      [text "Widget"; text "Gadget"];
      [None; None];
      [None; None] ].

(** A runtime for the samples: equal strings compare as 1 and others as
    0; [isNaN] is false on unsigned decimal numerals and true elsewhere.
    The samples hold headers that are equal, and no sample reaches [isNaN]
    with another kind of string. *)
Definition sampleRuntime : Runtime :=
  {| compareTwoStrings := λ first second, if bool_decide (first = second) then 1%Q else 0%Q;
     isNaN := λ s, negb (bool_decide (s ≠ EmptyString) && forallChar isDigit s);
     uuidv4 := λ n, "uuid-" +:+ pretty n;
     toISOString := λ n, "tick-" +:+ pretty n;
     stackTrace := λ msg, "Error: " +:+ msg |}.



(** A table as the scan leaves it: [n] names it, it spans the rows
    [first] to [last] and has one header, at column [col]. *)
Definition sampleTable (n : nat) (first last : Z) (col : nat) : Table :=
  {| id := "table_" +:+ pretty n;
     startRow := first;
     endRow := last;
     headers := [Header.mk (Z.to_nat first) col "Name" 0];
     dataRows := [];
     children := [];
     level := 0;
     parent := None;
     rowCount := Some 0;
     metadata :=
       {| indentation := Some col; patternType := Some "default";
          contentType := Some "unknown"; relationshipType := None |} |}.

(** A parser whose run holds the given tables. *)
Definition parserWith (tables : list Table) : ExcelParser :=
  set_heap tables (newParser (sheetOfRows [])).

(** Two tables, the second right below the first and further right. *)
Definition adjacentTables : list Table :=
  [sampleTable 0 0 2 0; sampleTable 1 3 5 1].

(** Three tables, each right below the one before and further right. *)
Definition stackedTables : list Table :=
  [sampleTable 0 0 2 0; sampleTable 1 3 5 1; sampleTable 2 6 8 2].

(** Two adjacent tables that carry the same id. *)
Definition clashingTables : list Table :=
  [sampleTable 0 0 2 0; sampleTable 0 3 5 1].

(** Two tables with the same header; the second lies above the first. *)
Definition farTables : list Table :=
  [sampleTable 0 10 20 0; sampleTable 1 0 5 0].

(** Two tables with the same header, four rows apart. *)
Definition nearTables : list Table :=
  [sampleTable 0 0 5 0; sampleTable 1 9 12 0].

Definition dateHeader : Header.t := Header.mk 0 0 "Date" 0.

(** A table with a column of two dates. *)
Definition datesTable : Table :=
  {| id := "table_0"; startRow := 0; endRow := 2;
     headers := [dateHeader];
     dataRows := [ {["Date" := VString "2024-01-01"]};
                   {["Date" := VString "2024-02-01"]} ];
     children := []; level := 0; parent := None; rowCount := Some 2;
     metadata := emptyMetadata |}.


(** Three rows with four fields; the third agrees with the first on three
    of them. *)
Definition sampleRows : list RowData :=
  [ {["A" := VString "1"; "B" := VString "2"; "C" := VString "3"; "D" := VString "4"]};
    {["A" := VString "5"; "B" := VString "6"; "C" := VString "7"; "D" := VString "8"]};
    {["A" := VString "1"; "B" := VString "2"; "C" := VString "3"; "D" := VString "9"]} ].

Section Parser.

Variable config : ExcelConfig.
Variable runtime : Runtime.

Definition newError (msg : string) : JsError :=
  {| message := msg; stack := stackTrace runtime msg |}.

(** ** HeaderAnalyzer *)

Definition adjustHeader (merge : MergeRange) (header : Header.t) : Header.t :=
  if (merge_s_c merge <=? Header.column header)
     && (Header.column header <=? merge_e_c merge)
     && (Header.row header =? merge_s_r merge)
  then Header.mk (Header.row header) (Header.column header) (Header.value header)
         (Z.of_nat (merge_e_r merge) - Z.of_nat (merge_s_r merge))
  else header.

Definition adjustForMergedCells (ws : Worksheet) (hs : list Header.t) : list Header.t :=
  foldl (λ acc merge, adjustHeader merge <$> acc) hs (merges ws).

(** The body of the loop of [getHeaders], at [col]: the header pushed for
    the cell, if one is pushed.  The loop over the patterns is the one of
    [patternError]; where it throws nothing, it finds a match exactly when
    some pattern tests true. *)
Definition headerAt (ws : Worksheet) (row col : nat) : list Header.t :=
  match cell ws row col with
  | Some (VString value) =>
      if bool_decide (trim value ≠ EmptyString) then
        if existsb (λ pattern : CustomPattern, pattern value) (customPatterns config) || existsChar isLetter value
        then [Header.mk row col (trim value) 0]
        else []
      else []
  | _ => []
  end.

(** The result of [getHeaders(row)], where it returns. *)
Definition getHeaders (ws : Worksheet) (row : nat) : list Header.t :=
  adjustForMergedCells ws (columns ws ≫= headerAt ws row).

(** The error [getHeaders(row)] throws, if it throws: that of the first
    cell of the row, in column order, whose text is not blank after
    trimming and at which the loop over the patterns throws. *)
Definition getHeaders_throws (ws : Worksheet) (row : nat) : option JsError :=
  firstSome (λ col,
               match cell ws row col with
               | Some (VString value) =>
                   if bool_decide (trim value ≠ EmptyString)
                   then patternError (customPatterns config) value
                   else None
               | _ => None
               end) (columns ws).

(** ** Row classification *)

Definition getCellValue (ws : Worksheet) (row col : nat) : option CellValue :=
  cell ws row col.

(** [value === null || value === undefined || value === ""]. *)
Definition isBlank (value : option CellValue) : bool :=
  match value with
  | None => true
  | Some (VString EmptyString) => true
  | Some _ => false
  end.

(** The result of [isPotentialHeader(value)], where it returns. *)
Definition isPotentialHeader (value : CellValue) : bool :=
  match value with
  | VString s =>
      existsb (λ pattern : CustomPattern, pattern s) (customPatterns config)
      || (bool_decide (trim s ≠ EmptyString) && existsChar isLetter s)
  | _ => false
  end.

(** The error [isPotentialHeader(value)] throws, if it throws. *)
Definition isPotentialHeader_throws (value : CellValue) : option JsError :=
  match value with
  | VString s => patternError (customPatterns config) s
  | _ => None
  end.

Definition isPotentialData (value : CellValue) : bool :=
  match value with
  | VString s => bool_decide (trim s ≠ EmptyString)
  | VNumber _ | VBoolean _ => true
  end.

Definition rowIsEmpty (ws : Worksheet) (row : nat) : bool :=
  forallb (λ col, isBlank (getCellValue ws row col)) (columns ws).

Fixpoint countLeadingEmpty (ws : Worksheet) (rs : list nat) : nat :=
  match rs with
  | [] => 0
  | row :: rs' => if rowIsEmpty ws row then S (countLeadingEmpty ws rs') else 0
  end.

Definition countConsecutiveEmptyRows (ws : Worksheet) (currentRow : nat) : nat :=
  countLeadingEmpty ws (seq (currentRow + 1) (range_e_r ws - currentRow)).

Record RowAnalysis := {
  isHeaderRow : bool;
  isDataRow : bool;
  isEmpty : bool;
  consecutiveEmptyRows : nat;
  headerCount : nat;
  dataCount : nat
}.

(** The three counters of [analyzeRow], in the order header, data, empty. *)
Definition countCell (ws : Worksheet) (row : nat)
    (acc : nat * nat * nat) (col : nat) : nat * nat * nat :=
  let '(headerCount, dataCount, emptyCount) := acc in
  match getCellValue ws row col with
  | None => (headerCount, dataCount, S emptyCount)
  | Some value =>
      if isBlank (Some value) then (headerCount, dataCount, S emptyCount)
      else if isPotentialHeader value then (S headerCount, dataCount, emptyCount)
      else if isPotentialData value then (headerCount, S dataCount, emptyCount)
      else acc
  end.

(** The result of [analyzeRow(row)], where it returns. *)
Definition analyzeRow (ws : Worksheet) (row : nat) : RowAnalysis :=
  let '(headerCount, dataCount, emptyCount) :=
    foldl (countCell ws row) (0, 0, 0) (columns ws) in
  {| isHeaderRow := 2 <=? headerCount;
     isDataRow := 0 <? dataCount;
     isEmpty := emptyCount =? range_e_c ws + 1;
     consecutiveEmptyRows := countConsecutiveEmptyRows ws row;
     headerCount := headerCount;
     dataCount := dataCount |}.

(** The error [analyzeRow(row)] throws, if it throws: that of the first
    cell of the row, in column order, that is not empty and at which
    [isPotentialHeader] throws. *)
Definition analyzeRow_throws (ws : Worksheet) (row : nat) : option JsError :=
  firstSome (λ col,
               match getCellValue ws row col with
               | Some value =>
                   if isBlank (Some value) then None
                   else isPotentialHeader_throws value
               | None => None
               end) (columns ws).

(** ** Building tables *)

Definition initializeTable (ws : Worksheet) (row : nat) (n : nat) : Table :=
  {| id := "table_" +:+ pretty n;
     startRow := Z.of_nat row;
     endRow := Z.of_nat row;
     headers := getHeaders ws row;
     dataRows := [];
     children := [];
     level := 0;
     parent := None;
     rowCount := None;
     metadata := emptyMetadata |}.

Definition getTableIndentation (table : Table) : nat :=
  match headers table with
  | [] => 0
  | header :: _ => Header.column header
  end.

Definition identifyTablePattern (table : Table) : string := "default".

Definition isNumber (value : CellValue) : bool :=
  match value with VNumber _ => true | _ => false end.

Definition identifyContentType (table : Table) : string :=
  match dataRows table with
  | [] => "unknown"
  | firstRow :: _ =>
      if existsb (λ kv, isNumber kv.2) (map_to_list firstRow) then "numeric" else "text"
  end.

Definition extractTableMetadata (table : Table) : Metadata :=
  {| indentation := Some (getTableIndentation table);
     patternType := Some (identifyTablePattern table);
     contentType := Some (identifyContentType table);
     relationshipType := None |}.

Definition finalizeTable (table : Table) (endRow : Z) : Table :=
  let table1 := set_endRow endRow table in
  let table2 := set_rowCount (Some (length (dataRows table1))) table1 in
  set_metadata (extractTableMetadata table2) table2.

Definition formatCellValue (value : CellValue) : CellValue := value.

(** [rowData[key] = value] on a plain object, for a cell value: the
    assignment writes an own property, except under the key ["__proto__"],
    the accessor of [Object.prototype], whose setter ignores a value that
    is neither an object nor [null]. *)
Definition setProperty (key : string) (value : CellValue) (rowData : RowData)
    : RowData :=
  if bool_decide (key = "__proto__") then rowData else <[key := value]> rowData.

Definition extractRowData (ws : Worksheet) (row : nat) (hs : list Header.t) : RowData :=
  foldl (λ rowData header,
           match getCellValue ws row (Header.column header) with
           | Some value =>
               setProperty (Header.value header) (formatCellValue value) rowData
           | None => rowData
           end) ∅ hs.

(** The loop state of [findBasicTables]. *)
Record ScanState := {
  tables : list Table;
  currentTable : option Table;
  tableId : nat
}.

Definition scanRow (ws : Worksheet) (st : ScanState) (row : nat) : ScanState :=
  let rowAnalysis := analyzeRow ws row in
  if isHeaderRow rowAnalysis && bool_decide (currentTable st = None) then
    {| tables := tables st;
       currentTable := Some (initializeTable ws row (tableId st));
       tableId := S (tableId st) |}
  else
    match currentTable st with
    | Some table =>
        if isEmpty rowAnalysis && (1 <? consecutiveEmptyRows rowAnalysis) then
          {| tables := tables st ++ [finalizeTable table (Z.of_nat row - 1)];
             currentTable := None;
             tableId := tableId st |}
        else if negb (isEmpty rowAnalysis) then
          let table1 := set_endRow (Z.of_nat row) table in
          let table2 :=
            if isDataRow rowAnalysis
            then set_dataRows
                   (dataRows table1 ++ [extractRowData ws row (headers table1)]) table1
            else table1 in
          {| tables := tables st; currentTable := Some table2; tableId := tableId st |}
        else st
    | None => st
    end.

Definition scanInit : ScanState :=
  {| tables := []; currentTable := None; tableId := 0 |}.

Definition scanRows (ws : Worksheet) (st : ScanState) (rs : list nat) : ScanState :=
  foldl (scanRow ws) st rs.

Definition closeScan (ws : Worksheet) (st : ScanState) : list Table :=
  match currentTable st with
  | Some table => tables st ++ [finalizeTable table (Z.of_nat (range_e_r ws))]
  | None => tables st
  end.

(** The tables the [try] block of [findBasicTables] returns, where it
    throws nothing: those of the scan and the table left open at the end
    of it. *)
Definition scanTables (ws : Worksheet) : list Table :=
  closeScan ws (scanRows ws scanInit (rows ws)).

(** The error the body of the loop throws at [row], if it throws: that of
    [analyzeRow] or, at a header row that opens a table, that of
    [getHeaders], called by [initializeTable]. *)
Definition scanRow_throws (ws : Worksheet) (st : ScanState) (row : nat)
    : option JsError :=
  match analyzeRow_throws ws row with
  | Some error => Some error
  | None =>
      if isHeaderRow (analyzeRow ws row) && bool_decide (currentTable st = None)
      then getHeaders_throws ws row
      else None
  end.

Fixpoint scanRows_throws (ws : Worksheet) (st : ScanState) (rs : list nat)
    : option JsError :=
  match rs with
  | [] => None
  | row :: rs' =>
      match scanRow_throws ws st row with
      | Some error => Some error
      | None => scanRows_throws ws (scanRow ws st row) rs'
      end
  end.

(** The error the [try] block of [findBasicTables] throws, if it throws:
    that of the first row at which the loop throws. *)
Definition scanTables_throws (ws : Worksheet) : option JsError :=
  scanRows_throws ws scanInit (rows ws).

(** ** Hierarchy *)

Definition isChildTable (parentTable potentialChild : Table) : bool :=
  if bool_decide (startRow potentialChild = (endRow parentTable + 1)%Z) then
    let parentIndent :=
      match headers parentTable with [] => 0 | header :: _ => Header.column header end in
    let childIndent :=
      match headers potentialChild with [] => 0 | header :: _ => Header.column header end in
    parentIndent <? childIndent
  else false.

(** The loops of [analyzeTableHierarchy] run over the positions of the
    array [tables]; the table at a position is the object its reference
    names in the store.  A position without a table and a reference without
    an object do not occur; the model leaves the state unchanged there. *)

(** The body of the inner loop, at [j], for the current table at [i]. *)
Definition claimChild (tables : list TableRef) (i : nat)
    (acc : list Table * gset nat) (j : nat) : list Table * gset nat :=
  let '(store, processedIndices) := acc in
  if bool_decide (j ∈ processedIndices) then acc
  else
    match tables !! i, tables !! j with
    | Some ri, Some rj =>
        match store !! ri, store !! rj with
        | Some currentTable, Some potentialChild =>
            if isChildTable currentTable potentialChild then
              let store1 :=
                <[rj := set_parent (Some ri)
                          (set_level (level currentTable + 1) potentialChild)]> store in
              let store2 := alter (λ t, set_children (children t ++ [rj]) t) ri store1 in
              (store2, {[j]} ∪ processedIndices)
            else acc
        | _, _ => acc
        end
    | _, _ => acc
    end.

Record HierarchyState := {
  store : list Table;
  processedIndices : gset nat;
  hierarchicalTables : list TableRef
}.

(** The body of the outer loop, at [i]. *)
Definition adoptChildren (tables : list TableRef)
    (st : HierarchyState) (i : nat) : HierarchyState :=
  if bool_decide (i ∈ processedIndices st) then st
  else
    match tables !! i with
    | Some ri =>
        let store1 :=
          alter (λ t, set_parent None (set_level 0 (set_children [] t))) ri (store st) in
        let '(store2, processed2) :=
          foldl (claimChild tables i) (store1, processedIndices st)
                (seq (i + 1) (length tables - (i + 1))) in
        {| store := store2;
           processedIndices := {[i]} ∪ processed2;
           hierarchicalTables := hierarchicalTables st ++ [ri] |}
    | None => st
    end.

Definition hierarchyLoop (store : list Table) (tables : list TableRef) : HierarchyState :=
  foldl (adoptChildren tables)
    {| store := store; processedIndices := ∅; hierarchicalTables := [] |}
    (seq 0 (length tables)).

Definition labelRelationship (table : Table) : Table :=
  if bool_decide (children table ≠ []) then
    set_metadata (set_relationshipType "parent" (metadata table)) table
  else if bool_decide (parent table ≠ None) then
    set_metadata (set_relationshipType "child" (metadata table)) table
  else
    set_metadata (set_relationshipType "independent" (metadata table)) table.

Definition analyzeTableRelationships (store : list Table) (tables : list TableRef)
    : list Table :=
  foldl (λ acc r, alter labelRelationship r acc) store tables.

(** How the traversal of [validateTableHierarchy] ends: it returns with the
    set of visited ids, or throws at an id seen before.  [MissingTable]
    stands for a reference with no object behind it and [StackOverflow] for
    a recursion deeper than the fuel; neither arises on tables without
    children and with distinct ids ([resolvedStore_valid]). *)
Inductive Traversal :=
  | Visited (visited : gset string)
  | Circular (tableId : string)
  | MissingTable
  | StackOverflow.

Fixpoint forEachTable (validateTable : gset string → TableRef → Traversal)
    (visited : gset string) (tables : list TableRef) : Traversal :=
  match tables with
  | [] => Visited visited
  | table :: rest =>
      match validateTable visited table with
      | Visited visited' => forEachTable validateTable visited' rest
      | stop => stop
      end
  end.

Fixpoint validateTable (fuel : nat) (store : list Table)
    (visited : gset string) (r : TableRef) : Traversal :=
  match fuel with
  | 0 => StackOverflow
  | S fuel' =>
      match store !! r with
      | None => MissingTable
      | Some table =>
          if bool_decide (id table ∈ visited) then Circular (id table)
          else forEachTable (validateTable fuel' store)
                 ({[id table]} ∪ visited) (children table)
      end
  end.

Definition validateTableHierarchy (store : list Table) (tables : list TableRef)
    : Traversal :=
  forEachTable (validateTable (S (length store)) store) ∅ tables.

(** ** Merging *)

Definition areHeadersSimilar (header1 header2 : Header.t) : bool :=
  negb (Qle_bool
          (compareTwoStrings runtime (toLowerCase (Header.value header1))
                                     (toLowerCase (Header.value header2)))
          (fuzzyMatchThreshold config)).

Definition countMatches (headers1 headers2 : list Header.t) : nat :=
  foldl (λ matchCount h1,
           foldl (λ matchCount h2,
                    if areHeadersSimilar h1 h2 then S matchCount else matchCount)
                 matchCount headers2)
        0 headers1.

Definition areTablesRelated (table1 table2 : Table) : bool :=
  if (5 <? Z.abs (startRow table2 - endRow table1))%Z then false
  else
    let matchCount := countMatches (headers table1) (headers table2) in
    let threshold :=
      (inject_Z (Z.of_nat (length (headers table1) `min` length (headers table2)))
       * (1 # 2))%Q in
    Qle_bool threshold (inject_Z (Z.of_nat matchCount)).

(** The body of the inner loop of [groupRelatedTables], at [j], for the
    group begun at [i]; [used] holds positions of [tables]. *)
Definition joinGroup (store : list Table) (tables : list TableRef) (i : nat)
    (acc : list TableRef * gset nat) (j : nat) : list TableRef * gset nat :=
  let '(group, used) := acc in
  if bool_decide (j ∈ used) then acc
  else
    match tables !! i, tables !! j with
    | Some ri, Some rj =>
        match store !! ri, store !! rj with
        | Some table1, Some table2 =>
            if areTablesRelated table1 table2 then (group ++ [rj], {[j]} ∪ used) else acc
        | _, _ => acc
        end
    | _, _ => acc
    end.

Definition startGroup (store : list Table) (tables : list TableRef)
    (acc : list (list TableRef) * gset nat) (i : nat)
    : list (list TableRef) * gset nat :=
  let '(groups, used) := acc in
  if bool_decide (i ∈ used) then acc
  else
    match tables !! i with
    | Some ri =>
        let '(group, used') :=
          foldl (joinGroup store tables i) ([ri], {[i]} ∪ used)
                (seq (i + 1) (length tables - (i + 1))) in
        (groups ++ [group], used')
    | None => acc
    end.

Definition groupRelatedTables (store : list Table) (tables : list TableRef)
    : list (list TableRef) :=
  (foldl (startGroup store tables) ([], ∅) (seq 0 (length tables))).1.

Definition mergeHeaders (headers1 headers2 : list Header.t) : list Header.t :=
  foldl (λ merged h2,
           if existsb (λ h1, areHeadersSimilar h1 h2) merged then merged
           else merged ++ [h2])
        headers1 headers2.

(** One round of the loop of [mergeTables]: the table at [r] is folded into
    the base table. *)
Definition absorbTable (base : TableRef) (store : list Table) (r : TableRef)
    : list Table :=
  match store !! base, store !! r with
  | Some baseTable, Some table =>
      <[base := set_endRow (Z.max (endRow baseTable) (endRow table))
                  (set_dataRows (dataRows baseTable ++ dataRows table)
                     (set_headers (mergeHeaders (headers baseTable) (headers table))
                        baseTable))]> store
  | _, _ => store
  end.

(** [mergeTables]: the store after the merge; the merged table is the
    first of the group. *)
Definition mergeTables (store : list Table) (group : list TableRef) : list Table :=
  match group with
  | [] | [_] => store
  | base :: rest => foldl (absorbTable base) store rest
  end.

(** [matchScore / keys.length > 0.7], the two counts being below 2^49: the
    quotient exceeds the double 0.7 exactly when the ratio exceeds 7/10;
    with no key, 0/0 is NaN, which exceeds nothing, and a positive score
    over 0 is Infinity. *)
Definition exceeds70Percent (matchScore keys : nat) : bool :=
  7 * keys <? 10 * matchScore.

Definition matchScore (row newRow : RowData) : nat :=
  length (filter (λ kv, row !! kv.1 = Some kv.2) (map_to_list newRow)).

(** The predicate [findMatchingRow] hands to [find]. *)
Definition rowMatches (newRow row : RowData) : bool :=
  exceeds70Percent (matchScore row newRow) (size newRow).

Definition findMatchingRow (rows : list RowData) (newRow : RowData) : option RowData :=
  head (filter (λ row, rowMatches newRow row = true) rows).

(** The row list [processTableData] leaves in [table.dataRows]. *)
Definition uniqueRows (rows : list RowData) : list RowData :=
  foldl (λ kept row,
           match findMatchingRow kept row with
           | None => kept ++ [row]
           | Some _ => kept
           end) [] rows.

Definition processTableData (table : Table) : Table :=
  set_dataRows (uniqueRows (dataRows table)) table.

(** The [try] block of [processAndMergeTables]: the store afterwards and
    the merged tables. *)
Definition mergeRelated (store : list Table) (tables : list TableRef)
    : list Table * list TableRef :=
  let tableGroups := groupRelatedTables store tables in
  let store1 := foldl mergeTables store tableGroups in
  let mergedTables := omap head tableGroups in
  let store2 := foldl (λ acc r, alter processTableData r acc) store1 mergedTables in
  (store2, mergedTables).

(** ** Patterns *)

(** [Boolean(value)]. *)
Definition truthy (value : option CellValue) : bool :=
  match value with
  | None => false
  | Some (VString s) => bool_decide (s ≠ EmptyString)
  | Some (VNumber n) => bool_decide (n ≠ 0%Z)
  | Some (VBoolean b) => b
  end.

(** [value.toString()]. *)
Definition toString (value : CellValue) : string :=
  match value with
  | VString s => s
  | VNumber n => pretty n
  | VBoolean true => "true"
  | VBoolean false => "false"
  end.

Definition isChar (x : ascii) (c : ascii) : bool := bool_decide (c = x).

(** A regular expression anchored at the start, one character class per
    position. *)
Fixpoint matchesPrefix (classes : list (ascii → bool)) (s : string) : bool :=
  match classes, s with
  | [], _ => true
  | p :: classes', String c s' => p c && matchesPrefix classes' s'
  | _ :: _, EmptyString => false
  end.

(** [/^\d{4}-\d{2}-\d{2}/]. *)
Definition isoDate : list (ascii → bool) :=
  [isDigit; isDigit; isDigit; isDigit; isChar "-"; isDigit; isDigit;
   isChar "-"; isDigit; isDigit].

(** [/^\d{2}\/\d{2}\/\d{4}/]. *)
Definition usDate : list (ascii → bool) :=
  [isDigit; isDigit; isChar "/"; isDigit; isDigit; isChar "/";
   isDigit; isDigit; isDigit; isDigit].

(** [/^[A-Z0-9-]+$/]. *)
Definition isCode (s : string) : bool :=
  bool_decide (s ≠ EmptyString)
  && forallChar (λ c, isUpper c || isDigit c || isChar "-" c) s.

Definition identifyValueType (value : option CellValue) : string :=
  match value with
  | Some (VNumber _) => "number"
  | Some (VBoolean _) => "boolean"
  | Some (VString s) =>
      if matchesPrefix isoDate s then "date"
      else if matchesPrefix usDate s then "date"
      else if isCode s then "code"
      else "text"
  | None => "text"
  end.

Definition detectDateFormat (sample : string) : option string :=
  if matchesPrefix isoDate sample then Some "YYYY-MM-DD"
  else if matchesPrefix usDate sample then Some "MM/DD/YYYY"
  else None.

Definition detectNumberFormat (sample : string) : string := "standard".

Definition detectCodePattern (sample : string) : string := "alphanumeric".

Definition detectFormatOf (sample : string) : Format.t :=
  match
    (if includes sample "/" || includes sample "-" then detectDateFormat sample
     else None)
  with
  | Some dateFormat => Format.mk "date" (Some dateFormat)
  | None =>
      if negb (isNaN runtime sample) then Format.mk "number" (Some (detectNumberFormat sample))
      else if isCode sample then Format.mk "code" (Some (detectCodePattern sample))
      else Format.mk "text" None
  end.

(** [detectFormat]; its caller never passes an empty list, and the members
    of the list are never [null]. *)
Definition detectFormat (values : list (option CellValue)) : option Format.t :=
  match values with
  | Some value :: _ => Some (detectFormatOf (toString value))
  | _ => None
  end.

(** [table.dataRows.map(row => row[header.value]).filter(Boolean)]. *)
Definition columnValues (table : Table) (header : Header.t) : list (option CellValue) :=
  filter (λ value, truthy value = true)
         ((λ rowData : RowData, rowData !! Header.value header) <$> dataRows table).

Definition extractDataPattern (table : Table) (header : Header.t) : option Pattern.t :=
  let values := columnValues table header in
  match values, detectFormat values with
  | value :: _, Some fmt =>
      Some (Pattern.mk (identifyValueType value)
                       fmt
                       (length (remove_dups values) =? length values)
                       (existsb (λ v, bool_decide (v = None)) values)
                       (take 3 values))
  | _, _ => None
  end.

Definition identifyDataGroup (headerValue : string) : option string :=
  let lower := toLowerCase headerValue in
  if includes lower "product" then Some "product"
  else if includes lower "date" then Some "date"
  else None.

(** ** Errors and the phases *)

Definition handleError (context : string) (error : JsError) : Method () :=
  λ this,
    let errorInfo :=
      ErrorInfo.mk (uuidv4 runtime (clock this)) context (message error) (stack error)
                   (toISOString runtime (clock this)) in
    let this' :=
      {| worksheet := worksheet this;
         tableStructures := tableStructures this;
         errors := errors this ++ [errorInfo];
         performanceMetrics :=
           {| tablesProcessed := tablesProcessed (performanceMetrics this);
              rowsProcessed := rowsProcessed (performanceMetrics this);
              errorsEncountered := S (errorsEncountered (performanceMetrics this)) |};
         heap := heap this;
         clock := S (clock this) |} in
    if throwErrors config then (Throw error, this') else (Normal (), this').

(** The [try] block of [findBasicTables]: it throws where the scan does;
    elsewhere the tables of the scan become the objects of the run. *)
Definition findBasicTables_try : Method (list TableRef) :=
  λ this,
    match scanTables_throws (worksheet this) with
    | Some error => (Throw error, this)
    | None =>
        let tables := scanTables (worksheet this) in
        (Normal (seq 0 (length tables)), set_heap tables this)
    end.

Definition findBasicTables : Method (list TableRef) :=
  tryCatch findBasicTables_try
    (λ error, handleError "basic-table-detection" error;; mret []).

(** The [try] block of [analyzeTableHierarchy]. *)
Definition analyzeTableHierarchy_try (tables : list TableRef) : Method (list TableRef) :=
  λ this,
    let st := hierarchyLoop (heap this) tables in
    let store1 := analyzeTableRelationships (store st) (hierarchicalTables st) in
    let this' := set_heap store1 this in
    match validateTableHierarchy store1 (hierarchicalTables st) with
    | Visited _ => (Normal (hierarchicalTables st), this')
    | Circular tableId =>
        (Throw (newError
                  ("Circular reference detected in table hierarchy: " +:+ tableId)),
         this')
    | MissingTable =>
        (Throw (newError "Cannot read properties of undefined (reading 'id')"), this')
    | StackOverflow =>
        (Throw (newError "Maximum call stack size exceeded"), this')
    end.

Definition analyzeTableHierarchy (tables : list TableRef) : Method (list TableRef) :=
  tryCatch (analyzeTableHierarchy_try tables)
    (λ error, handleError "hierarchy-analysis" error;; mret tables).

(** The [try] block of [processAndMergeTables]. *)
Definition processAndMergeTables_try (tables : list TableRef) : Method (list TableRef) :=
  λ this,
    let '(store', mergedTables) := mergeRelated (heap this) tables in
    (Normal mergedTables, set_heap store' this).

Definition processAndMergeTables (tables : list TableRef) : Method (list TableRef) :=
  tryCatch (processAndMergeTables_try tables)
    (λ error, handleError "table-merging" error;; mret tables).

(** [this.tableStructures = mergedTables] and
    [this.performanceMetrics.tablesProcessed = mergedTables.length]. *)
Definition recordTables (mergedTables : list TableRef) : Method () :=
  λ this,
    (Normal (),
     set_tablesProcessed (length mergedTables)
       (set_tableStructures (omap (λ r, heap this !! r) mergedTables) this)).

(** The [try] block of [findTableStructures]. *)
Definition findTableStructures_try : Method (list TableRef) :=
  basicTables ← findBasicTables;
  hierarchicalTables ← analyzeTableHierarchy basicTables;
  mergedTables ← processAndMergeTables hierarchicalTables;
  recordTables mergedTables;;
  mret mergedTables.

Definition findTableStructures : Method (list TableRef) :=
  tryCatch findTableStructures_try
    (λ error, handleError "table-detection" error;; mret []).

(** The [groups] map, in insertion order. *)
Definition Groups : Type := list (string * DataGroup).

Definition addLocation (groupType : string) (location : Location)
    (pattern : option Pattern.t) (groups : Groups) : Groups :=
  let extend (group : DataGroup) :=
    {| group_type := group_type group;
       locations := locations group ++ [location];
       relatedData := relatedData group;
       patterns := patterns group ++ option_list pattern |} in
  if existsb (λ entry, bool_decide (entry.1 = groupType)) groups then
    (λ entry, if bool_decide (entry.1 = groupType) then (entry.1, extend entry.2)
              else entry) <$> groups
  else
    groups ++ [(groupType,
                extend {| group_type := groupType; locations := [];
                          relatedData := ∅; patterns := [] |})].

(** The first loop of [findRelatedDataGroups], for one table. *)
Definition collectGroups (store : list Table) (groups : Groups) (r : TableRef) : Groups :=
  match store !! r with
  | Some table =>
      foldl (λ groups header,
               match identifyDataGroup (Header.value header) with
               | Some groupType =>
                   addLocation groupType
                     {| loc_row := startRow table; loc_col := Header.column header;
                        loc_table := r |}
                     (extractDataPattern table header) groups
               | None => groups
               end) groups (headers table)
  | None => groups
  end.

(** The class has no method [findRelatedData]: the call in the second loop
    of [findRelatedDataGroups] throws a [TypeError] at the first location. *)
Definition findRelatedData {A} : Method A :=
  throw (newError "this.findRelatedData is not a function").

(** The [try] block of [findRelatedDataGroups]. *)
Definition findRelatedDataGroups_try (tables : list TableRef) : Method Groups :=
  λ this,
    let groups := foldl (collectGroups (heap this)) [] tables in
    match groups ≫= (λ entry, locations entry.2) with
    | [] => (Normal groups, this)
    | _ :: _ => findRelatedData this
    end.

Definition findRelatedDataGroups : Method Groups :=
  tables ← findTableStructures;
  tryCatch (findRelatedDataGroups_try tables)
    (λ error, handleError "data-grouping" error;; mret []).

(** [tables[0].dataRows], or the empty list when there is no table. *)
Definition firstDataRows (tables : list TableRef) : Method (list RowData) :=
  λ this,
    match tables with
    | [] => (Normal [], this)
    | first :: _ =>
        match heap this !! first with
        | Some table => (Normal (dataRows table), this)
        | None => (Normal [], this)
        end
    end.

Definition findProductData : Method (list RowData) :=
  tables ← findTableStructures;
  firstDataRows tables.

Definition getErrors : Method (list ErrorInfo.t) := λ this, (Normal (errors this), this).

Definition clearErrors : Method () :=
  λ this,
    (Normal (),
     {| worksheet := worksheet this; tableStructures := tableStructures this;
        errors := []; performanceMetrics := performanceMetrics this;
        heap := heap this; clock := clock this |}).

(** ** Lookup by header keyword *)

(** The body of the loop over the keywords, for the string cell at [row]
    and [col]: [return adjacentCell.v] when the keyword is found and the
    cell to the right exists. *)
Definition matchKeyword (ws : Worksheet) (row col : nat) (cellValue keyword : string)
    : option CellValue :=
  if includes cellValue (toLowerCase keyword) then cell ws row (col + 1) else None.

Definition searchCell (ws : Worksheet) (keywords : list string) (row col : nat)
    : option CellValue :=
  match cell ws row col with
  | Some (VString v) =>
      let cellValue := toLowerCase (trim v) in
      firstSome (matchKeyword ws row col cellValue) keywords
  | _ => None
  end.

(** [getValueByHeader(keywords)], on the array of keywords (a single
    keyword is wrapped into an array first); [None] is [null]. *)
Definition getValueByHeader (ws : Worksheet) (keywords : list string)
    : option CellValue :=
  let maxRows := 20 `min` (range_e_r ws + 1) in
  firstSome (λ row, firstSome (searchCell ws keywords row) (columns ws))
            (seq 0 maxRows).

(** ** Related data *)

(** [mergeRelatedData(target, source)]: [target] maps a key to an array,
    [source] is given by its entries in iteration order; for each entry
    the value is pushed onto the array under its key, which is created
    empty when the key is missing. *)
Definition mergeRelatedData {V} (target : gmap string (list V))
    (source : list (string * V)) : gmap string (list V) :=
  foldl (λ target entry,
           let target1 :=
             match target !! entry.1 with
             | Some _ => target
             | None => <[entry.1 := []]> target
             end in
           alter (λ array, array ++ [entry.2]) entry.1 target1)
        target source.

(** * The vocabulary of the properties *)

(** The fields the hierarchy pass leaves alone. *)
Definition frame (a b : Table) : Prop :=
  id a = id b ∧ startRow a = startRow b ∧ endRow a = endRow b
  ∧ headers a = headers b ∧ dataRows a = dataRows b
  ∧ rowCount a = rowCount b ∧ metadata a = metadata b.

(** [isChildTable] on the tables at two positions of the input. *)
Definition isChildAt (T : list Table) (i j : nat) : bool :=
  match T !! i, T !! j with
  | Some a, Some b => isChildTable a b
  | _, _ => false
  end.

(** One adoption: [j] becomes a child of [i]. *)
Definition adoptOne (i lvl : nat) (s : list Table) (j : nat) : list Table :=
  alter (λ t, set_children (children t ++ [j]) t) i
    (alter (λ t, set_parent (Some i) (set_level lvl t)) j s).

(** The tables the inner loop claims for [i]: the candidates not yet
    processed that satisfy [isChildTable]. *)
Definition claimed (T : list Table) (P : gset nat) (i : nat) (js : list nat) : list nat :=
  filter (λ j, (j ∉ P) ∧ isChildAt T i j = true) js.

(** The first table of [hier] that satisfies [isChildTable] with the table
    at [x] and stands before it. *)
Definition ownerIn (T : list Table) (hier : list nat) (x : nat) : option nat :=
  head (filter (λ i, i < x ∧ isChildAt T i x = true) hier).

(** The state of the outer loop before position [k]. *)
Definition HierInv (T : list Table) (k : nat) (st : HierarchyState) : Prop :=
  Forall2 frame T (store st)
  ∧ (∀ i, i ∈ hierarchicalTables st → i < k)
  ∧ StronglySorted lt (hierarchicalTables st)
  ∧ (∀ x, x ∈ processedIndices st
          ↔ x < k ∨ is_Some (ownerIn T (hierarchicalTables st) x))
  ∧ (∀ x, x < k → (x ∈ hierarchicalTables st
                    ↔ ownerIn T (hierarchicalTables st) x = None))
  ∧ (∀ x t, store st !! x = Some t →
       match ownerIn T (hierarchicalTables st) x with
       | Some i =>
           parent t = Some i ∧ level t = 1
           ∧ ∃ t0, T !! x = Some t0 ∧ children t = children t0
       | None =>
           if decide (x < k) then
             parent t = None ∧ level t = 0
             ∧ children t =
                 filter (λ j, ownerIn T (hierarchicalTables st) j = Some x)
                        (seq 0 (length T))
           else T !! x = Some t
       end).

(** The parent the pass gives the table at a position. *)
Definition parentAt (s : list Table) (x : nat) : option TableRef :=
  s !! x ≫= parent.

Definition idAt (s : list Table) (x : nat) : string :=
  from_option id EmptyString (s !! x).

Definition childrenAt (s : list Table) (x : nat) : list TableRef :=
  from_option children [] (s !! x).

(** The order in which [validateTableHierarchy] visits a forest of depth
    at most one. *)
Definition visitOrder (s : list Table) (tables : list TableRef) : list TableRef :=
  tables ≫= (λ r, r :: childrenAt s r).

(** Distinct positions hold distinct ids. *)
Definition distinctIds (s : list Table) : Prop :=
  ∀ x y a b, s !! x = Some a → s !! y = Some b → id a = id b → x = y.

(** Two tables that differ at most in their metadata. *)
Definition sameLinks (a b : Table) : Prop :=
  set_metadata emptyMetadata a = set_metadata emptyMetadata b.

(** The store the call leaves, however it ends. *)
Definition resolvedStore (T : list Table) (tables : list TableRef) : list Table :=
  analyzeTableRelationships (store (hierarchyLoop T tables))
    (hierarchicalTables (hierarchyLoop T tables)).

(** Tables as [initializeTable] makes them: no children yet. *)
Definition fresh (T : list Table) : Prop := Forall (λ t, children t = []) T.

Definition tableName (n : nat) : string := "table_" +:+ pretty n.

(** The tables of the scan so far, finalized or still open. *)
Definition built (st : ScanState) : list Table :=
  tables st ++ option_list (currentTable st).

Definition ScanInv (st : ScanState) : Prop :=
  id <$> built st = tableName <$> seq 0 (tableId st)
  ∧ Forall (λ t, children t = []) (built st).

(** The table at a position of the array [tables]. *)
Definition tableAt (s : list Table) (tables : list TableRef) (i : nat) : option Table :=
  tables !! i ≫= (λ r, s !! r).

(** [areTablesRelated] on the tables at two positions. *)
Definition relatedAt (s : list Table) (tables : list TableRef) (i j : nat) : bool :=
  match tableAt s tables i, tableAt s tables j with
  | Some table1, Some table2 => areTablesRelated table1 table2
  | _, _ => false
  end.

(** The positions the inner loop adds to the group begun at [i]. *)
Definition joined (s : list Table) (tables : list TableRef) (used : gset nat)
    (i : nat) (js : list nat) : list nat :=
  filter (λ j, (j ∉ used) ∧ relatedAt s tables i j = true) js.

(** [matchCount] counts the pairs of headers, one of each table, that are
    similar. *)
Definition similarPairs (headers1 headers2 : list Header.t) : nat :=
  length (filter (λ p, areHeadersSimilar p.1 p.2 = true)
                 (list_prod headers1 headers2)).

(** What one table takes from another in [mergeTables]. *)
Definition absorb (baseTable table : Table) : Table :=
  set_endRow (Z.max (endRow baseTable) (endRow table))
    (set_dataRows (dataRows baseTable ++ dataRows table)
       (set_headers (mergeHeaders (headers baseTable) (headers table))
          baseTable)).

(** The fields of the candidate row on which the kept row has the
    identical value. *)
Definition agreement (kept row : RowData) : RowData :=
  filter (λ field, kept !! field.1 = Some field.2) row.

(** The fields merging leaves alone. *)
Definition keepsLinks (a b : Table) : Prop :=
  id a = id b ∧ startRow a = startRow b ∧ children a = children b
  ∧ level a = level b ∧ parent a = parent b ∧ rowCount a = rowCount b
  ∧ metadata a = metadata b.

(** The table at [c] is reached from the table at [i] along [children]. *)
Inductive descendant (s : list Table) : nat → nat → Prop :=
  | descendant_child i c :
      c ∈ childrenAt s i → descendant s i c
  | descendant_step i k c :
      descendant s i k → c ∈ childrenAt s k → descendant s i c.

(** Each table of the list starts at least two rows after the end of
    every table before it. *)
Definition apart (T : list Table) : Prop :=
  ∀ i j a b, i < j → T !! i = Some a → T !! j = Some b →
    (endRow a + 2 ≤ startRow b)%Z.

(** The state of the scan before row [r]: the finalized tables are apart
    and end two rows before [r] or earlier; the open table started before
    [r], two rows or more after each finalized one. *)
Definition GapInv (r : nat) (st : ScanState) : Prop :=
  apart (tables st)
  ∧ (∀ t, t ∈ tables st → (endRow t + 2 ≤ Z.of_nat r)%Z)
  ∧ (∀ c, currentTable st = Some c →
       (startRow c < Z.of_nat r)%Z
       ∧ ∀ t, t ∈ tables st → (endRow t + 2 ≤ startRow c)%Z).

(** The cell at [row] and [col] is text that holds one of the keywords,
    both lowered and the text trimmed, and the cell to its right exists. *)
Definition keywordCell (ws : Worksheet) (keywords : list string) (row col : nat)
    : Prop :=
  (∃ v keyword,
     cell ws row col = Some (VString v) ∧ keyword ∈ keywords
     ∧ includes (toLowerCase (trim v)) (toLowerCase keyword) = true)
  ∧ is_Some (cell ws row (col + 1)).

(** A table the scan opened at the header row [s] and that has taken in
    the rows up to [last]: its data rows are those of the rows after [s]
    up to [last] that have a data cell, read under its headers. *)
Definition scannedFrom (ws : Worksheet) (s last : nat) (t : Table) : Prop :=
  startRow t = Z.of_nat s
  ∧ isHeaderRow (analyzeRow ws s) = true
  ∧ headers t = getHeaders ws s
  ∧ dataRows t =
      (λ r, extractRowData ws r (getHeaders ws s))
        <$> filter (λ r, isDataRow (analyzeRow ws r) = true) (seq (S s) (last - s))
  ∧ children t = [] ∧ level t = 0 ∧ parent t = None.

(** A finalized table of the scan, the [k]-th one. *)
Definition finalized (ws : Worksheet) (k : nat) (t : Table) : Prop :=
  id t = tableName k
  ∧ rowCount t = Some (length (dataRows t))
  ∧ metadata t = extractTableMetadata t
  ∧ ∃ s last, scannedFrom ws s last t ∧ endRow t = Z.of_nat last ∧ s ≤ last.

(** The state of the scan before row [r]. *)
Definition BuildInv (ws : Worksheet) (r : nat) (st : ScanState) : Prop :=
  (∀ k t, tables st !! k = Some t →
     finalized ws k t ∧ (endRow t + 2 ≤ Z.of_nat r)%Z)
  ∧ tableId st = length (built st)
  ∧ (∀ c, currentTable st = Some c →
       id c = tableName (length (tables st))
       ∧ ∃ s, s < r ∧ scannedFrom ws s (r - 1) c).

(** The error the [try] block of [analyzeTableHierarchy] throws at an
    outcome of the traversal, if it throws. *)
Definition validationError (outcome : Traversal) : option JsError :=
  match outcome with
  | Visited _ => None
  | Circular tableId =>
      Some (newError ("Circular reference detected in table hierarchy: " +:+ tableId))
  | MissingTable =>
      Some (newError "Cannot read properties of undefined (reading 'id')")
  | StackOverflow => Some (newError "Maximum call stack size exceeded")
  end.

(** The error [analyzeRow] throws at the cell at [row] and [col], if it
    throws there. *)
Definition throwsAt (ws : Worksheet) (row col : nat) : option JsError :=
  match getCellValue ws row col with
  | Some value => if isBlank (Some value) then None else isPotentialHeader_throws value
  | None => None
  end.

(** Every custom pattern of the configuration is a regular expression. *)
Definition validPatterns : Prop :=
  Forall (λ pattern, ∃ test, pattern = RegExp test) (customPatterns config).

(** The merge rectangle starts in the row of the header and spans its
    column. *)
Definition covers (merge : MergeRange) (header : Header.t) : Prop :=
  merge_s_c merge ≤ Header.column header ≤ merge_e_c merge
  ∧ Header.row header = merge_s_r merge.

Global Instance covers_dec merge header : Decision (covers merge header).
Proof. unfold covers. apply _. Defined.

(** The cell a header with the text [key] reads in [row], when it has one. *)
Definition keyedCell (ws : Worksheet) (row : nat) (key : string) (header : Header.t)
    : option CellValue :=
  if bool_decide (Header.value header = key)
  then getCellValue ws row (Header.column header) else None.

(** The counter [analyzeRow] steps for a cell value, if any. *)
Inductive CellKind := EmptyCell | HeaderCell | DataCell | OtherCell.

Global Instance CellKind_eq_dec : EqDecision CellKind.
Proof. solve_decision. Defined.

Definition cellKind (value : option CellValue) : CellKind :=
  match value with
  | None => EmptyCell
  | Some v =>
      if isBlank (Some v) then EmptyCell
      else if isPotentialHeader v then HeaderCell
      else if isPotentialData v then DataCell
      else OtherCell
  end.

(** The columns of the range whose cell in [row] is of the given kind. *)
Definition columnsOfKind (ws : Worksheet) (row : nat) (kind : CellKind)
    : list nat :=
  filter (λ col, cellKind (getCellValue ws row col) = kind) (columns ws).

(** A header after the merges [ms] have been applied, in order. *)
Definition adjusted (ms : list MergeRange) (header : Header.t) : Header.t :=
  foldl (λ h merge, adjustHeader merge h) header ms.

(** A group as positions of the input: the position it was begun at and
    the later positions that joined it, each related to the first. *)
Definition groupOf (s : list Table) (tables : list TableRef) (ps : list nat)
    : Prop :=
  ∃ i js, ps = i :: js ∧ ∀ j, j ∈ js → i < j ∧ relatedAt s tables i j = true.

(** The state of the outer loop of [groupRelatedTables] before position
    [k]: the groups hold the used positions, each once, and every
    position before [k] is used. *)
Definition GroupInv (s : list Table) (tables : list TableRef) (k : nat)
    (acc : list (list TableRef) * gset nat) : Prop :=
  ∃ pss : list (list nat),
    acc.1 = (λ ps : list nat, omap (λ j, tables !! j) ps) <$> pss
    ∧ NoDup (concat pss)
    ∧ (∀ x, x ∈ acc.2 ↔ x ∈ concat pss)
    ∧ (∀ x, x ∈ acc.2 → x < length tables)
    ∧ (∀ x, x < k → x < length tables → x ∈ acc.2)
    ∧ Forall (groupOf s tables) pss
    ∧ match k with
      | 0 => pss = []
      | S _ => ∃ js rest, pss = (0 :: js) :: rest
      end.

(** * Properties *)

(** ** Lists *)

Lemma filter_Forall {A} (P : A → Prop) `{!∀ x, Decision (P x)} (l : list A) :
  Forall P l → filter P l = l.
Proof.
  induction 1 as [|x l Hx _ IH]; [done|]. by rewrite filter_cons_True, IH.
Qed.

Lemma foldl_snoc {A B} (f : A → B → A) (a : A) (l : list B) (x : B) :
  foldl f a (l ++ [x]) = f (foldl f a l) x.
Proof. by rewrite foldl_app. Qed.

(** ** Loops that return from their body *)

Lemma firstSome_None {A B} (body : A → option B) (l : list A) :
  firstSome body l = None ↔ ∀ x, x ∈ l → body x = None.
Proof.
  induction l as [|x l IH]; cbn.
  - split; [|done]. intros _ x Hx. by apply elem_of_nil in Hx.
  - destruct (body x) eqn:Hx.
    + split; [done|]. intros Hall. rewrite Hall in Hx; [done|by left].
    + rewrite IH. split.
      * intros Hall y [->|Hy]%elem_of_cons; [done|by apply Hall].
      * intros Hall y Hy. apply Hall. by right.
Qed.

Lemma firstSome_Some {A B} (body : A → option B) (l : list A) (b : B) :
  firstSome body l = Some b
  ↔ ∃ l1 x l2, l = l1 ++ x :: l2 ∧ body x = Some b ∧ ∀ y, y ∈ l1 → body y = None.
Proof.
  induction l as [|x l IH]; cbn.
  - split; [done|]. intros (l1 & x & l2 & Hl & _). by destruct l1.
  - destruct (body x) as [b'|] eqn:Hx.
    + split.
      * intros [= ->]. exists [], x, l. split_and!; [done..|].
        intros y Hy. by apply elem_of_nil in Hy.
      * intros ([|x' l1] & y & l2 & Hl & Hy & Hnone).
        -- injection Hl as -> ->. congruence.
        -- injection Hl as -> ->. rewrite Hnone in Hx; [done|by left].
    + rewrite IH. split.
      * intros (l1 & y & l2 & -> & Hy & Hnone). exists (x :: l1), y, l2.
        split_and!; [done..|]. intros z [->|Hz]%elem_of_cons; [done|by apply Hnone].
      * intros ([|x' l1] & y & l2 & Hl & Hy & Hnone).
        -- injection Hl as -> ->. congruence.
        -- injection Hl as -> ->. exists l1, y, l2. split_and!; [done..|].
           intros z Hz. apply Hnone. by right.
Qed.

(** A split of a run of positions: the part before [x] holds the
    positions below it. *)
Lemma seq_split_lt (start len : nat) (l1 l2 : list nat) (x : nat) :
  seq start len = l1 ++ x :: l2 →
  start ≤ x < start + len ∧ ∀ y, y ∈ l1 ↔ start ≤ y < x.
Proof.
  revert start len. induction l1 as [|a l1 IH]; intros start [|len] Hsplit;
    cbn in Hsplit; try done.
  - injection Hsplit as <- _. split; [lia|]. intros y. split; [|lia].
    intros Hy. by apply elem_of_nil in Hy.
  - injection Hsplit as <- Hsplit. destruct (IH _ _ Hsplit) as [Hx Hl1].
    split; [lia|]. intros y. rewrite elem_of_cons, Hl1. lia.
Qed.

Lemma firstSome_seq {B} (body : nat → option B) (start len : nat) (b : B) :
  firstSome body (seq start len) = Some b
  ↔ ∃ x, start ≤ x < start + len ∧ body x = Some b
         ∧ ∀ y, start ≤ y < x → body y = None.
Proof.
  rewrite firstSome_Some. split.
  - intros (l1 & x & l2 & Hsplit & Hx & Hnone).
    destruct (seq_split_lt _ _ _ _ _ Hsplit) as [Hrange Hl1].
    exists x. split_and!; [lia..|done|]. intros y Hy. by apply Hnone, Hl1.
  - intros (x & Hrange & Hx & Hnone).
    exists (seq start (x - start)), x, (seq (S x) (start + len - S x)).
    split_and!; [|done|].
    + replace len with ((x - start) + S (start + len - S x)) at 1 by lia.
      rewrite seq_app. cbn [seq]. by replace (start + (x - start)) with x by lia.
    + intros y Hy%elem_of_seq. apply Hnone. lia.
Qed.

Lemma firstSome_seq_None {B} (body : nat → option B) (start len : nat) :
  firstSome body (seq start len) = None
  ↔ ∀ x, start ≤ x < start + len → body x = None.
Proof.
  rewrite firstSome_None. split.
  - intros Hall x Hx. apply Hall, elem_of_seq. lia.
  - intros Hall x Hx%elem_of_seq. apply Hall. lia.
Qed.

(** ** Row classification *)

Lemma countCell_bound ws row h d e col :
  let '(h', d', e') := countCell ws row (h, d, e) col in
  h ≤ h' ∧ d ≤ d' ∧ h' + d' + e' ≤ S (h + d + e)
  ∧ e' = (if isBlank (getCellValue ws row col) then S e else e).
Proof.
  unfold countCell. destruct (getCellValue ws row col) as [v|]; [|simpl; lia].
  destruct (isBlank (Some v)); [lia|].
  destruct (isPotentialHeader v); [lia|]. destruct (isPotentialData v); lia.
Qed.

Lemma countCells_bound ws row cols h d e :
  let '(h', d', e') := foldl (countCell ws row) (h, d, e) cols in
  h ≤ h' ∧ d ≤ d' ∧ h' + d' + e' ≤ h + d + e + length cols
  ∧ e' = e + length (filter (λ col, isBlank (getCellValue ws row col) = true) cols).
Proof.
  revert h d e. induction cols as [|col cols IH]; intros h d e.
  { simpl. lia. }
  cbn [foldl length].
  pose proof (countCell_bound ws row h d e col) as Hc.
  destruct (countCell ws row (h, d, e) col) as [[h1 d1] e1].
  specialize (IH h1 d1 e1).
  destruct (foldl (countCell ws row) (h1, d1, e1) cols) as [[h2 d2] e2].
  rewrite filter_cons. destruct Hc as (? & ? & ? & ->).
  destruct (isBlank (getCellValue ws row col)) eqn:Hb; case_decide; try done; simpl; lia.
Qed.

Lemma length_columns ws : length (columns ws) = S (range_e_c ws).
Proof. unfold columns. by rewrite length_seq. Qed.

(** A row with a data cell is not empty. *)
Lemma isDataRow_not_isEmpty ws row :
  isDataRow (analyzeRow ws row) = true → isEmpty (analyzeRow ws row) = false.
Proof.
  unfold analyzeRow.
  pose proof (countCells_bound ws row (columns ws) 0 0 0) as Hb.
  destruct (foldl (countCell ws row) (0, 0, 0) (columns ws)) as [[h d] e].
  cbn [isHeaderRow isDataRow isEmpty]. rewrite length_columns in Hb. intros Hd%Nat.ltb_lt. apply Nat.eqb_neq. lia.
Qed.

(** An empty row is no header row. *)
Lemma isEmpty_not_isHeaderRow ws row :
  isEmpty (analyzeRow ws row) = true → isHeaderRow (analyzeRow ws row) = false.
Proof.
  unfold analyzeRow.
  pose proof (countCells_bound ws row (columns ws) 0 0 0) as Hb.
  destruct (foldl (countCell ws row) (0, 0, 0) (columns ws)) as [[h d] e].
  cbn [isHeaderRow isDataRow isEmpty]. rewrite length_columns in Hb. intros He%Nat.eqb_eq. apply Nat.leb_gt. lia.
Qed.

(** [isEmpty] is the emptiness test of [countConsecutiveEmptyRows]. *)
Lemma isEmpty_rowIsEmpty ws row :
  isEmpty (analyzeRow ws row) = rowIsEmpty ws row.
Proof.
  unfold analyzeRow, rowIsEmpty.
  pose proof (countCells_bound ws row (columns ws) 0 0 0) as Hb.
  destruct (foldl (countCell ws row) (0, 0, 0) (columns ws)) as [[h d] e].
  cbn [isHeaderRow isDataRow isEmpty].
  destruct Hb as (_ & _ & _ & ->). rewrite Nat.add_0_l, Nat.add_1_r. rewrite <- length_columns.
  set (P := λ col, isBlank (getCellValue ws row col) = true).
  destruct (forallb _ (columns ws)) eqn:Hall.
  - apply Nat.eqb_eq. f_equal. apply filter_Forall.
    apply Forall_forall. intros col Hcol.
    rewrite forallb_forall in Hall. apply Hall. by apply list_elem_of_In.
  - apply Nat.eqb_neq. intros Hlen.
    assert (Forall P (columns ws)) as HP.
    { apply Forall_forall. intros col Hcol.
      destruct (decide (P col)) as [|Hn]; [done|].
      pose proof (length_filter_lt P (columns ws) col Hcol Hn). lia. }
    assert (forallb (λ col, isBlank (getCellValue ws row col)) (columns ws) = true)
      as Habs; [|congruence].
    apply forallb_forall. intros col Hcol%list_elem_of_In.
    by apply (proj1 (Forall_forall _ _) HP).
Qed.

(** ** The scan of [findBasicTables] *)

Lemma scanRow_closed ws st row :
  currentTable st = None →
  isHeaderRow (analyzeRow ws row) = false →
  scanRow ws st row = st.
Proof. intros Hc Hh. unfold scanRow. cbv zeta. by rewrite Hh, Hc. Qed.

Lemma scanRows_closed ws st rs :
  currentTable st = None →
  (∀ r, r ∈ rs → isHeaderRow (analyzeRow ws r) = false) →
  scanRows ws st rs = st.
Proof.
  intros Hc. induction rs as [|r rs IH]; intros Hrs; [done|].
  unfold scanRows. cbn [foldl]. rewrite scanRow_closed; [|done|].
  - apply IH. intros r' Hr'. apply Hrs. by right.
  - apply Hrs. by left.
Qed.

Lemma scanRow_header ws st row :
  currentTable st = None →
  isHeaderRow (analyzeRow ws row) = true →
  scanRow ws st row =
    {| tables := tables st;
       currentTable := Some (initializeTable ws row (tableId st));
       tableId := S (tableId st) |}.
Proof.
  intros Hc Hh. unfold scanRow. cbv zeta. rewrite Hh, Hc.
  by rewrite bool_decide_eq_true_2.
Qed.

(** While a table is open, a row with a data cell extends it, whether or
    not the row also looks like a header row. *)
Lemma scanRow_data ws st table row :
  currentTable st = Some table →
  isDataRow (analyzeRow ws row) = true →
  scanRow ws st row =
    {| tables := tables st;
       currentTable :=
         Some (set_dataRows (dataRows table ++ [extractRowData ws row (headers table)])
                 (set_endRow (Z.of_nat row) table));
       tableId := tableId st |}.
Proof.
  intros Hc Hd. unfold scanRow. cbv zeta.
  rewrite Hc, Hd, (isDataRow_not_isEmpty _ _ Hd).
  rewrite bool_decide_eq_false_2 by done. by rewrite andb_false_r.
Qed.

Lemma scanRows_data ws st table rs :
  currentTable st = Some table →
  (∀ r, r ∈ rs → isDataRow (analyzeRow ws r) = true) →
  ∃ table',
    scanRows ws st rs =
      {| tables := tables st; currentTable := Some table'; tableId := tableId st |}
    ∧ dataRows table' =
        dataRows table ++ ((λ r, extractRowData ws r (headers table)) <$> rs)
    ∧ headers table' = headers table
    ∧ id table' = id table
    ∧ startRow table' = startRow table.
Proof.
  revert st table. induction rs as [|r rs IH]; intros st table Hc Hrs.
  { exists table. rewrite app_nil_r. destruct st; simpl in *; by subst. }
  unfold scanRows. cbn [foldl].
  rewrite (scanRow_data ws st table r Hc) by (apply Hrs; by left).
  set (table1 := set_dataRows _ _).
  set (st1 := {| tables := tables st; currentTable := Some table1;
                 tableId := tableId st |}).
  destruct (IH st1 table1) as (table' & Hscan & Hrows & Hh & Hid & Hstart);
    [done| intros r' Hr'; apply Hrs; by right | ].
  exists table'. unfold scanRows in Hscan. rewrite Hscan.
  cbn [tables tableId st1] in *. split; [done|].
  rewrite Hrows, Hh, Hid, Hstart. cbn. by rewrite <- app_assoc.
Qed.

(** Over empty rows an open table stays as it is or is finalized. *)
Lemma scanRows_blank ws st table rs :
  currentTable st = Some table →
  (∀ r, r ∈ rs → isEmpty (analyzeRow ws r) = true) →
  scanRows ws st rs = st
  ∨ ∃ endRow,
      scanRows ws st rs =
        {| tables := tables st ++ [finalizeTable table endRow];
           currentTable := None;
           tableId := tableId st |}.
Proof.
  intros Hc. induction rs as [|r rs IH]; intros Hrs; [by left|].
  assert (isEmpty (analyzeRow ws r) = true) as He by (apply Hrs; by left).
  unfold scanRows. cbn [foldl].
  assert (scanRow ws st r = st
          ∨ scanRow ws st r =
              {| tables := tables st ++ [finalizeTable table (Z.of_nat r - 1)];
                 currentTable := None;
                 tableId := tableId st |}) as [Hstep|Hstep].
  { unfold scanRow. cbv zeta. rewrite Hc, He.
    rewrite bool_decide_eq_false_2 by done. rewrite andb_false_r.
    destruct (1 <? _); [by right|by left]. }
  - rewrite Hstep. apply IH. intros r' Hr'. apply Hrs. by right.
  - right. exists (Z.of_nat r - 1)%Z. rewrite Hstep.
    apply scanRows_closed; [done|].
    intros r' Hr'. apply isEmpty_not_isHeaderRow, Hrs. by right.
Qed.

Lemma rowCount_finalizeTable table endRow :
  rowCount (finalizeTable table endRow) = Some (length (dataRows table)).
Proof. done. Qed.

(** ** Patterns that are no regular expressions *)

Lemma patternError_valid patterns s :
  Forall (λ pattern, ∃ test, pattern = RegExp test) patterns →
  patternError patterns s = None.
Proof.
  induction 1 as [|pattern patterns [test ->] _ IH]; [done|].
  cbn. by destruct (test s).
Qed.

(** Where [analyzeRow] has passed a row, [getHeaders] passes it as well:
    it tests the same patterns on texts of the row that are not empty. *)
Lemma getHeaders_throws_None ws row :
  analyzeRow_throws ws row = None → getHeaders_throws ws row = None.
Proof.
  unfold analyzeRow_throws, getHeaders_throws. rewrite !firstSome_None.
  intros Hrow col Hcol. specialize (Hrow col Hcol). unfold getCellValue in Hrow.
  destruct (cell ws row col) as [[value|n|b]|]; try done.
  case_bool_decide as Htrim; [|done].
  destruct value as [|c value]; [done|]. exact Hrow.
Qed.

Lemma scanRow_throws_eq ws st row :
  scanRow_throws ws st row = analyzeRow_throws ws row.
Proof.
  unfold scanRow_throws.
  destruct (analyzeRow_throws ws row) eqn:Hrow; [done|].
  destruct (_ && _); [|done]. by apply getHeaders_throws_None.
Qed.

Lemma scanRows_throws_eq ws st rs :
  scanRows_throws ws st rs = firstSome (analyzeRow_throws ws) rs.
Proof.
  revert st. induction rs as [|row rs IH]; intros st; [done|].
  cbn [scanRows_throws firstSome]. rewrite scanRow_throws_eq.
  by destruct (analyzeRow_throws ws row).
Qed.

Lemma scanTables_throws_eq ws :
  scanTables_throws ws = firstSome (analyzeRow_throws ws) (rows ws).
Proof. apply scanRows_throws_eq. Qed.

Lemma analyzeRow_throws_valid ws row :
  validPatterns → analyzeRow_throws ws row = None.
Proof.
  intros Hvalid. unfold analyzeRow_throws. apply firstSome_None. intros col _.
  destruct (getCellValue ws row col) as [[value|n|b]|]; try done;
    destruct (isBlank _); try done.
  cbn. by apply patternError_valid.
Qed.

Lemma scanTables_throws_valid ws : validPatterns → scanTables_throws ws = None.
Proof.
  intros Hvalid. rewrite scanTables_throws_eq. apply firstSome_None.
  intros row _. by apply analyzeRow_throws_valid.
Qed.

Lemma findBasicTables_eq this :
  scanTables_throws (worksheet this) = None →
  findBasicTables this =
    (Normal (seq 0 (length (scanTables (worksheet this)))),
     set_heap (scanTables (worksheet this)) this).
Proof.
  intros Hscan. unfold findBasicTables, tryCatch, findBasicTables_try.
  by rewrite Hscan.
Qed.

Lemma findBasicTables_throws_eq this error :
  scanTables_throws (worksheet this) = Some error →
  findBasicTables this =
    (if throwErrors config then Throw error else Normal [],
     (handleError "basic-table-detection" error this).2).
Proof.
  intros Hscan. unfold findBasicTables, tryCatch, findBasicTables_try.
  rewrite Hscan. unfold mbind, Method_bind, bind, handleError.
  by destruct (throwErrors config).
Qed.

(** The scan of a sheet that holds one block: rows without a header row,
    the header row [h], [N] rows with data cells, then empty rows to the
    end of the range. *)
Lemma scanTables_single_block ws h N :
  (∀ r, r < h → isHeaderRow (analyzeRow ws r) = false) →
  isHeaderRow (analyzeRow ws h) = true →
  (∀ r, h < r ≤ h + N → isDataRow (analyzeRow ws r) = true) →
  (∀ r, h + N < r ≤ range_e_r ws → isEmpty (analyzeRow ws r) = true) →
  h + N ≤ range_e_r ws →
  ∃ table,
    scanTables ws = [table]
    ∧ rowCount table = Some N
    ∧ dataRows table =
        (λ r, extractRowData ws r (getHeaders ws h)) <$> seq (S h) N
    ∧ headers table = getHeaders ws h
    ∧ id table = "table_0"
    ∧ startRow table = Z.of_nat h.
Proof.
  intros Hpre Hhead Hdata Hblank Hlen.
  unfold scanTables, rows.
  replace (S (range_e_r ws)) with (h + (1 + (N + (range_e_r ws - h - N)))) by lia.
  rewrite !seq_app. unfold scanRows. rewrite !foldl_app. cbn [seq foldl].
  fold (scanRows ws scanInit (seq 0 h)).
  rewrite scanRows_closed; [|done|]; last first.
  { intros r Hr%elem_of_seq. apply Hpre. lia. }
  rewrite scanRow_header by done. cbn [tables tableId scanInit].
  set (st1 := {| tables := []; currentTable := _; tableId := 1 |}).
  fold (scanRows ws st1 (seq (0 + h + 1) N)).
  destruct (scanRows_data ws st1 (initializeTable ws (0 + h) 0) (seq (0 + h + 1) N))
    as (table & Hscan & Hrows & Hh & Hid & Hstart); [done| |].
  { intros r Hr%elem_of_seq. apply Hdata. lia. }
  rewrite Hscan. cbn [tables tableId st1] in *.
  set (st2 := {| tables := []; currentTable := Some table; tableId := 1 |}).
  fold (scanRows ws st2 (seq (0 + h + 1 + N) (range_e_r ws - h - N))).
  replace (0 + h) with h in * by lia. replace (h + 1) with (S h) in * by lia.
  assert (length (dataRows table) = N) as Hcount.
  { rewrite Hrows. cbn. by rewrite length_fmap, length_seq. }
  destruct (scanRows_blank ws st2 table (seq (S h + N) (range_e_r ws - h - N)))
    as [Hend|[e Hend]]; [done| | |].
  { intros r Hr%elem_of_seq. apply Hblank. lia. }
  - rewrite Hend. cbn. eexists. split; [done|].
    rewrite rowCount_finalizeTable. cbn. by rewrite Hcount, Hrows, Hh, Hid, Hstart.
  - rewrite Hend. cbn. eexists. split; [done|].
    rewrite rowCount_finalizeTable. cbn. by rewrite Hcount, Hrows, Hh, Hid, Hstart.
Qed.

(** ** Runs of empty rows *)

Lemma countConsecutiveEmptyRows_gt1 ws row :
  (1 <? countConsecutiveEmptyRows ws row) = true
  ↔ row + 2 ≤ range_e_r ws
    ∧ rowIsEmpty ws (row + 1) = true ∧ rowIsEmpty ws (row + 2) = true.
Proof.
  unfold countConsecutiveEmptyRows. rewrite Nat.ltb_lt.
  destruct (range_e_r ws - row) as [|[|k]] eqn:Hk; cbn [seq countLeadingEmpty].
  - split; [lia|]. intros (? & _). lia.
  - split; [destruct (rowIsEmpty ws (row + 1)); lia|]. intros (? & _). lia.
  - replace (S (row + 1)) with (row + 2) by lia.
    destruct (rowIsEmpty ws (row + 1)); [|split; [lia|by intros (_ & ? & _)]].
    destruct (rowIsEmpty ws (row + 2)); [|split; [lia|by intros (_ & _ & ?)]].
    split; [|lia]. intros _. split; [lia|done].
Qed.

(** An empty row leaves an open table as it is unless the two rows after it
    are empty as well. *)
Lemma scanRow_blank_keeps ws st table row :
  currentTable st = Some table →
  isEmpty (analyzeRow ws row) = true →
  ¬ (row + 2 ≤ range_e_r ws
     ∧ rowIsEmpty ws (row + 1) = true ∧ rowIsEmpty ws (row + 2) = true) →
  scanRow ws st row = st.
Proof.
  intros Hc He Hrun. unfold scanRow. cbv zeta. rewrite Hc, He.
  rewrite bool_decide_eq_false_2 by done. rewrite andb_false_r.
  cbn [consecutiveEmptyRows analyzeRow].
  destruct (1 <? consecutiveEmptyRows (analyzeRow ws row)) eqn:Hgt; [|done].
  exfalso. apply Hrun, countConsecutiveEmptyRows_gt1.
  revert Hgt. unfold analyzeRow.
  by destruct (foldl (countCell ws row) (0, 0, 0) (columns ws)) as [[? ?] ?].
Qed.

(** A single empty row between two other rows does not finalize the open
    table. *)
Lemma single_blank_row_keeps_table ws st table row :
  currentTable st = Some table →
  isEmpty (analyzeRow ws row) = true →
  isEmpty (analyzeRow ws (row + 1)) = false →
  scanRow ws st row = st.
Proof.
  intros Hc He Hnext. apply (scanRow_blank_keeps ws st table); [done..|].
  rewrite <- !isEmpty_rowIsEmpty. intros (_ & ? & _). congruence.
Qed.

(** Neither does a run of exactly two empty rows: the table is still open
    after both. *)
Lemma blank_run_of_two_keeps_table ws st table row :
  currentTable st = Some table →
  isEmpty (analyzeRow ws row) = true →
  isEmpty (analyzeRow ws (row + 1)) = true →
  (range_e_r ws < row + 2 ∨ isEmpty (analyzeRow ws (row + 2)) = false) →
  scanRows ws st [row; row + 1] = st.
Proof.
  intros Hc He1 He2 Hend. unfold scanRows. cbn [foldl].
  rewrite (scanRow_blank_keeps ws st table row); [|done..|].
  - apply (scanRow_blank_keeps ws st table); [done..|].
    rewrite <- !isEmpty_rowIsEmpty. intros (? & Hn & _).
    replace (row + 1 + 1) with (row + 2) in Hn by lia.
    destruct Hend; [lia|congruence].
  - rewrite <- !isEmpty_rowIsEmpty. intros (? & _ & Hn).
    destruct Hend; [lia|congruence].
Qed.

(** A run of three empty rows finalizes the open table at its first row,
    with the row before the run as [endRow]. *)
Lemma blank_run_of_three_finalizes ws st table row :
  currentTable st = Some table →
  isEmpty (analyzeRow ws row) = true →
  isEmpty (analyzeRow ws (row + 1)) = true →
  isEmpty (analyzeRow ws (row + 2)) = true →
  row + 2 ≤ range_e_r ws →
  scanRow ws st row =
    {| tables := tables st ++ [finalizeTable table (Z.of_nat row - 1)];
       currentTable := None;
       tableId := tableId st |}.
Proof.
  intros Hc He1 He2 He3 Hlen. unfold scanRow. cbv zeta. rewrite Hc, He1.
  rewrite bool_decide_eq_false_2 by done. rewrite andb_false_r.
  assert ((1 <? consecutiveEmptyRows (analyzeRow ws row)) = true) as ->; [|done].
  assert (consecutiveEmptyRows (analyzeRow ws row) = countConsecutiveEmptyRows ws row)
    as ->.
  { unfold analyzeRow.
    by destruct (foldl (countCell ws row) (0, 0, 0) (columns ws)) as [[? ?] ?]. }
  apply countConsecutiveEmptyRows_gt1. by rewrite <- !isEmpty_rowIsEmpty.
Qed.



(** ** The hierarchy loop *)

Lemma isChildTable_frame a a' b b' :
  frame a a' → frame b b' → isChildTable a b = isChildTable a' b'.
Proof.
  intros (_ & _ & He & Hh & _) (_ & Hs & _ & Hh' & _).
  unfold isChildTable. by rewrite He, Hh, Hs, Hh'.
Qed.

Global Instance frame_refl : Reflexive frame.
Proof. by intros a. Qed.

Global Instance frame_trans : Transitive frame.
Proof.
  intros a b c (?&?&?&?&?&?&?) (?&?&?&?&?&?&?). repeat split; congruence.
Qed.

Lemma isChildAt_frame T s i j a b :
  Forall2 frame T s → s !! i = Some a → s !! j = Some b →
  isChildTable a b = isChildAt T i j.
Proof.
  intros HF Ha Hb. unfold isChildAt.
  destruct (Forall2_lookup_r _ _ _ _ _ HF Ha) as (a0 & -> & Hfa).
  destruct (Forall2_lookup_r _ _ _ _ _ HF Hb) as (b0 & -> & Hfb).
  symmetry. by apply isChildTable_frame.
Qed.

Lemma adoptOne_frame T i lvl s j :
  Forall2 frame T s → Forall2 frame T (adoptOne i lvl s j).
Proof.
  intros HF. unfold adoptOne.
  apply Forall2_alter_r; [apply Forall2_alter_r; [done|]|]; intros; by etrans.
Qed.

Lemma adopt_frame T i lvl js s :
  Forall2 frame T s → Forall2 frame T (foldl (adoptOne i lvl) s js).
Proof.
  revert s. induction js as [|j js IH]; intros s HF; [done|].
  cbn [foldl]. by apply IH, adoptOne_frame.
Qed.

Lemma adopt_lookup_other i lvl js s x :
  x ≠ i → x ∉ js → foldl (adoptOne i lvl) s js !! x = s !! x.
Proof.
  revert s. induction js as [|j js IH]; intros s Hi Hx; [done|].
  cbn [foldl]. rewrite IH; [|done|set_solver].
  unfold adoptOne. rewrite !list_lookup_alter_ne; [done|set_solver|done].
Qed.

Lemma adopt_lookup_child i lvl js s j :
  j ∈ js → NoDup js → i ∉ js →
  foldl (adoptOne i lvl) s js !! j =
    (λ t, set_parent (Some i) (set_level lvl t)) <$> s !! j.
Proof.
  revert s. induction js as [|j' js IH]; intros s Hj Hnd Hi; [set_solver|].
  apply NoDup_cons in Hnd as [Hj' Hnd]. cbn [foldl].
  destruct (decide (j = j')) as [->|Hne].
  - rewrite adopt_lookup_other; [|set_solver..].
    unfold adoptOne. rewrite list_lookup_alter_ne by set_solver.
    by rewrite list_lookup_alter_eq.
  - rewrite IH; [|set_solver..].
    unfold adoptOne. rewrite !list_lookup_alter_ne; [done|done|set_solver].
Qed.

Lemma adopt_lookup_parent i lvl js s :
  i ∉ js →
  foldl (adoptOne i lvl) s js !! i =
    (λ t, set_children (children t ++ js) t) <$> s !! i.
Proof.
  revert s. induction js as [|j js IH]; intros s Hi.
  { cbn. destruct (s !! i) as [t|]; [|done]. cbn. rewrite app_nil_r. by destruct t. }
  cbn [foldl]. rewrite IH by set_solver.
  unfold adoptOne. rewrite list_lookup_alter_eq, list_lookup_alter_ne by set_solver.
  destruct (s !! i) as [t|]; [|done]. cbn. by rewrite <- app_assoc.
Qed.

Lemma filter_ext_elem_of {A} (P Q : A → Prop) `{!∀ x, Decision (P x)}
    `{!∀ x, Decision (Q x)} (l : list A) :
  (∀ x, x ∈ l → P x ↔ Q x) → filter P l = filter Q l.
Proof.
  induction l as [|x l IH]; intros HPQ; [done|].
  rewrite !filter_cons. rewrite IH by (intros; apply HPQ; by right).
  destruct (decide (P x)) as [HP|HP], (decide (Q x)) as [HQ|HQ]; try done;
    exfalso; apply (HPQ x) in HP || apply (HPQ x) in HQ; (done || by left).
Qed.

Lemma insert_as_alter {A} (f : A → A) (l : list A) (i : nat) (x : A) :
  l !! i = Some x → <[i := f x]> l = alter f i l.
Proof.
  intros Hx. apply list_eq. intros k. destruct (decide (k = i)) as [->|Hne].
  - rewrite list_lookup_insert_eq by (by eapply lookup_lt_Some).
    by rewrite list_lookup_alter_eq, Hx.
  - by rewrite list_lookup_insert_ne, list_lookup_alter_ne.
Qed.

Lemma claimChild_fold T i lvl js s P :
  Forall2 frame T s → i < length T →
  (∀ j, j ∈ js → i < j < length T) → NoDup js →
  (∀ t, s !! i = Some t → level t = lvl) →
  foldl (claimChild (seq 0 (length T)) i) (s, P) js =
    (foldl (adoptOne i (lvl + 1)) s (claimed T P i js),
     list_to_set (claimed T P i js) ∪ P).
Proof.
  revert s P. induction js as [|j js IH]; intros s P HF Hi Hjs Hnd Hlvl.
  { cbn. f_equal. set_solver. }
  apply NoDup_cons in Hnd as [Hj Hnd].
  assert (i < j < length T) as Hij by (apply Hjs; by left).
  assert (∀ j', j' ∈ js → i < j' < length T) as Hjs' by (intros; apply Hjs; by right).
  pose proof (Forall2_length _ _ _ HF) as Hlen.
  destruct (lookup_lt_is_Some_2 s i) as [ti Hti]; [lia|].
  destruct (lookup_lt_is_Some_2 s j) as [tj Htj]; [lia|].
  cbn [foldl]. unfold claimed. rewrite filter_cons.
  unfold claimChild at 2.
  rewrite !lookup_seq_lt by lia. cbn [Nat.add]. rewrite Hti, Htj.
  rewrite (isChildAt_frame T s i j ti tj) by done.
  destruct (decide (j ∈ P)) as [HjP|HjP].
  { rewrite bool_decide_eq_true_2 by done.
    rewrite decide_False by naive_solver. by apply IH. }
  rewrite bool_decide_eq_false_2 by done.
  destruct (isChildAt T i j) eqn:Hrel.
  - rewrite decide_True by done.
    rewrite (insert_as_alter (λ t, set_parent (Some i) (set_level (level ti + 1) t)))
      by done.
    rewrite (Hlvl ti Hti). fold (adoptOne i (lvl + 1) s j).
    rewrite (IH (adoptOne i (lvl + 1) s j) ({[j]} ∪ P)); [| |done..|].
    + cbn [foldl]. f_equal.
      * unfold claimed. f_equal. apply filter_ext_elem_of. intros x Hx. set_solver.
      * unfold claimed.
        rewrite (filter_ext_elem_of (λ x, (x ∉ ({[j]} ∪ P)) ∧ isChildAt T i x = true)
                   (λ x, (x ∉ P) ∧ isChildAt T i x = true)) by (intros x Hx; set_solver).
        set_solver.
    + by apply adoptOne_frame.
    + intros t. unfold adoptOne.
      rewrite list_lookup_alter_eq, list_lookup_alter_ne by lia.
      rewrite Hti. cbn. intros [= <-]. cbn. by apply Hlvl.
  - rewrite decide_False by naive_solver. by apply IH.
Qed.

Lemma ownerIn_snoc T hier k x :
  ownerIn T (hier ++ [k]) x =
    match ownerIn T hier x with
    | Some o => Some o
    | None => if decide (k < x ∧ isChildAt T k x = true) then Some k else None
    end.
Proof.
  unfold ownerIn. rewrite filter_app, head_app.
  destruct (head (filter _ hier)); [done|].
  rewrite filter_cons, filter_nil. by case_decide.
Qed.

Lemma ownerIn_elem_of T hier x o :
  ownerIn T hier x = Some o → o ∈ hier ∧ o < x ∧ isChildAt T o x = true.
Proof.
  unfold ownerIn. intros Hh%head_Some_elem_of.
  apply list_elem_of_filter in Hh. naive_solver.
Qed.

Lemma isChildAt_lt T i x : isChildAt T i x = true → x < length T.
Proof.
  unfold isChildAt. destruct (T !! i); [|done].
  destruct (T !! x) eqn:Hx; [|done]. intros _. by eapply lookup_lt_Some.
Qed.

Lemma HierInv_init T :
  HierInv T 0 {| store := T; processedIndices := ∅; hierarchicalTables := [] |}.
Proof.
  unfold HierInv. cbn. split_and!.
  - by apply Forall_Forall2_diag, Forall_true.
  - set_solver.
  - constructor.
  - intros x. split; [set_solver|]. intros [?|[? ?]]; [lia|done].
  - lia.
  - intros x t Hx. by rewrite decide_False by lia.
Qed.

Lemma filter_none {A} (P : A → Prop) `{!∀ x, Decision (P x)} (l : list A) :
  (∀ x, x ∈ l → ¬ P x) → filter P l = [].
Proof.
  induction l as [|x l IH]; intros HP; [done|].
  rewrite filter_cons_False by (apply HP; by left).
  apply IH. intros y Hy. apply HP. by right.
Qed.

Lemma StronglySorted_snoc_lt (l : list nat) (k : nat) :
  StronglySorted lt l → (∀ i, i ∈ l → i < k) → StronglySorted lt (l ++ [k]).
Proof.
  induction 1 as [|x l Hl IH Hx]; intros Hk; cbn.
  { repeat constructor. }
  constructor.
  - apply IH. intros i Hi. apply Hk. by right.
  - apply Forall_app. split; [done|]. constructor; [|done]. apply Hk. by left.
Qed.

Lemma HierInv_skip T k st :
  k ∈ processedIndices st →
  HierInv T k st → HierInv T (S k) st.
Proof.
  intros HkP (HF & Hlt & Hsort & HP & Htop & Hst).
  assert (is_Some (ownerIn T (hierarchicalTables st) k)) as [o Hown].
  { apply HP in HkP as [?|?]; [lia|done]. }
  unfold HierInv. split_and!; [done| |done| | |].
  - intros i Hi. specialize (Hlt i Hi). lia.
  - intros x. rewrite HP. split; [intros [?|?]; [left; lia|by right]|].
    intros [?|?]; [|by right].
    destruct (decide (x = k)) as [->|]; [right; eauto|left; lia].
  - intros x Hx. destruct (decide (x = k)) as [->|].
    + rewrite Hown. split; [|done]. intros Hin. specialize (Hlt _ Hin). lia.
    + apply Htop. lia.
  - intros x t Hx. specialize (Hst x t Hx).
    destruct (ownerIn T (hierarchicalTables st) x) eqn:E; [done|].
    destruct (decide (x = k)) as [->|]; [congruence|].
    repeat case_decide; try lia; done.
Qed.

Lemma HierInv_adopt T k st :
  k < length T → k ∉ processedIndices st →
  HierInv T k st →
  HierInv T (S k) (adoptChildren (seq 0 (length T)) st k).
Proof.
  intros Hk HkP (HF & Hlt & Hsort & HP & Htop & Hst).
  unfold adoptChildren. rewrite bool_decide_eq_false_2 by done.
  rewrite lookup_seq_lt by done. cbn [Nat.add].
  set (hier := hierarchicalTables st) in *.
  set (P := processedIndices st) in *.
  set (reset := λ t, set_parent None (set_level 0 (set_children [] t))).
  set (s1 := alter reset k (store st)).
  assert (Forall2 frame T s1) as HF1.
  { apply Forall2_alter_r; [done|]. intros; by etrans. }
  pose proof (Forall2_length _ _ _ HF) as Hlen.
  destruct (lookup_lt_is_Some_2 (store st) k) as [tk Htk]; [lia|].
  rewrite length_seq.
  rewrite (claimChild_fold T k 0 _ s1 P); [|done|done| |apply NoDup_seq|]; first last.
  { intros t. unfold s1. rewrite list_lookup_alter_eq, Htk. by intros [= <-]. }
  { intros j Hj%elem_of_seq. lia. }
  cbn [Nat.add].
  set (cl := claimed T P k (seq (k + 1) (length T - (k + 1)))).
  assert (ownerIn T hier k = None) as Hown.
  { destruct (ownerIn T hier k) eqn:E; [|done]. exfalso. apply HkP, HP. right. eauto. }
  assert (∀ j, j ∈ cl ↔ ownerIn T (hier ++ [k]) j = Some k) as Hcl.
  { intros j. unfold cl, claimed.
    rewrite list_elem_of_filter, elem_of_seq, ownerIn_snoc, HP. split.
    - intros ((HnP & Hrel) & Hj). destruct (ownerIn T hier j) eqn:E.
      { exfalso. apply HnP. right. eauto. }
      rewrite decide_True; [done|]. split; [lia|done].
    - destruct (ownerIn T hier j) as [o|] eqn:E.
      { intros [= ->]. apply ownerIn_elem_of in E as (Hin & _).
        specialize (Hlt _ Hin). lia. }
      case_decide as Hd; [|done]. intros _. destruct Hd as [Hkj Hrel].
      pose proof (isChildAt_lt _ _ _ Hrel).
      split; [split; [|done]|lia]. intros [?|[? ?]]; [lia|done]. }
  assert (k ∉ cl) as Hkcl.
  { rewrite Hcl, ownerIn_snoc, Hown. case_decide; [lia|done]. }
  assert (NoDup cl) as Hndcl.
  { unfold cl, claimed. apply NoDup_filter, NoDup_seq. }
  assert (∀ x y, x ≠ k → ownerIn T (hier ++ [k]) x = Some y → y ≠ k →
                 ownerIn T hier x = Some y) as Hold.
  { intros x y _. rewrite ownerIn_snoc. destruct (ownerIn T hier x); [done|].
    case_decide; [|done]. by intros [= ->]. }
  unfold HierInv. cbn [store processedIndices hierarchicalTables]. split_and!.
  - by apply adopt_frame.
  - intros i [Hi| ->%list_elem_of_singleton]%elem_of_app; [|lia].
    specialize (Hlt i Hi). lia.
  - by apply StronglySorted_snoc_lt.
  - intros x. rewrite !elem_of_union, elem_of_singleton, elem_of_list_to_set, Hcl, HP.
    rewrite ownerIn_snoc. destruct (ownerIn T hier x) as [o|] eqn:E.
    + split; [intros _; right; eauto|]. intros _. right. right. right. eauto.
    + case_decide as Hd.
      * split; [intros _; right; eauto|]. intros _. right. by left.
      * split.
        -- intros [->|[?|[?|[? ?]]]]; [left; lia|done|left; lia|done].
        -- intros [?|[? ?]]; [|done].
           destruct (decide (x = k)) as [->|]; [by left|]. right. right. left. lia.
  - intros x Hx. rewrite elem_of_app, list_elem_of_singleton, ownerIn_snoc.
    destruct (decide (x = k)) as [->|Hne].
    + rewrite Hown. rewrite decide_False by lia. naive_solver.
    + rewrite (Htop x) by lia. destruct (ownerIn T hier x); [naive_solver|].
      rewrite decide_False by lia. naive_solver.
  - intros x t Hx. destruct (decide (x = k)) as [->|Hne].
    + rewrite adopt_lookup_parent in Hx by done.
      unfold s1 in Hx. rewrite list_lookup_alter_eq, Htk in Hx.
      cbn in Hx. injection Hx as <-.
      rewrite ownerIn_snoc, Hown. rewrite decide_False by lia.
      rewrite decide_True by lia. cbn. split_and!; [done..|].
      replace (seq 0 (length T))
        with (seq 0 (k + 1) ++ seq (k + 1) (length T - (k + 1)))
        by (rewrite <- (seq_app (k + 1)); f_equal; lia).
      rewrite filter_app. rewrite filter_none.
      2:{ intros j Hj%elem_of_seq Hj'. apply Hcl in Hj'.
          unfold cl, claimed in Hj'.
          apply list_elem_of_filter in Hj' as [_ Hj'%elem_of_seq]. lia. }
      cbn [app Nat.add]. unfold cl, claimed. apply filter_ext_elem_of.
      intros j Hj. rewrite <- Hcl. unfold cl, claimed.
      rewrite list_elem_of_filter. naive_solver.
    + destruct (decide (x ∈ cl)) as [Hxcl|Hxcl].
      * rewrite (adopt_lookup_child k 1 cl s1 x) in Hx by done.
        unfold s1 in Hx. rewrite list_lookup_alter_ne in Hx by done.
        destruct (store st !! x) as [tx|] eqn:Htx; [|done].
        cbn in Hx. injection Hx as <-.
        pose proof (proj1 (Hcl x) Hxcl) as Hox. rewrite Hox.
        specialize (Hst x tx Htx).
        rewrite ownerIn_snoc in Hox.
        destruct (ownerIn T hier x) as [o|] eqn:E.
        { injection Hox as ->. apply ownerIn_elem_of in E as (Hin & _).
          specialize (Hlt _ Hin). lia. }
        case_decide as Hd; [|done].
        rewrite decide_False in Hst by lia.
        cbn. split_and!; [done..|]. by exists tx.
      * rewrite adopt_lookup_other in Hx by done.
        unfold s1 in Hx. rewrite list_lookup_alter_ne in Hx by done.
        specialize (Hst x t Hx).
        destruct (ownerIn T (hier ++ [k]) x) as [o'|] eqn:E'.
        -- assert (o' ≠ k) as Hok by (intros ->; by apply Hxcl, Hcl).
           by rewrite (Hold x o' Hne E' Hok) in Hst.
        -- rewrite ownerIn_snoc in E'.
           destruct (ownerIn T hier x) as [o|] eqn:E; [done|].
           case_decide as Hd; [done|].
           destruct (decide (x < k)) as [Hxk|Hxk].
           ++ rewrite decide_True by lia.
              destruct Hst as (? & ? & Hch). split_and!; [done..|].
              rewrite Hch. apply filter_ext_elem_of. intros j _.
              rewrite ownerIn_snoc. destruct (ownerIn T hier j); [done|].
              case_decide; naive_solver.
           ++ by rewrite decide_False by lia.
Qed.

Lemma adoptChildren_skip tables st k :
  k ∈ processedIndices st → adoptChildren tables st k = st.
Proof. intros Hk. unfold adoptChildren. by rewrite bool_decide_eq_true_2. Qed.

Lemma hierarchyLoop_inv T :
  HierInv T (length T) (hierarchyLoop T (seq 0 (length T))).
Proof.
  unfold hierarchyLoop. rewrite length_seq.
  cut (∀ m k st, k + m = length T → HierInv T k st →
         HierInv T (length T)
           (foldl (adoptChildren (seq 0 (length T))) st (seq k m))).
  { intros Hcut. apply Hcut; [lia|apply HierInv_init]. }
  induction m as [|m IH]; intros k st Hkm Hinv.
  { cbn. by replace (length T) with k by lia. }
  cbn [seq foldl]. apply IH; [lia|].
  destruct (decide (k ∈ processedIndices st)) as [Hk|Hk].
  - rewrite adoptChildren_skip by done. by apply HierInv_skip.
  - apply HierInv_adopt; [lia|done..].
Qed.

Lemma head_filter_sorted (Q : nat → Prop) `{!∀ x, Decision (Q x)} (l : list nat) i :
  StronglySorted lt l →
  head (filter Q l) = Some i
  ↔ i ∈ l ∧ Q i ∧ ∀ i', i' ∈ l → i' < i → ¬ Q i'.
Proof.
  induction 1 as [|x l Hl IH Hx].
  { cbn. split; [done|]. intros (?%elem_of_nil & _). done. }
  rewrite filter_cons. destruct (decide (Q x)) as [HQ|HQ].
  - cbn. split.
    + intros [= <-]. split_and!; [by left|done|].
      intros i' [->|Hi']%elem_of_cons ?; [lia|].
      rewrite Forall_forall in Hx. specialize (Hx i' Hi'). lia.
    + intros ([->|Hi]%elem_of_cons & HQi & Hmin); [done|].
      exfalso. apply (Hmin x); [by left| |done].
      rewrite Forall_forall in Hx. by apply Hx.
  - rewrite IH. split.
    + intros (Hi & HQi & Hmin). split_and!; [by right|done|].
      intros i' [->|Hi']%elem_of_cons ?; [done|]. by apply Hmin.
    + intros ([->|Hi]%elem_of_cons & HQi & Hmin); [done|].
      split_and!; [done..|]. intros i' Hi'. apply Hmin. by right.
Qed.

(** What the loop leaves: the returned list is ascending and holds the
    positions without an owner; a table with an owner has it as parent,
    level 1 and its children as before; a table without has no parent,
    level 0 and the tables it owns as children, in ascending order. *)
Lemma hierarchyLoop_spec T :
  let st := hierarchyLoop T (seq 0 (length T)) in
  let hier := hierarchicalTables st in
  Forall2 frame T (store st)
  ∧ StronglySorted lt hier
  ∧ (∀ x, x ∈ hier ↔ x < length T ∧ ownerIn T hier x = None)
  ∧ (∀ x t, store st !! x = Some t →
       parent t = ownerIn T hier x
       ∧ match ownerIn T hier x with
         | Some _ => level t = 1 ∧ ∃ t0, T !! x = Some t0 ∧ children t = children t0
         | None =>
             level t = 0
             ∧ children t = filter (λ j, ownerIn T hier j = Some x) (seq 0 (length T))
         end).
Proof.
  intros st hier.
  destruct (hierarchyLoop_inv T) as (HF & Hlt & Hsort & HP & Htop & Hst).
  fold st hier in HF, Hlt, Hsort, HP, Htop, Hst.
  split_and!; [done..| |].
  - intros x. split.
    + intros Hx. pose proof (Hlt x Hx). split; [done|]. by apply Htop.
    + intros [Hx Ho]. by apply Htop.
  - intros x t Hx. specialize (Hst x t Hx).
    pose proof (Forall2_length _ _ _ HF) as Hlen.
    pose proof (lookup_lt_Some _ _ _ Hx) as Hxlt.
    destruct (ownerIn T hier x); [naive_solver|].
    rewrite decide_True in Hst by lia. naive_solver.
Qed.

Lemma hierarchyLoop_parentAt T x :
  x < length T →
  parentAt (store (hierarchyLoop T (seq 0 (length T)))) x =
    ownerIn T (hierarchicalTables (hierarchyLoop T (seq 0 (length T)))) x.
Proof.
  intros Hx. destruct (hierarchyLoop_spec T) as (HF & _ & _ & Hst).
  unfold parentAt.
  destruct (lookup_lt_is_Some_2 (store (hierarchyLoop T (seq 0 (length T)))) x)
    as [t Ht].
  { by rewrite <- (Forall2_length _ _ _ HF). }
  rewrite Ht. cbn. by apply Hst.
Qed.

Lemma hierarchyLoop_top T x :
  x < length T →
  x ∈ hierarchicalTables (hierarchyLoop T (seq 0 (length T)))
  ↔ parentAt (store (hierarchyLoop T (seq 0 (length T)))) x = None.
Proof.
  intros Hx. rewrite hierarchyLoop_parentAt by done.
  destruct (hierarchyLoop_spec T) as (_ & _ & Htop & _). rewrite Htop. naive_solver.
Qed.

(** The table at [j] gets the table at [i] as parent exactly when [i] is
    the first position before [j] that was not itself claimed and whose
    table satisfies [isChildTable] with the one at [j]. *)
Lemma hierarchyLoop_parent_iff T i j ti tj :
  T !! i = Some ti → T !! j = Some tj →
  let s := store (hierarchyLoop T (seq 0 (length T))) in
  parentAt s j = Some i
  ↔ i < j ∧ parentAt s i = None ∧ isChildTable ti tj = true
    ∧ ∀ i' ti', i' < i → T !! i' = Some ti' → parentAt s i' = None →
        isChildTable ti' tj = false.
Proof.
  intros Hi Hj s.
  pose proof (lookup_lt_Some _ _ _ Hi) as Hilt.
  pose proof (lookup_lt_Some _ _ _ Hj) as Hjlt.
  unfold s. rewrite hierarchyLoop_parentAt by done.
  rewrite <- hierarchyLoop_top by done.
  destruct (hierarchyLoop_spec T) as (_ & Hsort & Htop & _).
  unfold ownerIn. rewrite head_filter_sorted by done.
  assert (isChildAt T i j = isChildTable ti tj) as Hrel.
  { unfold isChildAt. by rewrite Hi, Hj. }
  rewrite Hrel. split.
  - intros (Hin & [Hij Hc] & Hmin). split_and!; [done..|].
    intros i' ti' Hi'i Hi' Htop'.
    apply hierarchyLoop_top in Htop'; [|by eapply lookup_lt_Some].
    destruct (isChildTable ti' tj) eqn:Hc'; [|done].
    exfalso. apply (Hmin i' Htop' Hi'i). split; [lia|].
    unfold isChildAt. by rewrite Hi', Hj.
  - intros (Hij & Hin & Hc & Hmin). split_and!; [done..|].
    intros i' Hin' Hi'i [_ Hc'].
    apply Htop in Hin' as Hi'lt. destruct Hi'lt as [Hi'lt _].
    destruct (lookup_lt_is_Some_2 T i' Hi'lt) as [ti' Hti'].
    unfold isChildAt in Hc'. rewrite Hti', Hj in Hc'.
    rewrite (Hmin i' ti') in Hc'; [done..|].
    by apply hierarchyLoop_top.
Qed.

(** ** Validation *)

Lemma distinctIds_NoDup s : NoDup (id <$> s) → distinctIds s.
Proof.
  intros Hnd x y a b Hx Hy Hid.
  apply (NoDup_lookup (id <$> s) x y (id a)); [done| |].
  - by rewrite list_lookup_fmap, Hx.
  - by rewrite list_lookup_fmap, Hy, Hid.
Qed.

Lemma idAt_not_visited s done c tc :
  distinctIds s → s !! c = Some tc → c ∉ done →
  (∀ d, d ∈ done → is_Some (s !! d)) →
  id tc ∉ (list_to_set (idAt s <$> done) : gset string).
Proof.
  intros Hinj Hc Hnew Hvalid. rewrite elem_of_list_to_set, list_elem_of_fmap.
  intros (d & Hid & Hd). destruct (Hvalid d Hd) as [td Htd].
  unfold idAt in Hid. rewrite Htd in Hid. cbn in Hid.
  apply Hnew. by rewrite (Hinj c d tc td Hc Htd Hid).
Qed.

Lemma validateTable_S fuel s visited r :
  validateTable (S fuel) s visited r =
    match s !! r with
    | None => MissingTable
    | Some table =>
        if bool_decide (id table ∈ visited) then Circular (id table)
        else forEachTable (validateTable fuel s) ({[id table]} ∪ visited)
               (children table)
    end.
Proof. done. Qed.

Lemma forEachTable_leaves fuel s done cs :
  distinctIds s →
  (∀ d, d ∈ done → is_Some (s !! d)) →
  (∀ c, c ∈ cs → ∃ tc, s !! c = Some tc ∧ children tc = []) →
  NoDup (done ++ cs) →
  forEachTable (validateTable (S fuel) s) (list_to_set (idAt s <$> done)) cs =
    Visited (list_to_set (idAt s <$> (done ++ cs))).
Proof.
  intros Hinj. revert done. induction cs as [|c cs IH]; intros done Hvalid Hleaf Hnd.
  { by rewrite app_nil_r. }
  destruct (Hleaf c) as (tc & Hc & Hch); [by left|].
  apply NoDup_app in Hnd as Hnd'. destruct Hnd' as (_ & Hdisj & _).
  cbn [forEachTable]. rewrite validateTable_S, Hc.
  rewrite bool_decide_eq_false_2.
  2:{ apply (idAt_not_visited s done c tc); [done..| |done].
      intros Hin. apply (Hdisj c Hin). by left. }
  rewrite Hch. cbn [forEachTable].
  replace ({[id tc]} ∪ list_to_set (idAt s <$> done))
    with (list_to_set (C:=gset string) (idAt s <$> (done ++ [c]))).
  2:{ rewrite fmap_app, list_to_set_app_L. cbn. unfold idAt at 2. rewrite Hc. cbn.
      set_solver. }
  rewrite IH.
  - by rewrite <- app_assoc.
  - intros d [Hd| ->%list_elem_of_singleton]%elem_of_app; [by apply Hvalid|eauto].
  - intros c' Hc'. apply Hleaf. by right.
  - by rewrite <- app_assoc.
Qed.

Lemma forEachTable_tops fuel s done tables :
  distinctIds s →
  (∀ d, d ∈ done → is_Some (s !! d)) →
  (∀ r, r ∈ tables →
     ∃ t, s !! r = Some t
          ∧ ∀ c, c ∈ children t → ∃ tc, s !! c = Some tc ∧ children tc = []) →
  NoDup (done ++ visitOrder s tables) →
  forEachTable (validateTable (S (S fuel)) s) (list_to_set (idAt s <$> done)) tables =
    Visited (list_to_set (idAt s <$> (done ++ visitOrder s tables))).
Proof.
  intros Hinj. revert done.
  induction tables as [|r tables IH]; intros done Hvalid Htop Hnd.
  { cbn. by rewrite app_nil_r. }
  destruct (Htop r) as (t & Hr & Hleaf); [by left|].
  unfold visitOrder in *. cbn [mbind list_bind] in *.
  change (foldr _ _ _) with (tables ≫= (λ r, r :: childrenAt s r)) in *.
  assert (childrenAt s r = children t) as Hcr by (unfold childrenAt; by rewrite Hr).
  rewrite Hcr in *. cbn [app] in Hnd |- *.
  apply NoDup_app in Hnd as Hnd'. destruct Hnd' as (_ & Hdisj & _).
  cbn [forEachTable]. rewrite validateTable_S, Hr.
  rewrite bool_decide_eq_false_2.
  2:{ apply (idAt_not_visited s done r t); [done..| |done].
      intros Hin. apply (Hdisj r Hin). by left. }
  replace ({[id t]} ∪ list_to_set (idAt s <$> done))
    with (list_to_set (C:=gset string) (idAt s <$> (done ++ [r]))).
  2:{ rewrite fmap_app, list_to_set_app_L. cbn. unfold idAt at 2. rewrite Hr. cbn.
      set_solver. }
  assert (∀ d, d ∈ done ++ [r] → is_Some (s !! d)) as Hvalid1.
  { intros d [Hd| ->%list_elem_of_singleton]%elem_of_app; [by apply Hvalid|eauto]. }
  replace (done ++ r :: children t ++ tables ≫= (λ r, r :: childrenAt s r))
    with (((done ++ [r]) ++ children t) ++ tables ≫= (λ r, r :: childrenAt s r)) in *
    by (by rewrite <- !app_assoc).
  rewrite forEachTable_leaves; [|done..|by apply NoDup_app in Hnd as (? & _)].
  apply IH; [|intros; apply Htop; by right|done].
  intros d [Hd|Hd]%elem_of_app; [by apply Hvalid1|].
  destruct (Hleaf d Hd) as (? & ? & _). eauto.
Qed.

(** On a forest of depth at most one whose tables have distinct ids the
    traversal returns. *)
Lemma validateTableHierarchy_flat s tables :
  distinctIds s →
  (∀ r, r ∈ tables →
     ∃ t, s !! r = Some t
          ∧ ∀ c, c ∈ children t → ∃ tc, s !! c = Some tc ∧ children tc = []) →
  NoDup (visitOrder s tables) →
  validateTableHierarchy s tables =
    Visited (list_to_set (idAt s <$> visitOrder s tables)).
Proof.
  intros Hinj Htop Hnd. unfold validateTableHierarchy.
  destruct tables as [|r tables]; [done|].
  destruct (Htop r) as (t & Hr%lookup_lt_Some & _); [by left|].
  destruct (length s) as [|n]; [lia|].
  apply (forEachTable_tops n s []); [done|set_solver|done..].
Qed.

(** ** Labels *)

Global Instance sameLinks_equiv : Equivalence sameLinks.
Proof.
  unfold sameLinks. split.
  - by intros a.
  - by intros a b.
  - intros a b c Hab Hbc. by rewrite Hab.
Qed.

Lemma sameLinks_fields a b :
  sameLinks a b →
  id a = id b ∧ children a = children b ∧ parent a = parent b ∧ level a = level b
  ∧ startRow a = startRow b ∧ endRow a = endRow b ∧ headers a = headers b
  ∧ dataRows a = dataRows b ∧ rowCount a = rowCount b.
Proof.
  unfold sameLinks, set_metadata. intros [=]. by split_and!.
Qed.

Lemma labelRelationship_sameLinks t : sameLinks t (labelRelationship t).
Proof. unfold labelRelationship. by repeat case_bool_decide. Qed.

Lemma analyzeTableRelationships_sameLinks s tables :
  Forall2 sameLinks s (analyzeTableRelationships s tables).
Proof.
  unfold analyzeTableRelationships.
  cut (∀ s0, Forall2 sameLinks s0 s →
         Forall2 sameLinks s0 (foldl (λ acc r, alter labelRelationship r acc) s tables)).
  { intros Hcut. apply Hcut. by apply Forall_Forall2_diag, Forall_true. }
  revert s. induction tables as [|r tables IH]; intros s s0 Hs; [done|].
  cbn [foldl]. apply IH. apply Forall2_alter_r; [done|].
  intros a b _ _ Hab. etrans; [done|]. apply labelRelationship_sameLinks.
Qed.

(** A table outside the list [analyzeTableRelationships] is given is not
    labelled. *)
Lemma analyzeTableRelationships_other s tables x :
  x ∉ tables → analyzeTableRelationships s tables !! x = s !! x.
Proof.
  unfold analyzeTableRelationships. revert s.
  induction tables as [|r tables IH]; intros s Hx; [done|].
  cbn [foldl]. rewrite IH by set_solver.
  apply list_lookup_alter_ne. set_solver.
Qed.

(** A table in the list is labelled from its children and its parent. *)
Lemma analyzeTableRelationships_labelled s tables x :
  x ∈ tables → NoDup tables →
  analyzeTableRelationships s tables !! x = labelRelationship <$> s !! x.
Proof.
  unfold analyzeTableRelationships. revert s.
  induction tables as [|r tables IH]; intros s Hx Hnd; [set_solver|].
  apply NoDup_cons in Hnd as [Hr Hnd]. cbn [foldl].
  destruct (decide (x = r)) as [->|Hne].
  - rewrite (analyzeTableRelationships_other _ tables r) by done.
    apply list_lookup_alter_eq.
  - rewrite IH; [|set_solver|done]. by rewrite list_lookup_alter_ne.
Qed.

(** ** The method [analyzeTableHierarchy] *)

Lemma handleError_heap context error this :
  heap (handleError context error this).2 = heap this.
Proof. unfold handleError. by destruct (throwErrors config). Qed.

Lemma analyzeTableHierarchy_heap tables this :
  heap (analyzeTableHierarchy tables this).2 = resolvedStore (heap this) tables.
Proof.
  unfold analyzeTableHierarchy, analyzeTableHierarchy_try, tryCatch, resolvedStore.
  destruct (validateTableHierarchy _ _); cbn [snd]; [done|..];
    unfold mbind, Method_bind, bind, handleError;
    by destruct (throwErrors config).
Qed.

(** When the traversal returns, the call returns the top-level list and
    logs nothing. *)
Lemma analyzeTableHierarchy_Visited tables this visited :
  validateTableHierarchy (resolvedStore (heap this) tables)
    (hierarchicalTables (hierarchyLoop (heap this) tables)) = Visited visited →
  analyzeTableHierarchy tables this =
    (Normal (hierarchicalTables (hierarchyLoop (heap this) tables)),
     set_heap (resolvedStore (heap this) tables) this).
Proof.
  intros Hv. unfold analyzeTableHierarchy, analyzeTableHierarchy_try, tryCatch.
  unfold resolvedStore in Hv. by rewrite Hv.
Qed.

(** How the call ends, by the outcome of the traversal. *)
Lemma analyzeTableHierarchy_outcome tables this :
  let resolved := set_heap (resolvedStore (heap this) tables) this in
  let tops := hierarchicalTables (hierarchyLoop (heap this) tables) in
  analyzeTableHierarchy tables this =
    match validationError
            (validateTableHierarchy (resolvedStore (heap this) tables) tops) with
    | None => (Normal tops, resolved)
    | Some error =>
        (if throwErrors config then Throw error else Normal tables,
         (handleError "hierarchy-analysis" error resolved).2)
    end.
Proof.
  cbv zeta.
  unfold analyzeTableHierarchy, analyzeTableHierarchy_try, tryCatch, resolvedStore.
  destruct (validateTableHierarchy _ _); cbn [validationError]; [done|..];
    unfold mbind, Method_bind, bind, handleError;
    by destruct (throwErrors config).
Qed.

(** ** The resolved store *)

Lemma resolvedStore_sameLinks T tables :
  Forall2 sameLinks (store (hierarchyLoop T tables)) (resolvedStore T tables).
Proof. apply analyzeTableRelationships_sameLinks. Qed.

Lemma sameLinks_lookup s s' x :
  Forall2 sameLinks s s' →
  parentAt s' x = parentAt s x ∧ childrenAt s' x = childrenAt s x
  ∧ idAt s' x = idAt s x.
Proof.
  intros HF. unfold parentAt, childrenAt, idAt.
  destruct (s' !! x) as [t'|] eqn:Hx'.
  - destruct (Forall2_lookup_r _ _ _ _ _ HF Hx') as (t & -> & Hl).
    apply sameLinks_fields in Hl. cbn. naive_solver.
  - apply lookup_ge_None in Hx'. rewrite <- (Forall2_length _ _ _ HF) in Hx'.
    apply lookup_ge_None in Hx'. by rewrite Hx'.
Qed.

Lemma frame_lookup T s x :
  Forall2 frame T s → idAt s x = idAt T x.
Proof.
  intros HF. unfold idAt.
  destruct (s !! x) as [t|] eqn:Hx.
  - destruct (Forall2_lookup_r _ _ _ _ _ HF Hx) as (t0 & -> & Hf).
    cbn. symmetry. apply Hf.
  - apply lookup_ge_None in Hx. rewrite <- (Forall2_length _ _ _ HF) in Hx.
    apply lookup_ge_None in Hx. by rewrite Hx.
Qed.

Lemma resolvedStore_length T :
  length (resolvedStore T (seq 0 (length T))) = length T.
Proof.
  rewrite <- (Forall2_length _ _ _ (resolvedStore_sameLinks _ _)).
  destruct (hierarchyLoop_spec T) as (HF & _). by rewrite <- (Forall2_length _ _ _ HF).
Qed.

Lemma resolvedStore_parentAt T x :
  x < length T →
  parentAt (resolvedStore T (seq 0 (length T))) x =
    ownerIn T (hierarchicalTables (hierarchyLoop T (seq 0 (length T)))) x.
Proof.
  intros Hx.
  destruct (sameLinks_lookup _ _ x (resolvedStore_sameLinks T (seq 0 (length T))))
    as (-> & _).
  by apply hierarchyLoop_parentAt.
Qed.

(** The returned list holds exactly the tables without a parent. *)
Lemma resolvedStore_top T x :
  x ∈ hierarchicalTables (hierarchyLoop T (seq 0 (length T)))
  ↔ x < length T ∧ parentAt (resolvedStore T (seq 0 (length T))) x = None.
Proof.
  destruct (hierarchyLoop_spec T) as (_ & _ & Htop & _). rewrite Htop.
  split; intros [Hx Ho]; (split; [done|]);
    [by rewrite resolvedStore_parentAt|by rewrite <- resolvedStore_parentAt].
Qed.

(** A table without a parent has level 0, and its children are the tables
    that have it as parent, in ascending order. *)
Lemma resolvedStore_children_top T x t :
  resolvedStore T (seq 0 (length T)) !! x = Some t →
  parent t = None →
  level t = 0
  ∧ children t =
      filter (λ j, parentAt (resolvedStore T (seq 0 (length T))) j = Some x)
             (seq 0 (length T)).
Proof.
  intros Hx Hp.
  destruct (Forall2_lookup_r _ _ _ _ _ (resolvedStore_sameLinks _ _) Hx)
    as (t1 & Hx1 & Hl).
  apply sameLinks_fields in Hl as (_ & Hch & Hpar & Hlev & _).
  destruct (hierarchyLoop_spec T) as (_ & _ & _ & Hst).
  destruct (Hst x t1 Hx1) as (Hown & Hrest).
  rewrite <- Hown, Hpar, Hp in Hrest. destruct Hrest as (Hl0 & Hc).
  split; [congruence|]. rewrite <- Hch, Hc.
  apply filter_ext_elem_of. intros j Hj%elem_of_seq.
  by rewrite resolvedStore_parentAt by lia.
Qed.

(** A table with a parent has level 1 and the children it came with. *)
Lemma resolvedStore_children_claimed T x t i :
  resolvedStore T (seq 0 (length T)) !! x = Some t →
  parent t = Some i →
  level t = 1 ∧ ∃ t0, T !! x = Some t0 ∧ children t = children t0.
Proof.
  intros Hx Hp.
  destruct (Forall2_lookup_r _ _ _ _ _ (resolvedStore_sameLinks _ _) Hx)
    as (t1 & Hx1 & Hl).
  apply sameLinks_fields in Hl as (_ & Hch & Hpar & Hlev & _).
  destruct (hierarchyLoop_spec T) as (_ & _ & _ & Hst).
  destruct (Hst x t1 Hx1) as (Hown & Hrest).
  rewrite <- Hown, Hpar, Hp in Hrest. destruct Hrest as (Hl1 & t0 & Ht0 & Hc).
  split; [congruence|]. exists t0. split; [done|congruence].
Qed.

(** A parent stands before its child and has no parent itself. *)
Lemma resolvedStore_parent_lt T j i :
  parentAt (resolvedStore T (seq 0 (length T))) j = Some i →
  i < j ∧ j < length T ∧ parentAt (resolvedStore T (seq 0 (length T))) i = None.
Proof.
  intros Hp.
  assert (j < length T) as Hj.
  { unfold parentAt in Hp. destruct (_ !! j) eqn:E; [|done].
    apply lookup_lt_Some in E. by rewrite resolvedStore_length in E. }
  rewrite resolvedStore_parentAt in Hp by done.
  apply ownerIn_elem_of in Hp as (Hin & Hlt & _).
  split_and!; [done..|]. by apply resolvedStore_top.
Qed.

Lemma StronglySorted_lt_NoDup (l : list nat) : StronglySorted lt l → NoDup l.
Proof.
  induction 1 as [|x l Hl IH Hx]; constructor; [|done].
  intros Hin. rewrite Forall_forall in Hx. specialize (Hx x Hin). lia.
Qed.

(** On fresh tables with distinct ids the validation of the resolved
    hierarchy returns. *)
Lemma resolvedStore_valid T :
  fresh T → NoDup (id <$> T) →
  ∃ visited,
    validateTableHierarchy (resolvedStore T (seq 0 (length T)))
      (hierarchicalTables (hierarchyLoop T (seq 0 (length T)))) = Visited visited.
Proof.
  intros Hfresh Hids. eexists. apply validateTableHierarchy_flat.
  - intros x y a b Hx Hy Hid.
    destruct (Forall2_lookup_r _ _ _ _ _ (resolvedStore_sameLinks _ _) Hx)
      as (a1 & Hx1 & (Ha & _)%sameLinks_fields).
    destruct (Forall2_lookup_r _ _ _ _ _ (resolvedStore_sameLinks _ _) Hy)
      as (b1 & Hy1 & (Hb & _)%sameLinks_fields).
    destruct (hierarchyLoop_spec T) as (HF & _).
    destruct (Forall2_lookup_r _ _ _ _ _ HF Hx1) as (a0 & Hx0 & (Ha0 & _)).
    destruct (Forall2_lookup_r _ _ _ _ _ HF Hy1) as (b0 & Hy0 & (Hb0 & _)).
    apply (distinctIds_NoDup T Hids x y a0 b0); [done..|congruence].
  - intros r [Hr Hp]%resolvedStore_top.
    destruct (lookup_lt_is_Some_2 (resolvedStore T (seq 0 (length T))) r) as [t Ht].
    { by rewrite resolvedStore_length. }
    exists t. split; [done|]. intros c Hc.
    unfold parentAt in Hp. rewrite Ht in Hp. cbn in Hp.
    destruct (resolvedStore_children_top T r t Ht Hp) as (_ & Hch).
    rewrite Hch in Hc. apply list_elem_of_filter in Hc as [Hpc Hc%elem_of_seq].
    destruct (lookup_lt_is_Some_2 (resolvedStore T (seq 0 (length T))) c) as [tc Htc].
    { rewrite resolvedStore_length. lia. }
    exists tc. split; [done|].
    unfold parentAt in Hpc. rewrite Htc in Hpc. cbn in Hpc.
    destruct (resolvedStore_children_claimed T c tc r Htc Hpc) as (_ & t0 & Ht0 & ->).
    unfold fresh in Hfresh. rewrite Forall_lookup in Hfresh. by eapply Hfresh.
  - unfold visitOrder. apply NoDup_bind.
    + intros r1 r2 y [Hr1 Hp1]%resolvedStore_top [Hr2 Hp2]%resolvedStore_top Hy1 Hy2.
      assert (∀ r, r < length T →
                parentAt (resolvedStore T (seq 0 (length T))) r = None →
                y ∈ r :: childrenAt (resolvedStore T (seq 0 (length T))) r →
                y = r ∨ parentAt (resolvedStore T (seq 0 (length T))) y = Some r)
        as Hcase.
      { intros r Hr Hp [->|Hy]%elem_of_cons; [by left|]. right.
        unfold childrenAt in Hy.
        destruct (_ !! r) as [t|] eqn:Ht; [|by apply elem_of_nil in Hy].
        unfold parentAt in Hp. rewrite Ht in Hp. cbn in Hp, Hy.
        destruct (resolvedStore_children_top T r t Ht Hp) as (_ & Hch).
        rewrite Hch in Hy. by apply list_elem_of_filter in Hy as [? _]. }
      destruct (Hcase r1 Hr1 Hp1 Hy1) as [->|Hy1'], (Hcase r2 Hr2 Hp2 Hy2) as [->|Hy2'];
        congruence.
    + intros r [Hr Hp]%resolvedStore_top. apply NoDup_cons. split.
      * unfold childrenAt.
        destruct (_ !! r) as [t|] eqn:Ht; [|apply not_elem_of_nil].
        unfold parentAt in Hp. rewrite Ht in Hp. cbn in Hp |- *.
        destruct (resolvedStore_children_top T r t Ht Hp) as (_ & ->).
        rewrite list_elem_of_filter. unfold parentAt. rewrite Ht. cbn.
        intros [? _]. congruence.
      * unfold childrenAt.
        destruct (_ !! r) as [t|] eqn:Ht; [|apply NoDup_nil_2].
        unfold parentAt in Hp. rewrite Ht in Hp. cbn in Hp |- *.
        destruct (resolvedStore_children_top T r t Ht Hp) as (_ & ->).
        apply NoDup_filter, NoDup_seq.
    + apply StronglySorted_lt_NoDup. by destruct (hierarchyLoop_spec T) as (_ & ? & _).
Qed.

(** ** What the scan builds *)

Global Instance tableName_inj : Inj (=) (=) tableName.
Proof.
  intros a b Hab. unfold tableName in Hab.
  by apply (inj (String.app "table_")), (inj pretty) in Hab.
Qed.

Lemma scanRow_inv ws st row : ScanInv st → ScanInv (scanRow ws st row).
Proof.
  intros [Hids Hfresh]. unfold scanRow. cbv zeta.
  unfold ScanInv, built, option_list in *.
  destruct (currentTable st) as [table|] eqn:Hc; cbn [option_rect] in *.
  - rewrite bool_decide_eq_false_2 by done. rewrite andb_false_r.
    apply Forall_app in Hfresh as [Hf1 Hf2]. rewrite Forall_singleton in Hf2.
    rewrite fmap_app in Hids.
    repeat case_match; cbn [tables currentTable tableId option_rect];
      rewrite ?Hc; cbn [option_rect]; rewrite ?app_nil_r;
      (split; [by rewrite fmap_app|
               apply Forall_app; split; [done|by apply Forall_singleton]]).
  - rewrite bool_decide_eq_true_2 by done. rewrite andb_true_r.
    rewrite app_nil_r in Hids, Hfresh.
    destruct (isHeaderRow _); cbn [tables currentTable tableId option_rect].
    + split.
      * rewrite fmap_app, Hids. cbn [fmap list_fmap]. fold (tableName (tableId st)).
        by rewrite seq_S, fmap_app.
      * apply Forall_app. split; [done|]. by apply Forall_singleton.
    + rewrite Hc. cbn [option_rect]. by rewrite app_nil_r.
Qed.

Lemma scanTables_fresh_ids ws :
  fresh (scanTables ws) ∧ NoDup (id <$> scanTables ws).
Proof.
  assert (ScanInv (scanRows ws scanInit (rows ws))) as [Hids Hfresh].
  { unfold scanRows. generalize (rows ws).
    assert (ScanInv scanInit) as Hinit by (split; [done|constructor]).
    revert Hinit. generalize scanInit.
    intros st Hst rs. revert st Hst. induction rs as [|r rs IH]; intros st Hst; [done|].
    cbn [foldl]. by apply IH, scanRow_inv. }
  unfold scanTables, closeScan, built, option_list, fresh in *.
  destruct (currentTable _) as [table|]; cbn [option_rect] in *.
  - split.
    + apply Forall_app in Hfresh as [Hf1 Hf2]. rewrite Forall_singleton in Hf2.
      apply Forall_app. split; [done|]. by apply Forall_singleton.
    + rewrite fmap_app in Hids |- *. cbn [fmap list_fmap] in *.
      replace (id (finalizeTable table _)) with (id table) by done.
      rewrite Hids. apply NoDup_fmap_2; [apply _|apply NoDup_seq].
  - rewrite app_nil_r in Hids, Hfresh. split; [done|].
    rewrite Hids. apply NoDup_fmap_2; [apply _|apply NoDup_seq].
Qed.

(** ** Grouping *)

Lemma joinGroup_unused s tables i group used j :
  j ∉ used →
  joinGroup s tables i (group, used) j =
    if relatedAt s tables i j
    then (group ++ option_list (tables !! j), {[j]} ∪ used)
    else (group, used).
Proof.
  intros Hu. unfold joinGroup, relatedAt, tableAt.
  rewrite bool_decide_eq_false_2 by done.
  destruct (tables !! i) as [ri|]; cbn [mbind option_bind]; [|done].
  destruct (tables !! j) as [rj|] eqn:Hj; cbn [mbind option_bind];
    [|by destruct (s !! ri)].
  destruct (s !! ri) as [table1|]; [|done].
  destruct (s !! rj) as [table2|]; [|done].
  by destruct (areTablesRelated table1 table2).
Qed.

Lemma joinGroup_fold s tables i js group used :
  NoDup js →
  foldl (joinGroup s tables i) (group, used) js =
    (group ++ omap (λ j, tables !! j) (joined s tables used i js),
     list_to_set (joined s tables used i js) ∪ used).
Proof.
  revert group used. induction js as [|j js IH]; intros group used Hnd.
  { cbn. rewrite app_nil_r. f_equal. set_solver. }
  apply NoDup_cons in Hnd as [Hj Hnd]. cbn [foldl].
  unfold joined. rewrite filter_cons. fold (joined s tables used i js).
  destruct (decide (j ∈ used)) as [Hu|Hu].
  { unfold joinGroup at 2. rewrite bool_decide_eq_true_2 by done.
    rewrite decide_False by naive_solver. by apply IH. }
  rewrite (joinGroup_unused s tables i group used j Hu).
  destruct (relatedAt s tables i j) eqn:Hrel.
  - rewrite decide_True by done. rewrite IH by done.
    assert (joined s tables ({[j]} ∪ used) i js = joined s tables used i js) as ->.
    { unfold joined. apply filter_ext_elem_of. intros x Hx. set_solver. }
    rewrite <- app_assoc. f_equal; [|set_solver].
    f_equal. cbn [omap list_omap]. by destruct (tables !! j).
  - rewrite decide_False by naive_solver. by apply IH.
Qed.

(** One round of the outer loop: the group begun at an unused position
    [i] is the table there followed by the later unused tables related to
    it, in order. *)
Lemma startGroup_spec s tables groups used i ri :
  i ∉ used → tables !! i = Some ri →
  startGroup s tables (groups, used) i =
    (groups ++ [ri :: omap (λ j, tables !! j)
                        (joined s tables used i
                           (seq (i + 1) (length tables - (i + 1))))],
     list_to_set (joined s tables used i (seq (i + 1) (length tables - (i + 1))))
     ∪ ({[i]} ∪ used)).
Proof.
  intros Hu Hi. unfold startGroup. rewrite bool_decide_eq_false_2 by done.
  rewrite Hi. rewrite joinGroup_fold by apply NoDup_seq.
  assert (joined s tables ({[i]} ∪ used) i (seq (i + 1) (length tables - (i + 1)))
          = joined s tables used i (seq (i + 1) (length tables - (i + 1)))) as ->.
  { unfold joined. apply filter_ext_elem_of. intros x Hx%elem_of_seq.
    assert (x ≠ i) by lia. set_solver. }
  done.
Qed.

Lemma startGroup_used s tables groups used i :
  i ∈ used → startGroup s tables (groups, used) i = (groups, used).
Proof. intros Hu. unfold startGroup. by rewrite bool_decide_eq_true_2. Qed.

(** Membership in the group begun at [i]. *)
Lemma elem_of_joined s tables used i j :
  j ∈ joined s tables used i (seq (i + 1) (length tables - (i + 1)))
  ↔ i < j < length tables ∧ j ∉ used ∧ relatedAt s tables i j = true.
Proof.
  unfold joined. rewrite list_elem_of_filter, elem_of_seq. split.
  - intros ((? & ?) & ?). split_and!; [lia..|done|done].
  - intros (? & ? & ?). split_and!; [done..|lia|lia].
Qed.

Lemma countMatches_inner h1 headers2 n :
  foldl (λ matchCount h2,
           if areHeadersSimilar h1 h2 then S matchCount else matchCount)
        n headers2 =
  n + length (filter (λ h2, areHeadersSimilar h1 h2 = true) headers2).
Proof.
  revert n. induction headers2 as [|h2 hs IH]; intros n; [cbn; lia|].
  cbn [foldl]. rewrite IH, filter_cons.
  destruct (areHeadersSimilar h1 h2); case_decide; try done; cbn; lia.
Qed.

Lemma countMatches_similarPairs headers1 headers2 :
  countMatches headers1 headers2 = similarPairs headers1 headers2.
Proof.
  unfold countMatches, similarPairs.
  cut (∀ n, foldl (λ matchCount h1,
                     foldl (λ matchCount h2,
                              if areHeadersSimilar h1 h2
                              then S matchCount else matchCount) matchCount headers2)
                  n headers1 =
            n + length (filter (λ p, areHeadersSimilar p.1 p.2 = true)
                               (list_prod headers1 headers2))).
  { intros Hcut. by rewrite Hcut. }
  induction headers1 as [|h1 hs IH]; intros n; [cbn; lia|].
  cbn [foldl list_prod]. rewrite IH, countMatches_inner.
  rewrite filter_app, length_app.
  assert (length (filter (λ p, areHeadersSimilar p.1 p.2 = true)
                         (map (λ y, (h1, y)) headers2))
          = length (filter (λ h2, areHeadersSimilar h1 h2 = true) headers2))
    as ->; [|lia].
  clear. induction headers2 as [|h2 l IH]; [done|].
  cbn [map]. rewrite !filter_cons. cbn [fst snd].
  destruct (areHeadersSimilar h1 h2); case_decide; try done; cbn; lia.
Qed.

(** Two tables are related exactly when the start of the second is at most
    5 rows from the end of the first, in either direction, and the similar
    header pairs number at least half the smaller header count. *)
Lemma areTablesRelated_iff table1 table2 :
  areTablesRelated table1 table2 = true
  ↔ (Z.abs (startRow table2 - endRow table1) ≤ 5)%Z
    ∧ length (headers table1) `min` length (headers table2)
      ≤ 2 * similarPairs (headers table1) (headers table2).
Proof.
  unfold areTablesRelated. rewrite countMatches_similarPairs.
  destruct (5 <? Z.abs _)%Z eqn:Hgap.
  { apply Z.ltb_lt in Hgap. split; [done|]. intros [? _]. lia. }
  apply Z.ltb_ge in Hgap. rewrite Qle_bool_iff.
  unfold Qle, Qmult, inject_Z. cbn [Qnum Qden]. split.
  - intros Hq. split; [done|]. lia.
  - intros [_ Hn]. lia.
Qed.

(** ** Merging *)

(** A header of the later table is appended exactly when no header merged
    so far is similar to it. *)
Lemma mergeHeaders_snoc headers1 headers2 h2 :
  mergeHeaders headers1 (headers2 ++ [h2]) =
    if existsb (λ h1, areHeadersSimilar h1 h2)
               (mergeHeaders headers1 headers2)
    then mergeHeaders headers1 headers2
    else mergeHeaders headers1 headers2 ++ [h2].
Proof. unfold mergeHeaders. by rewrite foldl_snoc. Qed.

Lemma mergeHeaders_prefix headers1 headers2 :
  headers1 `prefix_of` mergeHeaders headers1 headers2.
Proof.
  induction headers2 as [|h2 hs IH] using rev_ind.
  { by exists []; rewrite app_nil_r. }
  rewrite mergeHeaders_snoc. destruct (existsb _ _); [done|].
  by apply prefix_app_r.
Qed.

Lemma omap_ext_elem_of {A B} (f g : A → option B) (l : list A) :
  (∀ x, x ∈ l → f x = g x) → omap f l = omap g l.
Proof.
  induction l as [|x l IH]; intros Hfg; [done|].
  cbn [omap list_omap]. rewrite (Hfg x) by (by left).
  rewrite IH by (intros; apply Hfg; by right). done.
Qed.

Lemma absorbTable_fold base rest s b :
  s !! base = Some b → base ∉ rest →
  (∀ r, r ∈ rest → is_Some (s !! r)) →
  foldl (absorbTable base) s rest =
    <[base := foldl absorb b (omap (λ r, s !! r) rest)]> s.
Proof.
  revert s b. induction rest as [|r rest IH]; intros s b Hb Hbase Hvalid.
  { cbn. by rewrite list_insert_id. }
  destruct (Hvalid r) as [t Ht]; [by left|].
  cbn [foldl omap list_omap]. rewrite Ht. cbn [foldl].
  unfold absorbTable at 2. rewrite Hb, Ht. fold (absorb b t).
  assert (base < length s) as Hlt by (by eapply lookup_lt_Some).
  rewrite (IH _ (absorb b t)).
  - rewrite list_insert_insert_eq. f_equal. f_equal.
    apply omap_ext_elem_of. intros r' Hr'.
    rewrite list_lookup_insert_ne; [done|]. set_solver.
  - by rewrite list_lookup_insert_eq.
  - set_solver.
  - intros r' Hr'. apply list_lookup_insert_is_Some. apply Hvalid. by right.
Qed.

Global Instance keepsLinks_preorder : PreOrder keepsLinks.
Proof.
  split.
  - by intros a.
  - intros a b c (?&?&?&?&?&?&?) (?&?&?&?&?&?&?). repeat split; congruence.
Qed.

Lemma absorb_fold_fields b ts :
  headers (foldl absorb b ts) =
    foldl (mergeHeaders) (headers b) (headers <$> ts)
  ∧ dataRows (foldl absorb b ts) = dataRows b ++ concat (dataRows <$> ts)
  ∧ endRow (foldl absorb b ts) = foldl Z.max (endRow b) (endRow <$> ts)
  ∧ keepsLinks b (foldl absorb b ts).
Proof.
  revert b. induction ts as [|t ts IH]; intros b.
  { cbn. by rewrite app_nil_r. }
  cbn [foldl fmap list_fmap concat].
  destruct (IH (absorb b t)) as (-> & -> & -> & Hl).
  split_and!; [done| |done|by etrans; [|exact Hl]].
  cbn. by rewrite <- app_assoc.
Qed.

Lemma foldl_max_spec (e : Z) (es : list Z) :
  (foldl Z.max e es ∈ e :: es)
  ∧ ∀ x, x ∈ e :: es → (x ≤ foldl Z.max e es)%Z.
Proof.
  revert e. induction es as [|y es IH]; intros e.
  { cbn. split; [by left|]. intros x ->%list_elem_of_singleton. lia. }
  cbn [foldl]. destruct (IH (Z.max e y)) as [Hin Hle]. split.
  - apply elem_of_cons in Hin as [->|Hin]; [|by do 2 right].
    destruct (Z.max_spec e y) as [[_ ->]|[_ ->]]; [right; by left|by left].
  - intros x [->|[->|Hx]%elem_of_cons]%elem_of_cons.
    + etrans; [|apply Hle; by left]. lia.
    + etrans; [|apply Hle; by left]. lia.
    + apply Hle. by right.
Qed.

(** [mergeTables]: the first table of the group takes the headers, the
    rows and the larger [endRow] of the others, one after the other; no
    other table of the store changes. *)
Lemma mergeTables_spec s base rest b :
  s !! base = Some b → base ∉ rest →
  (∀ r, r ∈ rest → is_Some (s !! r)) →
  mergeTables s (base :: rest) =
    <[base := foldl absorb b (omap (λ r, s !! r) rest)]> s.
Proof.
  intros Hb Hbase Hvalid. unfold mergeTables.
  destruct rest as [|r rest]; [cbn; by rewrite list_insert_id|].
  by apply absorbTable_fold.
Qed.

Lemma Forall2_foldl_steps {A B} (R : relation A) `{!PreOrder R}
    (step : list A → B → list A) (l : list B) (s : list A) :
  (∀ s x, Forall2 R s (step s x)) → Forall2 R s (foldl step s l).
Proof.
  intros Hstep. revert s. induction l as [|x l IH]; intros s; [done|].
  cbn [foldl]. etrans; [apply Hstep|apply IH].
Qed.

Lemma absorbTable_keepsLinks base s r :
  Forall2 keepsLinks s (absorbTable base s r).
Proof.
  unfold absorbTable.
  destruct (s !! base) as [b|] eqn:Hb; [|done].
  destruct (s !! r) as [t|]; [|done].
  fold (absorb b t). rewrite (insert_as_alter (λ b, absorb b t)) by done.
  apply Forall2_alter_r; [done|].
  intros a b' _ _ ->. by repeat split.
Qed.

Lemma mergeTables_keepsLinks s group :
  Forall2 keepsLinks s (mergeTables s group).
Proof.
  unfold mergeTables.
  destruct group as [|base [|r rest]]; [done..|].
  apply Forall2_foldl_steps; [apply _|apply absorbTable_keepsLinks].
Qed.

(** Merging and deduplication leave ids, parents, children, levels and
    metadata as they are. *)
Lemma mergeRelated_keepsLinks s tables :
  Forall2 keepsLinks s (mergeRelated s tables).1.
Proof.
  unfold mergeRelated. cbn [fst].
  trans (foldl (mergeTables) s (groupRelatedTables s tables)).
  { apply Forall2_foldl_steps; [apply _|apply mergeTables_keepsLinks]. }
  apply Forall2_foldl_steps; [apply _|].
  intros s' r. apply Forall2_alter_r; [done|].
  intros a b _ _ ->. by repeat split.
Qed.

Lemma startGroup_heads s tables acc i :
  Forall (λ group, ∃ r, head group = Some r ∧ r ∈ tables) acc.1 →
  Forall (λ group, ∃ r, head group = Some r ∧ r ∈ tables)
         (startGroup s tables acc i).1.
Proof.
  destruct acc as [groups used]. intros Hheads.
  destruct (decide (i ∈ used)) as [Hu|Hu].
  { by rewrite startGroup_used. }
  destruct (tables !! i) as [ri|] eqn:Hi.
  - rewrite (startGroup_spec s tables groups used i ri) by done. cbn [fst].
    apply Forall_app. split; [done|]. apply Forall_singleton.
    exists ri. split; [done|]. by eapply list_elem_of_lookup_2.
  - unfold startGroup. rewrite bool_decide_eq_false_2 by done. by rewrite Hi.
Qed.

Lemma groupRelatedTables_heads s tables :
  Forall (λ group, ∃ r, head group = Some r ∧ r ∈ tables)
         (groupRelatedTables s tables).
Proof.
  unfold groupRelatedTables. generalize (seq 0 (length tables)).
  assert (Forall (λ group : list nat, ∃ r, head group = Some r ∧ r ∈ tables)
            (([] : list (list nat)), (∅ : gset nat)).1) as Hinit by constructor.
  revert Hinit. generalize (([] : list (list nat)), (∅ : gset nat)).
  intros acc Hacc l. revert acc Hacc.
  induction l as [|i l IH]; intros acc Hacc; [done|].
  cbn [foldl]. by apply IH, startGroup_heads.
Qed.

(** Every merged table is one of the tables handed in. *)
Lemma mergeRelated_subset s tables r :
  r ∈ (mergeRelated s tables).2 → r ∈ tables.
Proof.
  unfold mergeRelated. cbn [snd]. rewrite list_elem_of_omap.
  intros (group & Hg & Hhead).
  pose proof (groupRelatedTables_heads s tables) as Hheads.
  rewrite Forall_forall in Hheads.
  destruct (Hheads group Hg) as (r' & Hr' & Hin). congruence.
Qed.

(** ** Deduplication *)

(** A kept row matches a candidate when it agrees with it on more than 70%
    of the candidate's fields. *)
Lemma rowMatches_iff newRow row :
  rowMatches newRow row = true ↔ 7 * size newRow < 10 * matchScore row newRow.
Proof. unfold rowMatches, exceeds70Percent. apply Nat.ltb_lt. Qed.

(** [matchScore] counts the fields of the candidate on which the kept row
    has the identical value. *)
Lemma matchScore_agreement row newRow :
  matchScore row newRow = size (agreement row newRow).
Proof.
  unfold matchScore, agreement.
  induction newRow as [|key value newRow Hkey Hfirst IH] using map_first_key_ind.
  { by rewrite map_to_list_empty, map_filter_empty, map_size_empty. }
  rewrite map_to_list_insert_first_key by done.
  rewrite filter_cons, map_filter_insert. cbn [fst snd].
  destruct (decide (row !! key = Some value)) as [Hagree|Hdiffer].
  - cbn [length]. rewrite IH, map_size_insert_None; [done|].
    apply map_lookup_filter_None. by left.
  - by rewrite IH, delete_id.
Qed.

Lemma matchScore_le row newRow : matchScore row newRow ≤ size newRow.
Proof.
  unfold matchScore. etrans; [apply length_filter|].
  by rewrite length_map_to_list.
Qed.

Lemma findMatchingRow_None rows newRow :
  findMatchingRow rows newRow = None
  ↔ ∀ row, row ∈ rows → rowMatches newRow row = false.
Proof.
  unfold findMatchingRow. rewrite head_None. split.
  - intros Hnil row Hrow. apply not_true_is_false. intros Hm.
    exact (filter_nil_not_elem_of _ _ _ Hnil Hm Hrow).
  - intros Hnone. apply filter_none. intros row Hrow. rewrite (Hnone row Hrow). done.
Qed.

(** A row is dropped exactly when a row kept so far matches it. *)
Lemma uniqueRows_snoc rows row :
  uniqueRows (rows ++ [row]) =
    if existsb (rowMatches row) (uniqueRows rows)
    then uniqueRows rows
    else uniqueRows rows ++ [row].
Proof.
  unfold uniqueRows at 1. rewrite foldl_snoc. fold (uniqueRows rows).
  destruct (findMatchingRow (uniqueRows rows) row) as [kept|] eqn:Hfind.
  - unfold findMatchingRow in Hfind.
    apply head_Some_elem_of, list_elem_of_filter in Hfind as [Hm Hk].
    assert (existsb (rowMatches row) (uniqueRows rows) = true) as ->; [|done].
    apply existsb_exists. exists kept. split; [|done]. by apply list_elem_of_In.
  - rewrite findMatchingRow_None in Hfind.
    assert (existsb (rowMatches row) (uniqueRows rows) = false) as ->; [|done].
    apply not_true_is_false. intros (kept & Hk%list_elem_of_In & Hm)%existsb_exists.
    by rewrite (Hfind kept Hk) in Hm.
Qed.

(** The rows kept from a prefix stay, at the front. *)
Lemma uniqueRows_prefix rows more :
  uniqueRows rows `prefix_of` uniqueRows (rows ++ more).
Proof.
  induction more as [|row more IH] using rev_ind.
  { by rewrite app_nil_r. }
  rewrite app_assoc, uniqueRows_snoc. destruct (existsb _ _); [done|].
  by apply prefix_app_r.
Qed.

(** The kept rows are in their original order. *)
Lemma uniqueRows_sublist rows : uniqueRows rows `sublist_of` rows.
Proof.
  induction rows as [|row rows IH] using rev_ind; [done|].
  rewrite uniqueRows_snoc. destruct (existsb _ _).
  - by apply sublist_inserts_r.
  - by apply sublist_app.
Qed.

(** No kept row matches a row kept after it. *)
Lemma uniqueRows_pairwise rows i j row1 row2 :
  i < j →
  uniqueRows rows !! i = Some row1 → uniqueRows rows !! j = Some row2 →
  rowMatches row2 row1 = false.
Proof.
  revert i j row1 row2. induction rows as [|row rows IH] using rev_ind.
  { intros i j row1 row2 _ Hi. by destruct i. }
  intros i j row1 row2 Hij. rewrite uniqueRows_snoc.
  destruct (existsb _ _) eqn:Hm; [by apply IH|].
  intros Hi Hj.
  destruct (decide (j < length (uniqueRows rows))) as [Hlt|Hge].
  - rewrite lookup_app_l in Hi, Hj by lia. exact (IH i j row1 row2 Hij Hi Hj).
  - pose proof (lookup_lt_Some _ _ _ Hj) as Hjlt.
    rewrite length_app in Hjlt. cbn [length] in Hjlt.
    rewrite lookup_app_l in Hi by lia.
    rewrite lookup_app_r in Hj by lia.
    apply list_lookup_singleton_Some in Hj as [_ <-].
    apply not_true_is_false. intros Hmatch.
    assert (existsb (rowMatches row) (uniqueRows rows) = true); [|congruence].
    apply existsb_exists. exists row1. split; [|done].
    apply list_elem_of_In. by eapply list_elem_of_lookup_2.
Qed.

(** ** Patterns *)

Lemma length_remove_dups_le {A} `{!EqDecision A} (l : list A) :
  length (remove_dups l) ≤ length l.
Proof.
  induction l as [|x l IH]; [done|]. cbn. case_decide; cbn; lia.
Qed.

Lemma length_remove_dups_NoDup {A} `{!EqDecision A} (l : list A) :
  length (remove_dups l) = length l ↔ NoDup l.
Proof.
  induction l as [|x l IH]; [split; [constructor|done]|].
  rewrite NoDup_cons. cbn [remove_dups].
  pose proof (length_remove_dups_le l).
  case_decide as Hx; cbn [length].
  - split; [lia|]. by intros [? _].
  - rewrite <- IH. split; [intros [=]; done|]. intros [_ ->]. done.
Qed.

Lemma columnValues_truthy table header value :
  value ∈ columnValues table header → truthy value = true.
Proof. unfold columnValues. by intros [? _]%list_elem_of_filter. Qed.


(** The reported pattern, over the truthy values of the column. *)
Lemma extractDataPattern_Some table header pattern :
  extractDataPattern table header = Some pattern →
  Pattern.type pattern = identifyValueType (mjoin (head (columnValues table header)))
  ∧ Some (Pattern.format pattern) = detectFormat (columnValues table header)
  ∧ (Pattern.isUnique pattern = true ↔ NoDup (columnValues table header))
  ∧ Pattern.hasNulls pattern = false
  ∧ Pattern.examples pattern = take 3 (columnValues table header).
Proof.
  unfold extractDataPattern. intros Hp.
  pose proof (columnValues_truthy table header) as Htruthy.
  destruct (columnValues table header) as [|value rest]; [done|].
  destruct (detectFormat (value :: rest)) as [fmt|] eqn:Hfmt; [|done].
  apply (inj Some) in Hp as <-.
  cbn [Pattern.type Pattern.format Pattern.isUnique Pattern.hasNulls
       Pattern.examples head mjoin].
  split_and!; [by destruct value|done| | |done].
  - rewrite Nat.eqb_eq. apply length_remove_dups_NoDup.
  - apply not_true_is_false. intros (v & Hin & Hnull)%existsb_exists.
    apply bool_decide_eq_true in Hnull as ->.
    apply list_elem_of_In in Hin. by specialize (Htruthy None Hin).
Qed.

(** ** The forest *)

Lemma isChildTable_iff parentTable potentialChild :
  isChildTable parentTable potentialChild = true
  ↔ startRow potentialChild = (endRow parentTable + 1)%Z
    ∧ getTableIndentation parentTable < getTableIndentation potentialChild.
Proof.
  unfold isChildTable, getTableIndentation. case_bool_decide as Hrow.
  - rewrite Nat.ltb_lt. naive_solver.
  - split; [done|]. by intros [? _].
Qed.

Lemma resolvedStore_parent_iff T i j ti tj :
  T !! i = Some ti → T !! j = Some tj →
  parentAt (resolvedStore T (seq 0 (length T))) j = Some i
  ↔ i < j
    ∧ parentAt (resolvedStore T (seq 0 (length T))) i = None
    ∧ isChildTable ti tj = true
    ∧ ∀ i' ti', i' < i → T !! i' = Some ti' →
        parentAt (resolvedStore T (seq 0 (length T))) i' = None →
        isChildTable ti' tj = false.
Proof.
  intros Hi Hj.
  pose proof (lookup_lt_Some _ _ _ Hi) as Hilt.
  pose proof (lookup_lt_Some _ _ _ Hj) as Hjlt.
  assert (∀ x, x < length T →
            parentAt (resolvedStore T (seq 0 (length T))) x =
            parentAt (store (hierarchyLoop T (seq 0 (length T)))) x) as Heq.
  { intros x Hx. by rewrite resolvedStore_parentAt, hierarchyLoop_parentAt. }
  rewrite !Heq by done. rewrite (hierarchyLoop_parent_iff T i j ti tj) by done.
  split; intros (? & ? & ? & Hmin); (split_and!; [done..|]);
    intros i' ti' Hi'i Hi' Hp; apply (Hmin i' ti' Hi'i Hi');
    pose proof (lookup_lt_Some _ _ _ Hi');
    [by rewrite <- Heq|by rewrite Heq].
Qed.

(** On fresh tables the children of a table are the tables that have it
    as parent. *)
Lemma resolvedStore_children_iff T i c :
  fresh T →
  c ∈ childrenAt (resolvedStore T (seq 0 (length T))) i
  ↔ parentAt (resolvedStore T (seq 0 (length T))) c = Some i.
Proof.
  intros Hfresh. set (s := resolvedStore T (seq 0 (length T))).
  unfold childrenAt. destruct (s !! i) as [t|] eqn:Ht.
  - cbn. destruct (parent t) as [p|] eqn:Hp.
    + destruct (resolvedStore_children_claimed T i t p Ht Hp) as (_ & t0 & Ht0 & ->).
      unfold fresh in Hfresh. rewrite Forall_lookup in Hfresh.
      rewrite (Hfresh i t0 Ht0). split; [by intros ?%elem_of_nil|].
      intros (_ & _ & Hnone)%resolvedStore_parent_lt.
      fold s in Hnone. unfold parentAt in Hnone. rewrite Ht in Hnone. cbn in Hnone.
      congruence.
    + destruct (resolvedStore_children_top T i t Ht Hp) as (_ & ->).
      rewrite list_elem_of_filter, elem_of_seq. split; [by intros [? _]|].
      intros Hc. split; [done|].
      apply resolvedStore_parent_lt in Hc. lia.
  - cbn. split; [by intros ?%elem_of_nil|].
    intros (Hlt & Hc & _)%resolvedStore_parent_lt.
    apply lookup_ge_None in Ht. unfold s in Ht. rewrite resolvedStore_length in Ht. lia.
Qed.

(** Every step along [children] leads to a later table: no table is its
    own descendant. *)
Lemma resolvedStore_descendant_lt T i j :
  fresh T → descendant (resolvedStore T (seq 0 (length T))) i j → i < j.
Proof.
  intros Hfresh. induction 1 as [i c Hc|i k c _ IH Hc].
  - apply resolvedStore_children_iff, resolvedStore_parent_lt in Hc; [lia|done].
  - apply resolvedStore_children_iff, resolvedStore_parent_lt in Hc; [lia|done].
Qed.

(** On fresh tables with distinct ids [analyzeTableHierarchy] returns the
    tables without a parent and logs nothing. *)
Lemma analyzeTableHierarchy_fresh this :
  fresh (heap this) → NoDup (id <$> heap this) →
  analyzeTableHierarchy (seq 0 (length (heap this))) this =
    (Normal (hierarchicalTables
               (hierarchyLoop (heap this) (seq 0 (length (heap this))))),
     set_heap (resolvedStore (heap this) (seq 0 (length (heap this)))) this).
Proof.
  intros Hfresh Hids.
  destruct (resolvedStore_valid (heap this) Hfresh Hids) as [visited Hv].
  by eapply analyzeTableHierarchy_Visited.
Qed.

(** A table the pass claims keeps the metadata it came with: it gets no
    relationship label. *)
Lemma resolvedStore_claimed_metadata T x t i :
  resolvedStore T (seq 0 (length T)) !! x = Some t →
  parent t = Some i →
  ∃ t0, T !! x = Some t0 ∧ metadata t = metadata t0.
Proof.
  intros Hx Hp.
  assert (x ∉ hierarchicalTables (hierarchyLoop T (seq 0 (length T)))) as Hnot.
  { intros [_ Hnone]%resolvedStore_top. unfold parentAt in Hnone.
    rewrite Hx in Hnone. cbn in Hnone. congruence. }
  unfold resolvedStore in Hx. rewrite analyzeTableRelationships_other in Hx by done.
  destruct (hierarchyLoop_spec T) as (HF & _).
  destruct (Forall2_lookup_r _ _ _ _ _ HF Hx) as (t0 & Ht0 & Hf).
  exists t0. split; [done|]. symmetry. apply Hf.
Qed.

(** A table in the returned list is labelled "parent" when it has a child
    and "independent" otherwise. *)
Lemma resolvedStore_top_label T x t :
  resolvedStore T (seq 0 (length T)) !! x = Some t →
  parent t = None →
  relationshipType (metadata t) =
    Some (if bool_decide (children t ≠ []) then "parent" else "independent").
Proof.
  intros Hx Hp.
  assert (x ∈ hierarchicalTables (hierarchyLoop T (seq 0 (length T)))) as Hin.
  { apply resolvedStore_top. split.
    - apply lookup_lt_Some in Hx. by rewrite resolvedStore_length in Hx.
    - unfold parentAt. by rewrite Hx. }
  assert (NoDup (hierarchicalTables (hierarchyLoop T (seq 0 (length T))))) as Hnd.
  { apply StronglySorted_lt_NoDup. by destruct (hierarchyLoop_spec T) as (_ & ? & _). }
  unfold resolvedStore in Hx.
  rewrite (analyzeTableRelationships_labelled _ _ x Hin Hnd) in Hx.
  destruct (_ !! x) as [t1|] eqn:Ht1; [|done]. cbn in Hx. injection Hx as <-.
  pose proof (labelRelationship_sameLinks t1) as (_ & Hch & Hpar & _)%sameLinks_fields.
  rewrite <- Hch. rewrite <- Hpar in Hp.
  unfold labelRelationship. repeat case_bool_decide; done.
Qed.

(** ** The pipeline *)

Lemma processAndMergeTables_eq tables this :
  processAndMergeTables tables this =
    (Normal (mergeRelated (heap this) tables).2,
     set_heap (mergeRelated (heap this) tables).1 this).
Proof.
  unfold processAndMergeTables, processAndMergeTables_try, tryCatch.
  by destruct (mergeRelated (heap this) tables).
Qed.

(** After the scan, [analyzeTableHierarchy] returns and logs nothing. *)
Lemma analyzeTableHierarchy_scanned this :
  let T := scanTables (worksheet this) in
  analyzeTableHierarchy (seq 0 (length T)) (set_heap T this) =
    (Normal (hierarchicalTables (hierarchyLoop T (seq 0 (length T)))),
     set_heap (resolvedStore T (seq 0 (length T))) this).
Proof.
  intros T. destruct (scanTables_fresh_ids (worksheet this)) as [Hfresh Hids].
  exact (analyzeTableHierarchy_fresh (set_heap T this) Hfresh Hids).
Qed.

(** [findTableStructures] runs its three phases to the end: it returns the
    merged tables and logs nothing. *)
Lemma findTableStructures_eq this :
  scanTables_throws (worksheet this) = None →
  let T := scanTables (worksheet this) in
  let hier := hierarchicalTables (hierarchyLoop T (seq 0 (length T))) in
  let merged := mergeRelated (resolvedStore T (seq 0 (length T))) hier in
  findTableStructures this =
    (Normal merged.2,
     set_tablesProcessed (length merged.2)
       (set_tableStructures (omap (λ r, merged.1 !! r) merged.2)
          (set_heap merged.1 this))).
Proof.
  intros Hscan. cbv zeta.
  pose proof (analyzeTableHierarchy_scanned this) as Hhier. cbv zeta in Hhier.
  unfold findTableStructures, findTableStructures_try, tryCatch.
  unfold mbind, Method_bind, bind at 1.
  rewrite findBasicTables_eq by done.
  unfold bind at 1. rewrite Hhier.
  unfold bind at 1. rewrite processAndMergeTables_eq.
  done.
Qed.

(** The empty list goes through the hierarchy pass and the merge as it
    is, and nothing is logged. *)
Lemma analyzeTableHierarchy_nil this :
  analyzeTableHierarchy [] this = (Normal [], set_heap (heap this) this).
Proof. done. Qed.

Lemma processAndMergeTables_nil this :
  processAndMergeTables [] this = (Normal [], set_heap (heap this) this).
Proof. done. Qed.

(** When the scan throws: with [throwErrors] off [findBasicTables] logs
    the error and returns no table, and the run ends with no table; with
    [throwErrors] on it throws the error again, and [findTableStructures]
    logs it a second time and throws it again. *)
Lemma findTableStructures_throws_eq this error :
  scanTables_throws (worksheet this) = Some error →
  findTableStructures this =
    if throwErrors config then
      (Throw error,
       (handleError "table-detection" error
          (handleError "basic-table-detection" error this).2).2)
    else
      (Normal [],
       set_tablesProcessed 0
         (set_tableStructures []
            (handleError "basic-table-detection" error this).2)).
Proof.
  intros Hscan.
  unfold findTableStructures, findTableStructures_try, tryCatch.
  unfold mbind, Method_bind, bind at 1.
  rewrite (findBasicTables_throws_eq this error Hscan).
  unfold handleError, bind. by destruct (throwErrors config).
Qed.

(** ** Tables of one scan are never adjacent *)

Lemma apart_snoc T x :
  apart T → (∀ t, t ∈ T → (endRow t + 2 ≤ startRow x)%Z) → apart (T ++ [x]).
Proof.
  intros HT Hx i j a b Hij Ha Hb.
  pose proof (lookup_lt_Some _ _ _ Hb) as Hj. rewrite length_app in Hj. cbn in Hj.
  destruct (decide (j < length T)) as [Hlt|Hge].
  - rewrite lookup_app_l in Ha, Hb by lia. by apply (HT i j).
  - assert (j = length T) as -> by lia.
    rewrite lookup_app_l in Ha by lia.
    rewrite list_lookup_middle in Hb by done. injection Hb as <-.
    apply Hx. by eapply list_elem_of_lookup_2.
Qed.

Lemma scanRow_gap ws st r :
  GapInv r st → GapInv (S r) (scanRow ws st r).
Proof.
  intros (Hapart & Hend & Hopen). unfold scanRow. cbv zeta.
  assert (∀ t, t ∈ tables st → (endRow t + 2 ≤ Z.of_nat (S r))%Z) as Hend'.
  { intros t Ht. specialize (Hend t Ht). lia. }
  destruct (currentTable st) as [table|] eqn:Hc.
  - rewrite bool_decide_eq_false_2 by done. rewrite andb_false_r.
    destruct (Hopen table eq_refl) as [Hstart Hgap].
    destruct (isEmpty _ && _) eqn:Hfin.
    + split_and!; cbn [tables currentTable].
      * apply apart_snoc; [done|]. intros t Ht. by apply Hgap.
      * intros t [Ht| ->%list_elem_of_singleton]%elem_of_app; [by apply Hend'|].
        cbn. lia.
      * done.
    + destruct (negb _).
      * split_and!; cbn [tables currentTable]; [done..|].
        intros c [= <-]. destruct (isDataRow _); cbn; (split; [lia|done]).
      * split_and!; [done..|]. intros c Hc'. rewrite Hc in Hc'. injection Hc' as <-.
        split; [lia|done].
  - rewrite bool_decide_eq_true_2 by done. rewrite andb_true_r.
    destruct (isHeaderRow _).
    + split_and!; cbn [tables currentTable]; [done..|].
      intros c [= <-]. cbn. split; [lia|]. apply Hend.
    + split_and!; [done..|]. intros c Hc'. by rewrite Hc in Hc'.
Qed.

Lemma scanRows_gap ws n r st :
  GapInv r st → GapInv (r + n) (scanRows ws st (seq r n)).
Proof.
  revert r st. induction n as [|n IH]; intros r st Hst; cbn [seq].
  - by rewrite Nat.add_0_r.
  - unfold scanRows. cbn [foldl]. replace (r + S n) with (S r + n) by lia.
    apply IH. by apply scanRow_gap.
Qed.

(** The tables [findBasicTables] builds lie apart: a table is finalized
    at an empty row, so the next one starts two rows or more after its
    end. *)
Lemma scanTables_apart ws : apart (scanTables ws).
Proof.
  assert (GapInv (0 + S (range_e_r ws))
            (scanRows ws scanInit (rows ws))) as (Hapart & Hend & Hopen).
  { apply scanRows_gap. split_and!.
    - intros i j a b _ Ha. cbn in Ha. by rewrite lookup_nil in Ha.
    - intros t Ht. cbn in Ht. by apply elem_of_nil in Ht.
    - done. }
  unfold scanTables, closeScan.
  destruct (currentTable _) as [table|]; [|done].
  apply apart_snoc; [done|]. intros t Ht. by apply (Hopen table eq_refl).
Qed.

Lemma apart_isChildTable T i j a b :
  apart T → i < j → T !! i = Some a → T !! j = Some b → isChildTable a b = false.
Proof.
  intros HT Hij Ha Hb. unfold isChildTable.
  rewrite bool_decide_eq_false_2; [done|].
  specialize (HT i j a b Hij Ha Hb). lia.
Qed.

(** On tables that lie apart the hierarchy pass claims no child. *)
Lemma resolvedStore_apart T j :
  apart T → parentAt (resolvedStore T (seq 0 (length T))) j = None.
Proof.
  intros HT.
  destruct (parentAt (resolvedStore T (seq 0 (length T))) j) as [i|] eqn:Hp; [|done].
  destruct (resolvedStore_parent_lt T j i Hp) as (Hij & Hj & _).
  destruct (lookup_lt_is_Some_2 T i) as [a Ha]; [lia|].
  destruct (lookup_lt_is_Some_2 T j) as [b Hb]; [lia|].
  apply (resolvedStore_parent_iff T i j a b Ha Hb) in Hp as (_ & _ & Hchild & _).
  by rewrite (apart_isChildTable T i j a b) in Hchild.
Qed.

End Parser.

(** * Properties of the data groups *)

Lemma addLocation_locations groupType location pattern groups :
  Forall (λ entry : string * DataGroup, locations entry.2 ≠ []) groups →
  addLocation groupType location pattern groups ≠ []
  ∧ Forall (λ entry : string * DataGroup, locations entry.2 ≠ [])
      (addLocation groupType location pattern groups).
Proof.
  intros Hall. unfold addLocation. cbv zeta.
  destruct (existsb _ groups) eqn:Hex.
  - split.
    + destruct groups; [done|]. done.
    + apply Forall_fmap. eapply Forall_impl; [done|].
      intros [key group] Hloc. cbn in *. case_bool_decide; cbn; [|done].
      by destruct (locations group).
  - split; [by destruct groups|]. apply Forall_app. split; [done|].
    apply Forall_singleton. done.
Qed.

Lemma collectGroups_locations runtime s groups r :
  Forall (λ entry : string * DataGroup, locations entry.2 ≠ []) groups →
  Forall (λ entry : string * DataGroup, locations entry.2 ≠ [])
    (collectGroups runtime s groups r)
  ∧ (collectGroups runtime s groups r = []
     ↔ groups = []
       ∧ ∀ t header, s !! r = Some t → header ∈ headers t →
           identifyDataGroup (Header.value header) = None).
Proof.
  intros Hall. unfold collectGroups. destruct (s !! r) as [t|]; [|naive_solver].
  assert (∀ hs groups,
            Forall (λ entry : string * DataGroup, locations entry.2 ≠ []) groups →
            let result :=
              foldl (λ groups header,
                       match identifyDataGroup (Header.value header) with
                       | Some groupType =>
                           addLocation groupType
                             {| loc_row := startRow t; loc_col := Header.column header;
                                loc_table := r |}
                             (extractDataPattern runtime t header) groups
                       | None => groups
                       end) groups hs in
            Forall (λ entry : string * DataGroup, locations entry.2 ≠ []) result
            ∧ (result = []
               ↔ groups = []
                 ∧ ∀ header, header ∈ hs →
                     identifyDataGroup (Header.value header) = None)) as Hloop.
  { clear groups Hall. induction hs as [|header hs IH]; intros groups Hall.
    - cbn. split; [done|]. split; [intros ->; split; [done|]|by intros [? _]].
      intros header Hin. by apply elem_of_nil in Hin.
    - cbn [foldl]. cbv zeta.
      destruct (identifyDataGroup (Header.value header)) as [groupType|] eqn:Hid.
      + match goal with |- context [addLocation ?g ?l ?p groups] =>
          destruct (addLocation_locations g l p groups Hall) as [Hne Hall'];
          destruct (IH (addLocation g l p groups) Hall') as [IH1 IH2]
        end.
        split; [done|]. rewrite IH2. split; [by intros [? _]|].
        intros [_ Hnone]. specialize (Hnone header ltac:(by left)). congruence.
      + destruct (IH groups Hall) as [IH1 IH2]. split; [done|]. rewrite IH2. split.
        * intros [-> Hnone]. split; [done|].
          intros header' [->|Hin]%elem_of_cons; [done|by apply Hnone].
        * intros [-> Hnone]. split; [done|]. intros header' Hin.
          apply Hnone. by right. }
  destruct (Hloop (headers t) groups Hall) as [H1 H2]. split; [done|].
  rewrite H2. split.
  - intros [-> Hnone]. split; [done|]. intros t' header [= <-]. apply Hnone.
  - intros [-> Hnone]. split; [done|]. intros header. by apply (Hnone t).
Qed.

Lemma collectAll_locations runtime s tables groups :
  Forall (λ entry : string * DataGroup, locations entry.2 ≠ []) groups →
  Forall (λ entry : string * DataGroup, locations entry.2 ≠ [])
    (foldl (collectGroups runtime s) groups tables)
  ∧ (foldl (collectGroups runtime s) groups tables = []
     ↔ groups = []
       ∧ ∀ r t header, r ∈ tables → s !! r = Some t → header ∈ headers t →
           identifyDataGroup (Header.value header) = None).
Proof.
  revert groups. induction tables as [|r tables IH]; intros groups Hall.
  - cbn. split; [done|]. split; [intros ->; split; [done|]|by intros [? _]].
    intros r t header Hin. by apply elem_of_nil in Hin.
  - cbn [foldl]. destruct (collectGroups_locations runtime s groups r Hall) as [H1 H2].
    destruct (IH _ H1) as [IH1 IH2]. split; [done|]. rewrite IH2, H2. split.
    + intros [[-> Hr] Hrest]. split; [done|].
      intros r' t header [->|Hin]%elem_of_cons; [apply Hr|by apply Hrest].
    + intros [-> Hnone]. split_and!; [done| |].
      * intros t header. apply Hnone. by left.
      * intros r' t header Hin. apply Hnone. by right.
Qed.

(** The [try] block of [findRelatedDataGroups] returns, with no group,
    when no header names a group, and throws otherwise. *)
Lemma findRelatedDataGroups_try_eq runtime tables this :
  ((∀ r t header, r ∈ tables → heap this !! r = Some t → header ∈ headers t →
      identifyDataGroup (Header.value header) = None) →
   findRelatedDataGroups_try runtime tables this = (Normal [], this))
  ∧ ((∃ r t header, r ∈ tables ∧ heap this !! r = Some t ∧ header ∈ headers t
        ∧ is_Some (identifyDataGroup (Header.value header))) →
     findRelatedDataGroups_try runtime tables this
     = (Throw (newError runtime "this.findRelatedData is not a function"), this)).
Proof.
  unfold findRelatedDataGroups_try. cbv zeta.
  destruct (collectAll_locations runtime (heap this) tables []) as [Hall Hnil];
    [done|].
  destruct (foldl (collectGroups runtime (heap this)) [] tables)
    as [|[key group] groups] eqn:Hgroups.
  - split; [done|]. intros (r & t & header & Hr & Ht & Hh & [g Hg]).
    destruct Hnil as [Hnil _]. destruct (Hnil eq_refl) as [_ Hnone].
    by rewrite (Hnone r t header) in Hg.
  - split.
    + intros Hnone. by destruct Hnil as [_ ->].
    + intros _. apply Forall_cons in Hall as [Hloc _]. cbn in *.
      by destruct (locations group).
Qed.
Lemma findRelatedDataGroups_try_cases runtime tables this :
  findRelatedDataGroups_try runtime tables this = (Normal [], this)
  ∨ findRelatedDataGroups_try runtime tables this
    = (Throw (newError runtime "this.findRelatedData is not a function"), this).
Proof.
  unfold findRelatedDataGroups_try. cbv zeta.
  destruct (collectAll_locations runtime (heap this) tables []) as [Hall _];
    [done|].
  destruct (foldl (collectGroups runtime (heap this)) [] tables)
    as [|[key group] groups] eqn:Hgroups; [by left|right].
  apply Forall_cons in Hall as [Hloc _]. cbn in *.
  by destruct (locations group).
Qed.

(** * The statements of the specification *)

(** Filtering an ascending run of positions leaves it ascending. *)
Lemma StronglySorted_filter_seq (P : nat → Prop) `{!∀ j, Decision (P j)}
    (start len : nat) :
  StronglySorted lt (filter P (seq start len)).
Proof.
  revert start. induction len as [|len IH]; intros start; cbn [seq].
  - constructor.
  - assert (StronglySorted lt (start :: filter P (seq (S start) len))) as Hall.
    { constructor; [apply IH|]. apply Forall_forall.
      intros j [_ Hj%elem_of_seq]%list_elem_of_filter. lia. }
    rewrite filter_cons. case_decide; [done|]. by apply StronglySorted_cons in Hall as [_ ?].
Qed.

(** Two headers are similar when the similarity of their lowered texts is
    strictly above the configured threshold. *)
Lemma areHeadersSimilar_iff config runtime header1 header2 :
  areHeadersSimilar config runtime header1 header2 = true
  ↔ (fuzzyMatchThreshold config
     < compareTwoStrings runtime (toLowerCase (Header.value header1))
                                 (toLowerCase (Header.value header2)))%Q.
Proof.
  unfold areHeadersSimilar. rewrite negb_true_iff, <- not_true_iff_false.
  rewrite Qle_bool_iff. split; [apply Qnot_le_lt|apply Qlt_not_le].
Qed.





(** C2 (failing input).  On the sheet with a header row, a data row, two
    empty rows and a further data row, the run of two empty rows does not
    finalize the table: the scan returns one table that ends at the last
    row and holds both data rows. *)
Theorem C2_two_blank_rows_keep_table_open :
  ∃ table,
    findBasicTables defaultConfig sampleRuntime (newParser gapSheet)
      = (Normal [0], set_heap [table] (newParser gapSheet))
    ∧ rowCount table = Some 2
    ∧ endRow table = 4%Z.
Proof.
  eexists. split.
  { rewrite findBasicTables_eq by (vm_compute; reflexivity).
    vm_compute scanTables. reflexivity. }
  split; reflexivity.
Qed.

(** C3 (counterexample).  The second table lies above the first, so its
    start row minus the end row of the first is -20, which is at most 5,
    and their single headers are similar; yet it does not join the group
    of the first. *)
Lemma C3_table_far_above_is_not_grouped :
  ∃ T U,
    farTables = [T; U]
    ∧ (startRow U - endRow T ≤ 5)%Z
    ∧ length (headers T) `min` length (headers U)
      ≤ 2 * similarPairs defaultConfig sampleRuntime (headers T) (headers U)
    ∧ groupRelatedTables defaultConfig sampleRuntime farTables [0; 1] = [[0]; [1]].
Proof.
  eexists _, _. split; [reflexivity|]. split_and!.
  - vm_compute. discriminate.
  - vm_compute. lia.
  - vm_compute. reflexivity.
Qed.

(** C3 (amended).  [groupRelatedTables] runs [startGroup] over the
    positions of its input.  At an unused position [i] it opens a group
    with the table T there and adds, in order, every later unused table U
    for which the distance |U.startRow - T.endRow| is at most 5 and twice
    the number of header pairs, one of each table, whose similarity is
    strictly above the configured threshold (6/10 by default) is at least
    min(headerCount(T), headerCount(U)); at a used position it does
    nothing.  [mergeTables] folds a group into its first member: the
    headers of each later table are appended one by one unless a header
    merged so far is similar to it, the data rows are concatenated in
    group order, and the end row becomes the largest of the group. *)
Theorem C3_grouping_uses_distance_and_merge_folds
    (config : ExcelConfig) (runtime : Runtime) (s : list Table) :
  (∀ tables : list TableRef,
     groupRelatedTables config runtime s tables
     = (foldl (startGroup config runtime s tables) ([], ∅)
              (seq 0 (length tables))).1)
  ∧ (∀ (tables : list TableRef) groups (used : gset nat) i,
       i ∈ used →
       startGroup config runtime s tables (groups, used) i = (groups, used))
  ∧ (∀ (tables : list TableRef) groups (used : gset nat) i ri,
       i ∉ used → tables !! i = Some ri →
       ∃ js : list nat,
         startGroup config runtime s tables (groups, used) i
         = (groups ++ [ri :: omap (λ j, tables !! j) js],
            list_to_set js ∪ ({[i]} ∪ used))
         ∧ StronglySorted lt js
         ∧ ∀ j, j ∈ js ↔
             i < j < length tables ∧ j ∉ used
             ∧ ∃ T U, tableAt s tables i = Some T ∧ tableAt s tables j = Some U
                 ∧ (Z.abs (startRow U - endRow T) ≤ 5)%Z
                 ∧ length (headers T) `min` length (headers U)
                   ≤ 2 * similarPairs config runtime (headers T) (headers U))
  ∧ (∀ h1 h2,
       areHeadersSimilar config runtime h1 h2 = true
       ↔ (fuzzyMatchThreshold config
          < compareTwoStrings runtime (toLowerCase (Header.value h1))
                                      (toLowerCase (Header.value h2)))%Q)
  ∧ fuzzyMatchThreshold defaultConfig = (6 # 10)%Q
  ∧ (∀ base rest b,
       s !! base = Some b → base ∉ rest → (∀ r, r ∈ rest → is_Some (s !! r)) →
       let members := omap (λ r, s !! r) rest in
       ∃ merged,
         mergeTables config runtime s (base :: rest) = <[base := merged]> s
         ∧ headers merged
           = foldl (mergeHeaders config runtime) (headers b) (headers <$> members)
         ∧ dataRows merged = dataRows b ++ concat (dataRows <$> members)
         ∧ endRow merged ∈ endRow b :: (endRow <$> members)
         ∧ (∀ e, e ∈ endRow b :: (endRow <$> members) → (e ≤ endRow merged)%Z)
         ∧ id merged = id b ∧ startRow merged = startRow b)
  ∧ (∀ headers1 headers2 h2,
       mergeHeaders config runtime headers1 [] = headers1
       ∧ mergeHeaders config runtime headers1 (headers2 ++ [h2])
         = if existsb (λ h1, areHeadersSimilar config runtime h1 h2)
                      (mergeHeaders config runtime headers1 headers2)
           then mergeHeaders config runtime headers1 headers2
           else mergeHeaders config runtime headers1 headers2 ++ [h2]).
Proof.
  split_and!.
  - done.
  - intros. by apply startGroup_used.
  - intros tables groups used i ri Hi Hri.
    exists (joined config runtime s tables used i
              (seq (i + 1) (length tables - (i + 1)))).
    split; [by apply startGroup_spec|]. split.
    + unfold joined. apply StronglySorted_filter_seq.
    + intros j. rewrite elem_of_joined. unfold relatedAt.
      split.
      * intros (Hj & Hu & Hrel). split_and!; [lia..|done|].
        destruct (tableAt s tables i) as [T|]; [|done].
        destruct (tableAt s tables j) as [U|]; [|done].
        exists T, U. by apply areTablesRelated_iff in Hrel.
      * intros (Hj & Hu & T & U & -> & -> & Hrel). split_and!; [lia..|done|].
        by apply areTablesRelated_iff.
  - apply areHeadersSimilar_iff.
  - done.
  - intros base rest b Hb Hbase Hrest members.
    exists (foldl (absorb config runtime) b members).
    destruct (absorb_fold_fields config runtime b members)
      as (Hh & Hd & He & Hlinks).
    destruct (foldl_max_spec (endRow b) (endRow <$> members)) as [Hin Hmax].
    split; [by apply mergeTables_spec|].
    rewrite He. split_and!; [done..| |].
    + symmetry. apply Hlinks.
    + symmetry. apply Hlinks.
  - intros headers1 headers2 h2. split; [done|]. apply mergeHeaders_snoc.
Qed.

Lemma C3_grouping_witness :
  ∃ js : list nat,
    startGroup defaultConfig sampleRuntime nearTables [0; 1] ([], ∅) 0
    = ([] ++ [0 :: omap (λ j, [0; 1] !! j) js], list_to_set js ∪ ({[0]} ∪ ∅))
    ∧ StronglySorted lt js
    ∧ ∀ j, j ∈ js ↔
        0 < j < 2 ∧ j ∉ (∅ : gset nat)
        ∧ ∃ T U, tableAt nearTables [0; 1] 0 = Some T
            ∧ tableAt nearTables [0; 1] j = Some U
            ∧ (Z.abs (startRow U - endRow T) ≤ 5)%Z
            ∧ length (headers T) `min` length (headers U)
              ≤ 2 * similarPairs defaultConfig sampleRuntime (headers T) (headers U).
Proof.
  apply (proj1 (proj2 (proj2
           (C3_grouping_uses_distance_and_merge_folds
              defaultConfig sampleRuntime nearTables)))
           [0; 1] [] ∅ 0 0).
  - apply not_elem_of_empty.
  - reflexivity.
Defined.

(** C4.  [processTableData] keeps the data rows in their order.  Going
    through them one by one, it drops a row when some row kept so far has
    the identical value in more than 70% of the fields of the row at hand,
    and keeps it otherwise: the fields counted, of those of the row at
    hand, are the ones that the kept row has as well, with the same
    value, and the percentage is taken of the number of fields of the row
    at hand.  So of two rows that remain, the later one has the same value
    as the earlier one in at most 70% of its own fields. *)
Theorem C4_dedup_drops_rows_matching_a_kept_row :
  (∀ kept row key value,
     agreement kept row !! key = Some value
     ↔ row !! key = Some value ∧ kept !! key = Some value)
  ∧ (∀ kept row, matchScore kept row = size (agreement kept row))
  ∧ (∀ table, dataRows (processTableData table) `sublist_of` dataRows table)
  ∧ (∀ table, dataRows table = [] → dataRows (processTableData table) = [])
  ∧ (∀ table rows row,
       dataRows table = rows ++ [row] →
       let before := dataRows (processTableData (set_dataRows rows table)) in
       ((∃ kept, kept ∈ before ∧ 7 * size row < 10 * size (agreement kept row)) →
        dataRows (processTableData table) = before)
       ∧ ((∀ kept, kept ∈ before → 10 * size (agreement kept row) ≤ 7 * size row) →
          dataRows (processTableData table) = before ++ [row]))
  ∧ (∀ table i j row1 row2,
       i < j →
       dataRows (processTableData table) !! i = Some row1 →
       dataRows (processTableData table) !! j = Some row2 →
       10 * size (agreement row1 row2) ≤ 7 * size row2).
Proof.
  split_and!.
  - intros kept row key value. unfold agreement.
    rewrite map_lookup_filter_Some. done.
  - apply matchScore_agreement.
  - intros table. apply uniqueRows_sublist.
  - intros table Hrows. cbn [processTableData set_dataRows dataRows]. by rewrite Hrows.
  - intros table rows row Hrows. cbn [processTableData set_dataRows dataRows].
    rewrite Hrows, uniqueRows_snoc. split.
    + intros (kept & Hkept & Hscore).
      destruct (existsb _ _) eqn:Hex; [done|].
      apply not_true_iff_false in Hex. destruct Hex. apply existsb_exists.
      exists kept. split; [by apply list_elem_of_In|].
      apply rowMatches_iff. by rewrite matchScore_agreement.
    + intros Hnone. destruct (existsb _ _) eqn:Hex; [|done].
      apply existsb_exists in Hex as (kept & Hkept%list_elem_of_In & Hscore).
      apply rowMatches_iff in Hscore. rewrite matchScore_agreement in Hscore.
      specialize (Hnone kept Hkept). lia.
  - intros table i j row1 row2 Hij H1 H2.
    pose proof (uniqueRows_pairwise (dataRows table) i j row1 row2 Hij H1 H2) as Hno.
    apply not_true_iff_false in Hno.
    rewrite rowMatches_iff, matchScore_agreement in Hno. lia.
Qed.

(** The third of the sample rows has the same value as the first in the
    fields A, B and C, three of its four fields, and is dropped. *)
Lemma C4_dedup_witness :
  dataRows (processTableData (set_dataRows sampleRows datesTable))
  = dataRows (processTableData (set_dataRows (take 2 sampleRows) datesTable)).
Proof.
  apply (proj1 (proj1 (proj2 (proj2 (proj2 (proj2
                  C4_dedup_drops_rows_matching_a_kept_row))))
                  (set_dataRows sampleRows datesTable) (take 2 sampleRows)
                  {["A" := VString "1"; "B" := VString "2";
                    "C" := VString "3"; "D" := VString "9"]} eq_refl)).
  exists {["A" := VString "1"; "B" := VString "2";
           "C" := VString "3"; "D" := VString "4"]}.
  split.
  - vm_compute. left.
  - vm_compute. lia.
Defined.

(** C5 (counterexample).  Of three tables stacked right below each other,
    each further right than the one before, the third satisfies both
    conditions with the second, yet it gets no parent: the second was
    claimed by the first and is never tried as a parent. *)
Lemma C5_claimed_table_adopts_nothing :
  let this' :=
    (analyzeTableHierarchy defaultConfig sampleRuntime [0; 1; 2]
       (parserWith stackedTables)).2 in
  (∃ second third,
     stackedTables !! 1 = Some second ∧ stackedTables !! 2 = Some third
     ∧ startRow third = (endRow second + 1)%Z
     ∧ getTableIndentation second < getTableIndentation third)
  ∧ parentAt (heap this') 1 = Some 0
  ∧ parentAt (heap this') 2 = None.
Proof.
  cbv zeta. split.
  - eexists _, _. split_and!; [reflexivity..|cbn; lia].
  - split; vm_compute; reflexivity.
Qed.

(** C5 (amended).  Called on the tables of the run, [analyzeTableHierarchy]
    makes the table B at [j] a child of the table A at [i] exactly when A
    stands before B, A was not itself claimed as a child, B starts on the
    row after A ends and B's first header is further right than A's, and no
    unclaimed table before A satisfies these two conditions with B.  A
    child gets level 1 and stands in the children of its parent, which has
    level 0; the children of an unclaimed table are the tables that have
    it as parent, in the order of the input. *)
Theorem C5_first_unclaimed_match_becomes_parent
    (config : ExcelConfig) (runtime : Runtime) (this : ExcelParser) :
  let T := heap this in
  let s :=
    heap (analyzeTableHierarchy config runtime (seq 0 (length T)) this).2 in
  (∀ i j A B,
     T !! i = Some A → T !! j = Some B →
     parentAt s j = Some i
     ↔ i < j
       ∧ parentAt s i = None
       ∧ (startRow B = (endRow A + 1)%Z
          ∧ getTableIndentation A < getTableIndentation B)
       ∧ ∀ i' A', i' < i → T !! i' = Some A' → parentAt s i' = None →
           ¬ (startRow B = (endRow A' + 1)%Z
              ∧ getTableIndentation A' < getTableIndentation B))
  ∧ (∀ j i B, s !! j = Some B → parent B = Some i →
       level B = 1
       ∧ ∃ A, s !! i = Some A ∧ parent A = None ∧ level A = 0 ∧ j ∈ children A)
  ∧ (∀ i A, s !! i = Some A → parent A = None →
       level A = 0
       ∧ children A = filter (λ j, parentAt s j = Some i) (seq 0 (length T))).
Proof.
  intros T s. unfold s. rewrite analyzeTableHierarchy_heap. fold T. clear s.
  set (s := resolvedStore T (seq 0 (length T))). split_and!.
  - intros i j A B Hi Hj. unfold s.
    rewrite (resolvedStore_parent_iff T i j A B Hi Hj). rewrite isChildTable_iff.
    split.
    + intros (? & ? & Hchild & Hmin). do 3 (split; [done|]).
      intros i' A' Hi'i Hi' Hp. rewrite <- isChildTable_iff.
      by rewrite (Hmin i' A' Hi'i Hi' Hp).
    + intros (? & ? & Hchild & Hmin). do 3 (split; [done|]).
      intros i' A' Hi'i Hi' Hp. apply not_true_is_false.
      rewrite isChildTable_iff. by apply (Hmin i' A').
  - intros j i B Hj Hp.
    destruct (resolvedStore_children_claimed T j B i Hj Hp) as (Hlevel & _).
    split; [done|].
    assert (parentAt s j = Some i) as Hpj by (unfold parentAt; by rewrite Hj).
    destruct (resolvedStore_parent_lt T j i Hpj) as (Hij & Hjn & Hpi).
    destruct (lookup_lt_is_Some_2 s i) as [A HA].
    { unfold s. rewrite resolvedStore_length. lia. }
    fold s in Hpi. unfold parentAt in Hpi. rewrite HA in Hpi. cbn in Hpi.
    destruct (resolvedStore_children_top T i A HA Hpi) as (HlA & HcA).
    exists A. split_and!; [done..|].
    rewrite HcA. apply list_elem_of_filter. split; [done|].
    apply elem_of_seq. lia.
  - intros i A HA Hp. by apply resolvedStore_children_top.
Qed.

Lemma C5_first_unclaimed_match_witness :
  parentAt
    (heap (analyzeTableHierarchy defaultConfig sampleRuntime [0; 1; 2]
             (parserWith stackedTables)).2) 1 = Some 0.
Proof.
  apply (proj1 (C5_first_unclaimed_match_becomes_parent
                  defaultConfig sampleRuntime (parserWith stackedTables))
           0 1 (sampleTable 0 0 2 0) (sampleTable 1 3 5 1)).
  - reflexivity.
  - reflexivity.
  - split_and!.
    + lia.
    + vm_compute. reflexivity.
    + reflexivity.
    + cbn. lia.
    + intros i' A' Hi'. lia.
Defined.

(** C6 (failing input).  Of two tables, the second right below the first
    and further right, the second becomes the child of the first; the
    first is labelled "parent" and the second gets no label at all. *)
Theorem C6_claimed_table_gets_no_label :
  let this' :=
    (analyzeTableHierarchy defaultConfig sampleRuntime [0; 1]
       (parserWith adjacentTables)).2 in
  (λ table, (parent table, relationshipType (metadata table))) <$> heap this'
  = [(None, Some "parent"); (Some 0, None)].
Proof. vm_compute. reflexivity. Qed.

(** C7.  On tables with no children yet and pairwise distinct ids,
    [analyzeTableHierarchy] returns normally without logging an error, the
    traversal of [validateTableHierarchy] over the resolved tables returns
    (it does not reach the circular-reference error), and the parent/child
    structure is a forest: the children of a table are exactly the tables
    that have it as parent, and every descendant stands after its ancestor
    in the list, so no table is its own descendant.  The tables that
    [findBasicTables] produces are of this kind, on every worksheet; where
    the scan throws at a custom pattern that is no regular expression,
    [findBasicTables] produces no table, or throws in its turn, and the
    empty list passes [analyzeTableHierarchy] without an error. *)
Theorem C7_builder_output_is_an_acyclic_forest :
  (∀ (config : ExcelConfig) (runtime : Runtime) (this : ExcelParser),
     fresh (heap this) → NoDup (id <$> heap this) →
     ∃ tops visited this',
       analyzeTableHierarchy config runtime (seq 0 (length (heap this))) this
         = (Normal tops, this')
       ∧ errors this' = errors this
       ∧ validateTableHierarchy (heap this') tops = Visited visited
       ∧ (∀ i c, c ∈ childrenAt (heap this') i ↔ parentAt (heap this') c = Some i)
       ∧ (∀ i j, descendant (heap this') i j → i < j)
       ∧ (∀ i, ¬ descendant (heap this') i i))
  ∧ (∀ (config : ExcelConfig) (runtime : Runtime) (this : ExcelParser),
       match scanTables_throws config (worksheet this) with
       | None =>
           ∃ this1,
             findBasicTables config runtime this
               = (Normal (seq 0 (length (heap this1))), this1)
             ∧ fresh (heap this1) ∧ NoDup (id <$> heap this1)
       | Some error =>
           findBasicTables config runtime this
           = (if throwErrors config then Throw error else Normal [],
              (handleError config runtime "basic-table-detection" error this).2)
       end)
  ∧ (∀ (config : ExcelConfig) (runtime : Runtime) (this : ExcelParser),
       ∃ this',
         analyzeTableHierarchy config runtime [] this = (Normal [], this')
         ∧ errors this' = errors this).
Proof.
  split_and!.
  - intros config runtime this Hfresh Hids.
    destruct (resolvedStore_valid (heap this) Hfresh Hids) as [visited Hvalid].
    eexists _, visited, _. split.
    { by apply analyzeTableHierarchy_fresh. }
    cbn [heap set_heap errors]. split_and!; [done..| | |].
    + intros i c. by apply resolvedStore_children_iff.
    + intros i j. by apply resolvedStore_descendant_lt.
    + intros i Hi. apply resolvedStore_descendant_lt in Hi; [lia|done].
  - intros config runtime this.
    destruct (scanTables_throws config (worksheet this)) as [error|] eqn:Hscan.
    { by apply findBasicTables_throws_eq. }
    exists (set_heap (scanTables config (worksheet this)) this). split.
    { by apply findBasicTables_eq. }
    cbn [heap set_heap]. apply scanTables_fresh_ids.
  - intros config runtime this. eexists. split; [apply analyzeTableHierarchy_nil|done].
Qed.

Lemma C7_builder_output_witness :
  ∃ tops visited this',
    analyzeTableHierarchy defaultConfig sampleRuntime [0; 1] (parserWith adjacentTables)
      = (Normal tops, this')
    ∧ errors this' = []
    ∧ validateTableHierarchy (heap this') tops = Visited visited
    ∧ (∀ i c, c ∈ childrenAt (heap this') i ↔ parentAt (heap this') c = Some i)
    ∧ (∀ i j, descendant (heap this') i j → i < j)
    ∧ (∀ i, ¬ descendant (heap this') i i).
Proof.
  apply (proj1 C7_builder_output_is_an_acyclic_forest
           defaultConfig sampleRuntime (parserWith adjacentTables)).
  - repeat constructor.
  - apply (bool_decide_unpack _). vm_compute. exact I.
Defined.






(** C10 (counterexample).  The two tables carry the same id, so the
    traversal throws; with throwErrors off the [catch] returns the list
    it was given.  The second table of the returned list has been claimed
    by the first: its parent is set. *)
Lemma C10_fallback_returns_a_claimed_table :
  let result :=
    analyzeTableHierarchy defaultConfig sampleRuntime [0; 1]
      (parserWith clashingTables) in
  result.1 = Normal [0; 1]
  ∧ 1 ∈ [0; 1]
  ∧ parentAt (heap result.2) 1 = Some 0.
Proof. cbv zeta. split_and!; [vm_compute; reflexivity|set_solver|vm_compute; reflexivity]. Qed.

(** C10.  After [analyzeTableHierarchy] on the tables of a run, the
    tables without a parent are those of the top-level list, and a table
    with a parent stands in the children of its parent, which is in the
    top-level list, and of no other table of that list.  When the traversal
    throws no error the call returns the top-level list, so every returned
    table has no parent; when it throws, the call returns the list it was
    given, the claimed tables with it, or throws the error again.
    [processAndMergeTables] returns tables of its input with their parent
    unchanged.  The tables [findTableStructures] returns, and stores, have
    no parent: on the tables of the scan the traversal throws no error,
    and where the scan throws no table is returned. *)
Theorem C10_returned_tables_have_no_parent
    (config : ExcelConfig) (runtime : Runtime) (this : ExcelParser) :
  (let T := heap this in
   let s := resolvedStore T (seq 0 (length T)) in
   let tops := hierarchicalTables (hierarchyLoop T (seq 0 (length T))) in
   (∀ r, r ∈ tops ↔ r < length T ∧ parentAt s r = None)
   ∧ (∀ c i, parentAt s c = Some i →
        c ∉ tops ∧ i ∈ tops ∧ c ∈ childrenAt s i
        ∧ ∀ k, k ∈ tops → c ∈ childrenAt s k → k = i)
   ∧ heap (analyzeTableHierarchy config runtime (seq 0 (length T)) this).2 = s
   ∧ match validationError runtime (validateTableHierarchy s tops) with
     | None =>
         (analyzeTableHierarchy config runtime (seq 0 (length T)) this).1
         = Normal tops
     | Some error =>
         (analyzeTableHierarchy config runtime (seq 0 (length T)) this).1
         = if throwErrors config then Throw error else Normal (seq 0 (length T))
     end)
  ∧ (∀ tables,
       (∀ r, r ∈ tables → parentAt (heap this) r = None) →
       ∃ merged this',
         processAndMergeTables config runtime tables this = (Normal merged, this')
         ∧ ∀ r, r ∈ merged → r ∈ tables ∧ parentAt (heap this') r = None)
  ∧ match scanTables_throws config (worksheet this) with
    | None =>
        ∃ merged this',
          findTableStructures config runtime this = (Normal merged, this')
          ∧ (∀ r, r ∈ merged → parentAt (heap this') r = None)
          ∧ Forall (λ table, parent table = None) (tableStructures this')
    | Some error =>
        (findTableStructures config runtime this).1
        = (if throwErrors config then Throw error else Normal [])
        ∧ (throwErrors config = false →
           tableStructures (findTableStructures config runtime this).2 = [])
    end.
Proof.
  assert (∀ s tables r, parentAt s r = None →
            parentAt (mergeRelated config runtime s tables).1 r = None) as Hkeep.
  { intros s tables r Hr.
    pose proof (mergeRelated_keepsLinks config runtime s tables) as Hall.
    unfold parentAt in *.
    destruct ((mergeRelated config runtime s tables).1 !! r) as [b|] eqn:Hb; [|done].
    destruct (Forall2_lookup_r _ _ _ _ _ Hall Hb) as (a & Ha & Hab).
    rewrite Ha in Hr. cbn in *. destruct Hab as (_ & _ & _ & _ & <- & _). done. }
  split_and!.
  - cbv zeta. set (T := heap this). split_and!.
    + intros r. apply resolvedStore_top.
    + intros c i Hc.
      destruct (resolvedStore_parent_lt T c i Hc) as (Hic & Hcn & Hi).
      assert (i ∈ hierarchicalTables (hierarchyLoop T (seq 0 (length T)))) as Htop.
      { apply resolvedStore_top. split; [lia|done]. }
      assert (∀ k, k ∈ hierarchicalTables (hierarchyLoop T (seq 0 (length T))) →
                c ∈ childrenAt (resolvedStore T (seq 0 (length T))) k
                ↔ parentAt (resolvedStore T (seq 0 (length T))) c = Some k) as Hkids.
      { intros k [Hk Hpk]%resolvedStore_top.
        destruct (lookup_lt_is_Some_2 (resolvedStore T (seq 0 (length T))) k)
          as [A HA]; [by rewrite resolvedStore_length|].
        unfold parentAt in Hpk. rewrite HA in Hpk. cbn in Hpk.
        destruct (resolvedStore_children_top T k A HA Hpk) as [_ Hchildren].
        unfold childrenAt. rewrite HA. cbn. rewrite Hchildren.
        rewrite list_elem_of_filter, elem_of_seq. split; [by intros [? _]|].
        intros Hp. split; [done|]. lia. }
      split_and!.
      * intros [_ Hnone]%resolvedStore_top. congruence.
      * done.
      * by apply Hkids.
      * intros k Hk Hck. apply Hkids in Hck; [|done]. congruence.
    + apply analyzeTableHierarchy_heap.
    + rewrite analyzeTableHierarchy_outcome. cbv zeta. fold T.
      by destruct (validationError _ _).
  - intros tables Hnone. eexists _, _. split.
    { apply processAndMergeTables_eq. }
    cbn [heap set_heap]. intros r Hr.
    apply mergeRelated_subset in Hr. split; [done|]. by apply Hkeep, Hnone.
  - destruct (scanTables_throws config (worksheet this)) as [error|] eqn:Hscan.
    { rewrite (findTableStructures_throws_eq config runtime this error Hscan).
      split; [by destruct (throwErrors config)|]. by intros ->. }
    eexists _, _. split.
    { by apply findTableStructures_eq. }
    cbn [heap set_heap set_tablesProcessed set_tableStructures tableStructures].
    set (T := scanTables config (worksheet this)).
    assert (∀ r, r ∈ (mergeRelated config runtime
                        (resolvedStore T (seq 0 (length T)))
                        (hierarchicalTables (hierarchyLoop T (seq 0 (length T))))).2 →
              parentAt (mergeRelated config runtime
                          (resolvedStore T (seq 0 (length T)))
                          (hierarchicalTables (hierarchyLoop T (seq 0 (length T))))).1 r
              = None) as Hmerged.
    { intros r Hr. apply mergeRelated_subset in Hr.
      apply Hkeep. by apply resolvedStore_top in Hr as [_ Hr]. }
    split; [done|].
    apply Forall_forall. intros table [r [Hr Hlook]]%list_elem_of_omap.
    apply Hmerged in Hr. unfold parentAt in Hr. by rewrite Hlook in Hr.
Qed.

(** On two adjacent tables with distinct ids the call returns the first
    table alone; the second has the first as its parent and is among its
    children. *)
Lemma C10_returned_tables_witness :
  let result :=
    analyzeTableHierarchy defaultConfig sampleRuntime [0; 1]
      (parserWith adjacentTables) in
  result.1 = Normal [0]
  ∧ (∀ r, r ∈ [0] ↔ r < 2 ∧ parentAt (heap result.2) r = None)
  ∧ (∀ c i, parentAt (heap result.2) c = Some i →
       c ∉ [0] ∧ i ∈ [0] ∧ c ∈ childrenAt (heap result.2) i
       ∧ ∀ k, k ∈ [0] → c ∈ childrenAt (heap result.2) k → k = i).
Proof.
  cbv zeta.
  destruct (proj1 (C10_returned_tables_have_no_parent
                     defaultConfig sampleRuntime (parserWith adjacentTables)))
    as (Htops & Hkids & Hheap & Hrun).
  split_and!.
  - exact Hrun.
  - exact Htops.
  - exact Hkids.
Defined.

(** * Further properties of the pipeline *)

(** An ascending list that holds exactly the positions below [n] is
    [seq 0 n]. *)
Lemma StronglySorted_lt_seq (l : list nat) (n : nat) :
  StronglySorted lt l → (∀ x, x ∈ l ↔ x < n) → l = seq 0 n.
Proof.
  intros Hsorted Hmem.
  assert (∀ len start, StronglySorted lt (seq start len)) as Hseq.
  { induction len as [|len IH]; intros start; cbn [seq]; constructor; [apply IH|].
    apply Forall_forall. intros x Hx%elem_of_seq. lia. }
  apply (StronglySorted_unique_strong lt).
  - intros x1 x2 _ _ H12 H21. lia.
  - done.
  - apply Hseq.
  - apply NoDup_Permutation.
    + by apply StronglySorted_lt_NoDup.
    + apply NoDup_seq.
    + intros x. rewrite Hmem, elem_of_seq. lia.
Qed.

(** The tables [findBasicTables] returns lie apart: each starts at least
    two rows after the end of every table before it.  Where the scan
    throws at a custom pattern that is no regular expression, the call
    returns no table, or throws in its turn. *)
Theorem findBasicTables_tables_lie_apart
    (config : ExcelConfig) (runtime : Runtime) (this : ExcelParser) :
  match scanTables_throws config (worksheet this) with
  | None =>
      ∃ this1,
        findBasicTables config runtime this
          = (Normal (seq 0 (length (heap this1))), this1)
        ∧ ∀ i j a b, i < j → heap this1 !! i = Some a → heap this1 !! j = Some b →
            (endRow a + 2 ≤ startRow b)%Z
  | Some error =>
      (findBasicTables config runtime this).1
      = if throwErrors config then Throw error else Normal []
  end.
Proof.
  destruct (scanTables_throws config (worksheet this)) as [error|] eqn:Hscan.
  { by rewrite (findBasicTables_throws_eq config runtime this error Hscan). }
  exists (set_heap (scanTables config (worksheet this)) this). split.
  - by apply findBasicTables_eq.
  - apply scanTables_apart.
Qed.

(** So on the tables of [findBasicTables] the hierarchy pass claims no
    child: it returns every table, each with no parent, no children,
    level 0 and the label "independent". *)
Theorem scanned_tables_stay_independent
    (config : ExcelConfig) (runtime : Runtime) (this : ExcelParser) :
  let T := scanTables config (worksheet this) in
  ∃ s,
    analyzeTableHierarchy config runtime (seq 0 (length T)) (set_heap T this)
      = (Normal (seq 0 (length T)), set_heap s this)
    ∧ length s = length T
    ∧ ∀ i t, s !! i = Some t →
        parent t = None ∧ children t = [] ∧ level t = 0
        ∧ relationshipType (metadata t) = Some "independent".
Proof.
  intros T. exists (resolvedStore T (seq 0 (length T))).
  pose proof (scanTables_apart config (worksheet this)) as Hapart. fold T in Hapart.
  assert (hierarchicalTables (hierarchyLoop T (seq 0 (length T)))
          = seq 0 (length T)) as Htops.
  { apply StronglySorted_lt_seq.
    - by destruct (hierarchyLoop_spec T) as (_ & ? & _).
    - intros x. rewrite resolvedStore_top. split; [by intros [? _]|].
      intros Hx. split; [done|]. by apply resolvedStore_apart. }
  split_and!.
  - pose proof (analyzeTableHierarchy_scanned config runtime this) as Hrun.
    cbv zeta in Hrun. fold T in Hrun. by rewrite Htops in Hrun.
  - apply resolvedStore_length.
  - intros i t Hi.
    assert (parent t = None) as Hparent.
    { pose proof (resolvedStore_apart T i Hapart) as Hp.
      unfold parentAt in Hp. by rewrite Hi in Hp. }
    destruct (resolvedStore_children_top T i t Hi Hparent) as [Hlevel Hchildren].
    assert (children t = []) as Hnone.
    { rewrite Hchildren. apply filter_none. intros j _.
      by rewrite resolvedStore_apart. }
    split_and!; [done..|].
    rewrite (resolvedStore_top_label T i t Hi Hparent).
    by rewrite bool_decide_eq_false_2 by (by rewrite Hnone; intros ?).
Qed.

(** The rule of the empty rows in [findBasicTables], at an open table: an
    empty row followed by a row that is not empty leaves the table as it
    is; so do two empty rows followed by a row that is not empty or by
    the end of the range; an empty row followed by two more within the
    range finalizes the table, with the row before it as [endRow]. *)
Theorem blank_run_finalizes_from_three_rows
    (config : ExcelConfig) (ws : Worksheet) (st : ScanState) (table : Table)
    (row : nat) :
  currentTable st = Some table →
  isEmpty (analyzeRow config ws row) = true →
  (isEmpty (analyzeRow config ws (row + 1)) = false →
   scanRow config ws st row = st)
  ∧ (isEmpty (analyzeRow config ws (row + 1)) = true →
     range_e_r ws < row + 2 ∨ isEmpty (analyzeRow config ws (row + 2)) = false →
     scanRows config ws st [row; row + 1] = st)
  ∧ (isEmpty (analyzeRow config ws (row + 1)) = true →
     isEmpty (analyzeRow config ws (row + 2)) = true →
     row + 2 ≤ range_e_r ws →
     scanRow config ws st row
     = {| tables := tables st ++ [finalizeTable table (Z.of_nat row - 1)];
          currentTable := None;
          tableId := tableId st |}).
Proof.
  intros Hopen Hempty. split_and!.
  - intros Hnext. by apply (single_blank_row_keeps_table config ws st table).
  - intros Hnext Hend. by apply (blank_run_of_two_keeps_table config ws st table).
  - intros Hnext Hthird Hlen. by apply blank_run_of_three_finalizes.
Qed.

Lemma blank_run_witness :
  let st := scanRows defaultConfig gapSheet scanInit [0; 1] in
  scanRows defaultConfig gapSheet st [2; 2 + 1] = st.
Proof.
  cbv zeta.
  apply (proj1 (proj2 (blank_run_finalizes_from_three_rows defaultConfig gapSheet
                         (scanRows defaultConfig gapSheet scanInit [0; 1])
                         (set_dataRows
                            [extractRowData gapSheet 1 (getHeaders defaultConfig gapSheet 0)]
                            (set_endRow 1 (initializeTable defaultConfig gapSheet 0 0)))
                         2 ltac:(vm_compute; reflexivity)
                         ltac:(vm_compute; reflexivity)))).
  - vm_compute. reflexivity.
  - right. vm_compute. reflexivity.
Defined.

(** [extractDataPattern] never reports [hasNulls]: the values are
    filtered with [Boolean] before [hasNulls] is computed from them. *)
Theorem extractDataPattern_hasNulls_is_never_set
    (runtime : Runtime) (table : Table) (header : Header.t) :
  from_option Pattern.hasNulls false (extractDataPattern runtime table header)
  = false.
Proof.
  destruct (extractDataPattern runtime table header) as [pattern|] eqn:Hpattern;
    [|done].
  cbn. by apply extractDataPattern_Some in Hpattern as (_ & _ & _ & ? & _).
Qed.

(** After [analyzeTableHierarchy] a table without a parent is labelled
    "parent" when it has children and "independent" otherwise; a table
    with a parent has the metadata it came with. *)
Theorem analyzeTableHierarchy_labels_the_top_level
    (config : ExcelConfig) (runtime : Runtime) (this : ExcelParser)
    (x : nat) (t : Table) :
  heap (analyzeTableHierarchy config runtime (seq 0 (length (heap this))) this).2
    !! x = Some t →
  match parent t with
  | None =>
      relationshipType (metadata t)
      = Some (if bool_decide (children t ≠ []) then "parent" else "independent")
  | Some _ => ∃ t0, heap this !! x = Some t0 ∧ metadata t = metadata t0
  end.
Proof.
  rewrite analyzeTableHierarchy_heap. intros Hx.
  destruct (parent t) as [i|] eqn:Hparent.
  - by apply (resolvedStore_claimed_metadata (heap this) x t i).
  - by apply (resolvedStore_top_label (heap this) x t).
Qed.

Lemma analyzeTableHierarchy_labels_witness :
  ∃ t0, adjacentTables !! 1 = Some t0
        ∧ metadata (set_parent (Some 0) (set_level 1 (sampleTable 1 3 5 1)))
          = metadata t0.
Proof.
  apply (analyzeTableHierarchy_labels_the_top_level defaultConfig sampleRuntime
           (parserWith adjacentTables) 1
           (set_parent (Some 0) (set_level 1 (sampleTable 1 3 5 1)))).
  vm_compute. reflexivity.
Defined.

(** The class has no method [findRelatedData], so on a sheet with a
    header that names a group [findRelatedDataGroups] ends in its
    [catch]: with the default configuration it logs one data-grouping
    error and returns the empty map. *)
Theorem findRelatedDataGroups_falls_back_on_a_product_header :
  ∃ this',
    findRelatedDataGroups defaultConfig sampleRuntime (newParser widgetSheet)
      = (Normal [], this')
    ∧ ((λ entry, (ErrorInfo.context entry, ErrorInfo.message entry))
         <$> errors this')
      = [("data-grouping", "this.findRelatedData is not a function")].
Proof. eexists. split; vm_compute; reflexivity. Qed.

(** A row below the header whose cells are all text with a letter counts
    as header-like, not as a data row: it extends the table and adds no
    entry to [dataRows]. *)
Theorem row_of_words_is_not_a_data_row :
  isDataRow (analyzeRow defaultConfig wordsSheet 1) = false
  ∧ ∃ table,
      scanTables defaultConfig wordsSheet = [table]
      ∧ rowCount table = Some 0 ∧ dataRows table = [] ∧ endRow table = 3%Z.
Proof.
  split; [vm_compute; reflexivity|].
  eexists. split; [vm_compute scanTables; reflexivity|].
  split_and!; reflexivity.
Qed.

(** When the second table starts at or below the end row of the first,
    as tables in scan order do, the distance [areTablesRelated] tests is
    the start row of the second minus the end row of the first. *)
Theorem areTablesRelated_in_scan_order
    (config : ExcelConfig) (runtime : Runtime) (table1 table2 : Table) :
  (endRow table1 ≤ startRow table2)%Z →
  areTablesRelated config runtime table1 table2 = true
  ↔ (startRow table2 - endRow table1 ≤ 5)%Z
    ∧ length (headers table1) `min` length (headers table2)
      ≤ 2 * similarPairs config runtime (headers table1) (headers table2).
Proof.
  intros Horder. rewrite areTablesRelated_iff.
  by rewrite Z.abs_eq by lia.
Qed.

Lemma areTablesRelated_in_scan_order_witness :
  areTablesRelated defaultConfig sampleRuntime
    (sampleTable 0 0 5 0) (sampleTable 1 9 12 0) = true
  ↔ (9 - 5 ≤ 5)%Z
    ∧ 1 `min` 1
      ≤ 2 * similarPairs defaultConfig sampleRuntime
              (headers (sampleTable 0 0 5 0)) (headers (sampleTable 1 9 12 0)).
Proof.
  apply (areTablesRelated_in_scan_order defaultConfig sampleRuntime
           (sampleTable 0 0 5 0) (sampleTable 1 9 12 0)).
  vm_compute. discriminate.
Defined.

(** ** Lookup by header keyword *)

Lemma searchCell_Some ws keywords row col value :
  searchCell ws keywords row col = Some value
  ↔ (∃ v keyword,
       cell ws row col = Some (VString v) ∧ keyword ∈ keywords
       ∧ includes (toLowerCase (trim v)) (toLowerCase keyword) = true)
    ∧ cell ws row (col + 1) = Some value.
Proof.
  unfold searchCell.
  destruct (cell ws row col) as [[v|n|b]|] eqn:Hcell;
    try (split; [done|]; by intros [(? & ? & ? & _) _]).
  cbv zeta. rewrite firstSome_Some. unfold matchKeyword. split.
  - intros (l1 & keyword & l2 & -> & Hk & _).
    destruct (includes _ _) eqn:Hinc; [|done]. split; [|done].
    exists v, keyword. split_and!; [done| |done].
    apply elem_of_app. right. by left.
  - intros [(v' & keyword & [= <-] & Hin & Hinc) Hadj].
    assert (firstSome (λ keyword,
              if includes (toLowerCase (trim v)) (toLowerCase keyword)
              then cell ws row (col + 1) else None) keywords = Some value) as Hfirst.
    { clear Hcell. induction keywords as [|k keywords IH]; [by apply elem_of_nil in Hin|].
      cbn. destruct (includes _ (toLowerCase k)) eqn:Hk.
      - by rewrite Hadj.
      - apply elem_of_cons in Hin as [->|Hin]; [congruence|by apply IH]. }
    by apply firstSome_Some in Hfirst.
Qed.

Lemma searchCell_None ws keywords row col :
  searchCell ws keywords row col = None ↔ ¬ keywordCell ws keywords row col.
Proof.
  unfold keywordCell. split.
  - intros Hnone [Hhit [value Hadj]].
    assert (searchCell ws keywords row col = Some value) as Hsome
      by by apply searchCell_Some.
    congruence.
  - intros Hno. destruct (searchCell ws keywords row col) as [value|] eqn:Hs; [|done].
    apply searchCell_Some in Hs as [Hhit Hadj]. destruct Hno. by split.
Qed.

(** [getValueByHeader] looks through the first 20 rows of the range, row
    by row and column by column, for a text cell that holds one of the
    keywords (the text trimmed, both lowered) and has a cell to its right;
    it returns the value of the cell right of the first one it finds, and
    null when there is none. *)
Theorem getValueByHeader_returns_right_of_first_match
    (ws : Worksheet) (keywords : list string) :
  let maxRows := 20 `min` (range_e_r ws + 1) in
  (getValueByHeader ws keywords = None
   ↔ ∀ row col, row < maxRows → col ≤ range_e_c ws →
       ¬ keywordCell ws keywords row col)
  ∧ (∀ value,
       getValueByHeader ws keywords = Some value
       ↔ ∃ row col,
           row < maxRows ∧ col ≤ range_e_c ws
           ∧ keywordCell ws keywords row col
           ∧ cell ws row (col + 1) = Some value
           ∧ (∀ row' col', row' < row → col' ≤ range_e_c ws →
                ¬ keywordCell ws keywords row' col')
           ∧ (∀ col', col' < col → ¬ keywordCell ws keywords row col')).
Proof.
  intros maxRows. unfold getValueByHeader. cbv zeta. fold maxRows.
  unfold columns. split.
  - rewrite firstSome_seq_None. split.
    + intros Hnone row col Hrow Hcol. apply searchCell_None.
      specialize (Hnone row ltac:(lia)). rewrite firstSome_seq_None in Hnone.
      apply Hnone. lia.
    + intros Hnone row Hrow. apply firstSome_seq_None. intros col Hcol.
      apply searchCell_None, Hnone; lia.
  - intros value. rewrite firstSome_seq. split.
    + intros (row & Hrow & Hfound & Hbefore).
      apply firstSome_seq in Hfound as (col & Hcol & Hcell & Hleft).
      apply searchCell_Some in Hcell as [Hhit Hadj].
      exists row, col. split_and!; [lia..| |done| |].
      * split; [done|]. by exists value.
      * intros row' col' Hrow' Hcol'. apply searchCell_None.
        specialize (Hbefore row' ltac:(lia)). rewrite firstSome_seq_None in Hbefore.
        apply Hbefore. lia.
      * intros col' Hcol'. apply searchCell_None, Hleft. lia.
    + intros (row & col & Hrow & Hcol & [Hhit _] & Hadj & Hbefore & Hleft).
      exists row. split_and!; [lia..| |].
      * apply firstSome_seq. exists col. split_and!; [lia..| |].
        -- by apply searchCell_Some.
        -- intros col' Hcol'. apply searchCell_None, Hleft. lia.
      * intros row' Hrow'. apply firstSome_seq_None. intros col' Hcol'.
        apply searchCell_None, Hbefore; lia.
Qed.

(** ** The tables of the scan *)

Lemma scannedFrom_finalizeTable config ws s last t endRow :
  scannedFrom config ws s last t →
  scannedFrom config ws s last (finalizeTable t endRow).
Proof. by intros (? & ? & ? & ? & ? & ? & ?). Qed.

Lemma finalizeTable_finalized config ws k t s last :
  id t = tableName k → scannedFrom config ws s last t → s ≤ last →
  finalized config ws k (finalizeTable t (Z.of_nat last)).
Proof.
  intros Hid Hs Hle. split_and!; [done..|].
  exists s, last. split_and!; [by apply scannedFrom_finalizeTable|done..].
Qed.

Lemma scannedFrom_next config ws s r t :
  s < r → scannedFrom config ws s (r - 1) t →
  scannedFrom config ws s r
    (if isDataRow (analyzeRow config ws r)
     then set_dataRows (dataRows t ++ [extractRowData ws r (headers t)]) t
     else t).
Proof.
  intros Hsr (Hstart & Hhead & Hheaders & Hrows & Hc & Hl & Hp).
  assert (seq (S s) (r - s) = seq (S s) (r - 1 - s) ++ [r]) as Hseq.
  { replace (r - s) with ((r - 1 - s) + 1) by lia. rewrite seq_app. cbn [seq].
    by replace (S s + (r - 1 - s)) with r by lia. }
  unfold scannedFrom. rewrite Hseq, filter_app, fmap_app.
  destruct (isDataRow (analyzeRow config ws r)) eqn:Hd.
  - rewrite filter_cons_True by done. cbn. rewrite Hrows, Hheaders. done.
  - rewrite filter_cons_False by (by rewrite Hd). cbn. rewrite app_nil_r. done.
Qed.

Lemma scanRow_build config ws st r :
  BuildInv config ws r st → BuildInv config ws (S r) (scanRow config ws st r).
Proof.
  intros (Hdone & Hcount & Hopen). unfold scanRow. cbv zeta.
  unfold BuildInv, built, option_list.
  assert (∀ k t, tables st !! k = Some t →
            finalized config ws k t ∧ (endRow t + 2 ≤ Z.of_nat (S r))%Z) as Hdone'.
  { intros k t Hk. destruct (Hdone k t Hk). split; [done|lia]. }
  unfold built, option_list in *.
  destruct (currentTable st) as [table|] eqn:Hc; cbn [option_rect] in *.
  - rewrite bool_decide_eq_false_2 by done. rewrite andb_false_r.
    destruct (Hopen table eq_refl) as (Hid & s & Hsr & Hscanned).
    destruct (isEmpty _) eqn:Hempty; cbn [andb negb].
    + destruct (1 <? _).
      * split_and!; cbn [tables currentTable tableId option_rect].
        -- intros k t Hk. apply lookup_app_Some in Hk as [Hk|[Hlen Hk]]; [by apply Hdone'|].
           apply list_lookup_singleton_Some in Hk as [Hk <-].
           replace k with (length (tables st)) by lia.
           replace (Z.of_nat r - 1)%Z with (Z.of_nat (r - 1)) by lia. split.
           ++ apply (finalizeTable_finalized config ws _ _ s); [done..|lia].
           ++ cbn. lia.
        -- rewrite app_nil_r, Hcount, !length_app. done.
        -- done.
      * split_and!; [done|by rewrite Hc|].
        intros c Hc'. rewrite Hc in Hc'. injection Hc' as <-. split; [done|].
        exists s. split; [lia|]. replace (S r - 1) with r by lia.
        pose proof (scannedFrom_next config ws s r table Hsr Hscanned) as Hnext.
        destruct (isDataRow (analyzeRow config ws r)) eqn:Hd; [|done].
        apply isDataRow_not_isEmpty in Hd. congruence.
    + split_and!; cbn [tables currentTable tableId option_rect];
        [done|by rewrite Hcount, !length_app|].
      intros c [= <-]. split; [by destruct (isDataRow _)|].
      exists s. split; [lia|]. replace (S r - 1) with r by lia.
      pose proof (scannedFrom_next config ws s r table Hsr Hscanned) as Hnext.
      destruct Hscanned as (Hstart & Hhead & Hheaders & Hrows & Hch & Hl & Hp).
      destruct (isDataRow (analyzeRow config ws r)).
      * destruct Hnext as (_ & _ & _ & Hrows' & _). by split_and!.
      * destruct Hnext as (_ & _ & _ & Hrows' & _). by split_and!.
  - rewrite bool_decide_eq_true_2 by done. rewrite andb_true_r.
    rewrite app_nil_r in Hcount.
    destruct (isHeaderRow _) eqn:Hh.
    + split_and!; cbn [tables currentTable tableId option_rect]; [done| |].
      * rewrite length_app. cbn. lia.
      * intros c [= <-]. split; [by rewrite <- Hcount|].
        exists r. split; [lia|]. unfold scannedFrom.
        replace (S r - 1 - r) with 0 by lia. by split_and!.
    + split_and!; [done| |].
      * rewrite Hc. cbn. by rewrite app_nil_r.
      * intros c Hc'. by rewrite Hc in Hc'.
Qed.

Lemma scanRows_build config ws n r st :
  BuildInv config ws r st → BuildInv config ws (r + n) (scanRows config ws st (seq r n)).
Proof.
  revert r st. induction n as [|n IH]; intros r st Hst; cbn [seq].
  - by rewrite Nat.add_0_r.
  - unfold scanRows. cbn [foldl]. replace (r + S n) with (S r + n) by lia.
    apply IH. by apply scanRow_build.
Qed.

(** Every table of the scan is a finalized one that ends within the range. *)
Lemma scanTables_finalized config ws k t :
  scanTables config ws !! k = Some t →
  finalized config ws k t ∧ (endRow t ≤ Z.of_nat (range_e_r ws))%Z.
Proof.
  assert (BuildInv config ws (0 + S (range_e_r ws))
            (scanRows config ws scanInit (rows ws))) as (Hdone & Hcount & Hopen).
  { apply scanRows_build. split_and!.
    - intros k' t' Hk. cbn in Hk. by rewrite lookup_nil in Hk.
    - done.
    - done. }
  unfold scanTables, closeScan.
  destruct (currentTable _) as [table|] eqn:Hc.
  - intros Hk. apply lookup_app_Some in Hk as [Hk|[Hlen Hk]].
    + destruct (Hdone k t Hk). split; [done|lia].
    + apply list_lookup_singleton_Some in Hk as [Hk <-].
      replace k with (length (tables (scanRows config ws scanInit (rows ws)))) by lia.
      destruct (Hopen table eq_refl) as (Hid & s & Hsr & Hscanned).
      replace (0 + S (range_e_r ws) - 1) with (range_e_r ws) in Hscanned by lia.
      split; [|cbn; lia].
      apply (finalizeTable_finalized config ws _ _ s); [done..|lia].
  - intros Hk. destruct (Hdone k t Hk). split; [done|lia].
Qed.

(** What [findBasicTables] builds.  The table at position [k] of its
    result is named table_k; it starts at a header row [s] of the sheet,
    whose headers it carries, and ends at a row [last] of the range, not
    before [s]; its data rows are those of the rows after [s] up to [last]
    in which [analyzeRow] counts a data cell, in order, each read under the
    headers of the table; rowCount is their number; the table has no
    parent, no children and level 0. *)
Theorem findBasicTables_builds_tables_from_header_rows
    (config : ExcelConfig) (ws : Worksheet) (k : nat) (t : Table) :
  scanTables config ws !! k = Some t →
  id t = "table_" +:+ pretty k
  ∧ (∃ s last,
       startRow t = Z.of_nat s ∧ endRow t = Z.of_nat last
       ∧ s ≤ last ≤ range_e_r ws
       ∧ isHeaderRow (analyzeRow config ws s) = true
       ∧ headers t = getHeaders config ws s
       ∧ dataRows t =
           (λ r, extractRowData ws r (headers t))
             <$> filter (λ r, isDataRow (analyzeRow config ws r) = true)
                        (seq (S s) (last - s)))
  ∧ rowCount t = Some (length (dataRows t))
  ∧ children t = [] ∧ level t = 0 ∧ parent t = None
  ∧ metadata t
    = {| indentation := Some (getTableIndentation t);
         patternType := Some "default";
         contentType := Some (identifyContentType t);
         relationshipType := None |}.
Proof.
  intros Hk.
  destruct (scanTables_finalized config ws k t Hk)
    as [(Hid & Hcount & Hmeta & s & last & Hscanned & Hend & Hle) Hrange].
  destruct Hscanned as (Hstart & Hhead & Hheaders & Hrows & Hch & Hl & Hp).
  split_and!; [done| |done..].
  exists s, last. split_and!; [done..|lia|lia|done|done|].
  by rewrite Hheaders.
Qed.

Lemma findBasicTables_builds_witness :
  id (finalizeTable
        (set_dataRows [extractRowData widgetSheet 1 (getHeaders defaultConfig widgetSheet 0)]
           (set_endRow 1 (initializeTable defaultConfig widgetSheet 0 0))) 3)
  = "table_" +:+ pretty 0.
Proof.
  apply (findBasicTables_builds_tables_from_header_rows defaultConfig widgetSheet 0
           (finalizeTable
              (set_dataRows
                 [extractRowData widgetSheet 1 (getHeaders defaultConfig widgetSheet 0)]
                 (set_endRow 1 (initializeTable defaultConfig widgetSheet 0 0))) 3)).
  vm_compute. reflexivity.
Defined.

(** ** Row objects *)

Lemma extractRowData_snoc ws row hs header :
  extractRowData ws row (hs ++ [header]) =
    match getCellValue ws row (Header.column header) with
    | Some value =>
        setProperty (Header.value header) value (extractRowData ws row hs)
    | None => extractRowData ws row hs
    end.
Proof. unfold extractRowData. by rewrite foldl_snoc. Qed.

Lemma extractRowData_proto ws row hs :
  extractRowData ws row hs !! "__proto__" = None.
Proof.
  induction hs as [|header hs IH] using rev_ind; [done|].
  rewrite extractRowData_snoc.
  destruct (getCellValue ws row (Header.column header)) as [value|]; [|done].
  unfold setProperty. case_bool_decide as Hkey; [done|].
  by rewrite lookup_insert_ne.
Qed.

Lemma extractRowData_lookup ws row hs key :
  key ≠ "__proto__" →
  extractRowData ws row hs !! key = last (omap (keyedCell ws row key) hs).
Proof.
  intros Hproto.
  induction hs as [|header hs IH] using rev_ind; [done|].
  rewrite extractRowData_snoc, omap_app. cbn [omap list_omap]. unfold keyedCell at 2.
  destruct (getCellValue ws row (Header.column header)) as [value|] eqn:Hcell.
  - unfold setProperty.
    destruct (decide (Header.value header = key)) as [Hkey|Hkey].
    + rewrite (bool_decide_eq_true_2 (Header.value header = key)) by done.
      rewrite last_snoc. subst key.
      rewrite bool_decide_eq_false_2 by done. by rewrite lookup_insert_eq.
    + rewrite (bool_decide_eq_false_2 (Header.value header = key)) by done.
      rewrite app_nil_r. case_bool_decide; [done|]. by rewrite lookup_insert_ne.
  - case_bool_decide; by rewrite app_nil_r.
Qed.

Lemma extractRowData_size ws row hs : size (extractRowData ws row hs) ≤ length hs.
Proof.
  induction hs as [|h hs IH] using rev_ind; [done|].
  rewrite extractRowData_snoc, length_app. cbn [length].
  destruct (getCellValue _ _ _); [|lia].
  unfold setProperty. case_bool_decide; [lia|].
  destruct (extractRowData ws row hs !! Header.value h) eqn:Hl.
  - rewrite map_size_insert_Some by done. lia.
  - rewrite map_size_insert_None by done. lia.
Qed.

(** The row object [extractRowData] builds.  It never has the key
    ["__proto__"]: a header with that text writes nothing.  Under any
    other key it holds the cell of the last header with that text whose
    cell has a value, and the key is missing exactly when no header with
    that text has a cell with a value in the row.  When the header texts
    are pairwise distinct, each header reads its own column. *)
Theorem extractRowData_reads_the_last_header_of_a_text
    (ws : Worksheet) (row : nat) (hs : list Header.t) :
  extractRowData ws row hs !! "__proto__" = None
  ∧ (∀ key,
       key ≠ "__proto__" →
       extractRowData ws row hs !! key = last (omap (keyedCell ws row key) hs))
  ∧ (∀ key,
       extractRowData ws row hs !! key = None
       ↔ key = "__proto__"
         ∨ ∀ header, header ∈ hs → Header.value header = key →
             getCellValue ws row (Header.column header) = None)
  ∧ (NoDup (Header.value <$> hs) →
     ∀ header, header ∈ hs → Header.value header ≠ "__proto__" →
       extractRowData ws row hs !! Header.value header
       = getCellValue ws row (Header.column header))
  ∧ size (extractRowData ws row hs) ≤ length hs.
Proof.
  split_and!.
  - apply extractRowData_proto.
  - apply extractRowData_lookup.
  - intros key. destruct (decide (key = "__proto__")) as [->|Hproto].
    { split; [by left|]. intros _. apply extractRowData_proto. }
    rewrite extractRowData_lookup, last_None by done. split.
    + intros Hnil. right. intros header Hin Hkey.
      destruct (getCellValue ws row (Header.column header)) as [value|] eqn:Hcell;
        [|done].
      assert (value ∈ omap (keyedCell ws row key) hs) as Habs.
      { apply list_elem_of_omap. exists header. split; [done|].
        unfold keyedCell. by rewrite bool_decide_eq_true_2. }
      rewrite Hnil in Habs. by apply elem_of_nil in Habs.
    + intros [?|Hall]; [done|].
      destruct (omap _ hs) as [|value rest] eqn:Hvalues; [done|].
      assert (value ∈ omap (keyedCell ws row key) hs) as Hin
        by (rewrite Hvalues; by left).
      apply list_elem_of_omap in Hin as (header & Hin & Hcell).
      unfold keyedCell in Hcell. case_bool_decide as Hkey; [|done].
      by rewrite (Hall header Hin Hkey) in Hcell.
  - intros Hnd header Hin Hproto. rewrite extractRowData_lookup by done.
    clear Hproto.
    induction hs as [|h hs IH] using rev_ind; [by apply elem_of_nil in Hin|].
    rewrite fmap_app in Hnd. apply NoDup_app in Hnd as (Hnd & Hdisj & _).
    rewrite omap_app. cbn [omap list_omap]. unfold keyedCell at 2.
    apply elem_of_app in Hin as [Hin| ->%list_elem_of_singleton].
    + rewrite bool_decide_eq_false_2.
      * rewrite app_nil_r. by apply IH.
      * intros Heq. apply (Hdisj (Header.value header)).
        -- apply list_elem_of_fmap. by exists header.
        -- cbn. rewrite <- Heq. by left.
    + rewrite bool_decide_eq_true_2 by done.
      destruct (getCellValue ws row (Header.column h)) as [value|] eqn:Hcell.
      * by rewrite last_snoc.
      * rewrite app_nil_r. apply last_None. 
        destruct (omap _ hs) as [|value rest] eqn:Hvalues; [done|].
        assert (value ∈ omap (keyedCell ws row (Header.value h)) hs) as Hin
          by (rewrite Hvalues; by left).
        apply list_elem_of_omap in Hin as (h' & Hin & Hk).
        unfold keyedCell in Hk. case_bool_decide as Hkey; [|done].
        destruct (Hdisj (Header.value h)).
        -- apply list_elem_of_fmap. by exists h'.
        -- by left.
  - apply extractRowData_size.
Qed.

(** ** The counters of [analyzeRow] *)

Lemma countCell_kind config ws row h d e col :
  countCell config ws row (h, d, e) col =
    match cellKind config (getCellValue ws row col) with
    | EmptyCell => (h, d, S e)
    | HeaderCell => (S h, d, e)
    | DataCell => (h, S d, e)
    | OtherCell => (h, d, e)
    end.
Proof.
  unfold countCell, cellKind. destruct (getCellValue ws row col) as [v|]; [|done].
  destruct (isBlank (Some v)); [done|].
  destruct (isPotentialHeader config v); [done|]. by destruct (isPotentialData v).
Qed.

Lemma countCells_kind config ws row cols h d e :
  foldl (countCell config ws row) (h, d, e) cols =
    (h + length (filter (λ col, cellKind config (getCellValue ws row col) = HeaderCell) cols),
     d + length (filter (λ col, cellKind config (getCellValue ws row col) = DataCell) cols),
     e + length (filter (λ col, cellKind config (getCellValue ws row col) = EmptyCell) cols)).
Proof.
  revert h d e. induction cols as [|col cols IH]; intros h d e.
  { cbn. by rewrite !Nat.add_0_r. }
  cbn [foldl]. rewrite countCell_kind, !filter_cons.
  destruct (cellKind config (getCellValue ws row col)) eqn:Hkind; rewrite IH;
    repeat case_decide; try done; cbn [length Nat.add]; by rewrite ?Nat.add_succ_r.
Qed.

Lemma analyzeRow_counts config ws row :
  headerCount (analyzeRow config ws row) = length (columnsOfKind config ws row HeaderCell)
  ∧ dataCount (analyzeRow config ws row) = length (columnsOfKind config ws row DataCell)
  ∧ isHeaderRow (analyzeRow config ws row)
    = (2 <=? length (columnsOfKind config ws row HeaderCell))
  ∧ isDataRow (analyzeRow config ws row)
    = (0 <? length (columnsOfKind config ws row DataCell)).
Proof.
  unfold analyzeRow, columnsOfKind. rewrite countCells_kind. done.
Qed.

(** ** Headers *)

Lemma adjustForMergedCells_adjusted ws hs :
  adjustForMergedCells ws hs = adjusted (merges ws) <$> hs.
Proof.
  unfold adjustForMergedCells, adjusted. generalize (merges ws) as ms.
  intros ms. revert hs. induction ms as [|m ms IH]; intros hs; cbn [foldl].
  - by rewrite list_fmap_id.
  - rewrite IH, <- list_fmap_compose. done.
Qed.

Lemma adjustHeader_fields merge header :
  Header.row (adjustHeader merge header) = Header.row header
  ∧ Header.column (adjustHeader merge header) = Header.column header
  ∧ Header.value (adjustHeader merge header) = Header.value header
  ∧ Header.level (adjustHeader merge header)
    = if decide (covers merge header)
      then (Z.of_nat (merge_e_r merge) - Z.of_nat (merge_s_r merge))%Z
      else Header.level header.
Proof.
  unfold adjustHeader, covers.
  destruct (_ && _ && _) eqn:Hin.
  - cbn. split_and!; [done..|]. rewrite decide_True; [done|].
    apply andb_prop in Hin as [[H1%Nat.leb_le H2%Nat.leb_le]%andb_prop H3%Nat.eqb_eq]. lia.
  - split_and!; [done..|]. rewrite decide_False; [done|].
    intros [[H1 H2] H3]. apply not_true_iff_false in Hin. apply Hin.
    apply andb_true_intro. split; [apply andb_true_intro; split|].
    + by apply Nat.leb_le.
    + by apply Nat.leb_le.
    + by apply Nat.eqb_eq.
Qed.

Lemma adjusted_fields ms header :
  Header.row (adjusted ms header) = Header.row header
  ∧ Header.column (adjusted ms header) = Header.column header
  ∧ Header.value (adjusted ms header) = Header.value header
  ∧ Header.level (adjusted ms header)
    = match last (filter (λ merge, covers merge header) ms) with
      | Some merge => (Z.of_nat (merge_e_r merge) - Z.of_nat (merge_s_r merge))%Z
      | None => Header.level header
      end.
Proof.
  induction ms as [|m ms (Hr & Hc & Hv & Hl)] using rev_ind; [done|].
  unfold adjusted in *. rewrite foldl_snoc.
  destruct (adjustHeader_fields m (foldl (λ h merge, adjustHeader merge h) header ms))
    as (Hr' & Hc' & Hv' & Hl').
  rewrite Hr', Hc', Hv', Hl'. split_and!; [done..|].
  rewrite filter_app, filter_cons, filter_nil.
  assert (covers m (foldl (λ h merge, adjustHeader merge h) header ms) ↔ covers m header)
    as Hcov by (unfold covers; by rewrite Hr, Hc).
  destruct (decide (covers m header)) as [Hin|Hout].
  - rewrite decide_True by by apply Hcov. by rewrite last_snoc.
  - rewrite decide_False by (intros ?; by apply Hout, Hcov). by rewrite app_nil_r.
Qed.

Lemma headerAt_elem config ws row col header :
  header ∈ headerAt config ws row col
  ↔ ∃ v, cell ws row col = Some (VString v)
         ∧ trim v ≠ EmptyString
         ∧ (existsb (λ pattern : CustomPattern, pattern v) (customPatterns config) = true
            ∨ existsChar isLetter v = true)
         ∧ header = Header.mk row col (trim v) 0.
Proof.
  unfold headerAt. destruct (cell ws row col) as [[v|n|b]|];
    try (split; [by intros ?%elem_of_nil|by intros (? & ? & _)]).
  case_bool_decide as Htrim.
  - destruct (existsb _ _ || existsChar _ _) eqn:Hlike.
    + rewrite list_elem_of_singleton. split.
      * intros ->. exists v. split_and!; [done..| |done]. by apply orb_true_iff.
      * by intros (v' & [= <-] & _ & _ & ->).
    + split; [by intros ?%elem_of_nil|]. intros (v' & [= <-] & _ & Hor & _).
      apply orb_true_iff in Hor. congruence.
  - split; [by intros ?%elem_of_nil|]. by intros (v' & [= <-] & ? & _).
Qed.

Lemma headerAt_length config ws row col :
  length (headerAt config ws row col) ≤ 1
  ∧ (length (headerAt config ws row col) = 1 →
     cellKind config (getCellValue ws row col) = HeaderCell)
  ∧ (customPatterns config = [] →
     cellKind config (getCellValue ws row col) = HeaderCell →
     length (headerAt config ws row col) = 1).
Proof.
  unfold headerAt, cellKind, getCellValue.
  destruct (cell ws row col) as [[v|n|b]|]; cbn [length isBlank isPotentialHeader];
    try (split_and!; [lia|done|done]).
  split_and!.
  - repeat case_match; cbn; lia.
  - case_bool_decide as Htrim; [|done].
    destruct (existsb _ _ || existsChar _ _) eqn:Hlike; [|done]. intros _.
    destruct v as [|c v]; [done|].
    cbn [andb]. by rewrite Hlike.
  - intros ->. cbn [existsb orb]. destruct v as [|c v]; [done|].
    case_bool_decide as Htrim; cbn [andb].
    + destruct (existsChar isLetter _); [done|]. by destruct (isPotentialData _).
    + by destruct (isPotentialData _).
Qed.

(** ** Letters and white space *)

Lemma existsChar_rev_app p s acc :
  existsChar p (String.rev_app s acc) = existsChar p s || existsChar p acc.
Proof.
  revert acc. induction s as [|c s IH]; intros acc; [done|].
  cbn [String.rev_app]. rewrite IH. cbn [existsChar].
  destruct (p c), (existsChar p s); by rewrite ?orb_true_r.
Qed.

Lemma existsChar_rev p s : existsChar p (String.rev s) = existsChar p s.
Proof. unfold String.rev. rewrite existsChar_rev_app. apply orb_false_r. Qed.

Lemma isLetter_not_space c : isLetter c = true → isWhiteSpace c = false.
Proof.
  unfold isLetter, isUpper, isLower, isWhiteSpace.
  destruct c as [[] [] [] [] [] [] [] []]; vm_compute; try done; intros; discriminate.
Qed.

Lemma existsChar_trimStart s :
  existsChar isLetter (trimStart s) = existsChar isLetter s.
Proof.
  induction s as [|c s IH]; [done|]. cbn [trimStart].
  destruct (isWhiteSpace c) eqn:Hspace; [|done].
  rewrite IH. cbn [existsChar].
  destruct (isLetter c) eqn:Hletter; [|done].
  apply isLetter_not_space in Hletter. congruence.
Qed.

(** Text with a letter is not blank after trimming. *)
Lemma letter_trim s : existsChar isLetter s = true → trim s ≠ EmptyString.
Proof.
  intros Hletter Htrim.
  assert (existsChar isLetter (trim s) = true) as Habs.
  { unfold trim. by rewrite existsChar_rev, existsChar_trimStart, existsChar_rev,
      existsChar_trimStart. }
  by rewrite Htrim in Habs.
Qed.

Lemma cellKind_letter config s :
  existsChar isLetter s = true → cellKind config (Some (VString s)) = HeaderCell.
Proof.
  intros Hletter. unfold cellKind, isPotentialHeader.
  destruct s as [|c s]; [done|]. cbn [isBlank].
  rewrite bool_decide_eq_true_2 by by apply letter_trim.
  rewrite Hletter. by rewrite orb_true_r.
Qed.

Lemma getHeaders_columns config ws row :
  Header.column <$> getHeaders config ws row
  = filter (λ col, headerAt config ws row col ≠ []) (columns ws).
Proof.
  unfold getHeaders. rewrite adjustForMergedCells_adjusted.
  induction (columns ws) as [|col cols IH]; [done|].
  cbn [mbind list_bind]. rewrite !fmap_app, IH, filter_cons.
  destruct (headerAt config ws row col) as [|header rest] eqn:Hat.
  - by rewrite decide_False by (by intros ?).
  - rewrite decide_True by done.
    assert (header ∈ headerAt config ws row col) as Hin by (rewrite Hat; by left).
    apply headerAt_elem in Hin as (v & _ & _ & _ & ->).
    pose proof (headerAt_length config ws row col) as [Hlen _].
    rewrite Hat in Hlen. destruct rest; [|cbn in Hlen; lia].
    cbn. by destruct (adjusted_fields (merges ws) (Header.mk row col (trim v) 0))
      as (_ & -> & _).
Qed.

Lemma getHeaders_length config ws row :
  length (getHeaders config ws row) ≤ headerCount (analyzeRow config ws row)
  ∧ (customPatterns config = [] →
     length (getHeaders config ws row) = headerCount (analyzeRow config ws row)).
Proof.
  destruct (analyzeRow_counts config ws row) as (-> & _).
  unfold getHeaders, columnsOfKind. rewrite adjustForMergedCells_adjusted, length_fmap.
  induction (columns ws) as [|col cols [IH1 IH2]]; [done|].
  cbn [mbind list_bind]. rewrite length_app, filter_cons.
  destruct (headerAt_length config ws row col) as (Hle & Hhead & Hback).
  split.
  - destruct (decide (length (headerAt config ws row col) = 1)) as [H1|H1].
    + rewrite decide_True by by apply Hhead. cbn [length]. lia.
    + case_decide; cbn [length]; lia.
  - intros Hnone. specialize (IH2 Hnone). case_decide as Hkind.
    + rewrite (Hback Hnone Hkind). cbn [length]. lia.
    + destruct (decide (length (headerAt config ws row col) = 1)) as [H1|H1].
      * by apply Hhead in H1.
      * lia.
Qed.

Lemma isDataRow_iff config ws row :
  isDataRow (analyzeRow config ws row) = true
  ↔ ∃ col, col ≤ range_e_c ws
           ∧ cellKind config (getCellValue ws row col) = DataCell.
Proof.
  destruct (analyzeRow_counts config ws row) as (_ & _ & _ & ->).
  rewrite Nat.ltb_lt. unfold columnsOfKind, columns. split.
  - intros Hlen. destruct (filter _ _) as [|col rest] eqn:Hf; [cbn in Hlen; lia|].
    assert (col ∈ filter (λ col, cellKind config (getCellValue ws row col) = DataCell)
              (seq 0 (S (range_e_c ws)))) as Hin by (rewrite Hf; by left).
    apply list_elem_of_filter in Hin as [Hkind Hcol%elem_of_seq].
    exists col. split; [lia|done].
  - intros (col & Hcol & Hkind).
    assert (col ∈ filter (λ col, cellKind config (getCellValue ws row col) = DataCell)
              (seq 0 (S (range_e_c ws)))) as Hin.
    { apply list_elem_of_filter. split; [done|]. apply elem_of_seq. lia. }
    destruct (filter _ _); [by apply elem_of_nil in Hin|cbn; lia].
Qed.

(** How [analyzeRow] counts, where it returns.  Each cell of the row
    steps at most one counter: a missing cell or the empty string is
    empty; any other text is header-like when a custom pattern matches it
    or it holds a letter, data when neither is so and it is not blank
    after trimming, and steps no counter when it is white space only and
    no pattern matches it; numbers and booleans are data.  A row is a data
    row when one of its cells is data, a header row when two are
    header-like, and empty when all are empty. *)
Theorem analyzeRow_counts_each_cell_once
    (config : ExcelConfig) (ws : Worksheet) (row : nat) :
  headerCount (analyzeRow config ws row) = length (columnsOfKind config ws row HeaderCell)
  ∧ dataCount (analyzeRow config ws row) = length (columnsOfKind config ws row DataCell)
  ∧ headerCount (analyzeRow config ws row) + dataCount (analyzeRow config ws row)
    ≤ range_e_c ws + 1
  ∧ (isHeaderRow (analyzeRow config ws row) = true
     ↔ 2 ≤ length (columnsOfKind config ws row HeaderCell))
  ∧ (isDataRow (analyzeRow config ws row) = true
     ↔ ∃ col, col ≤ range_e_c ws
              ∧ cellKind config (getCellValue ws row col) = DataCell)
  ∧ (isEmpty (analyzeRow config ws row) = true
     ↔ ∀ col, col ≤ range_e_c ws →
         cellKind config (getCellValue ws row col) = EmptyCell)
  ∧ (∀ s, existsChar isLetter s = true →
       cellKind config (Some (VString s)) = HeaderCell)
  ∧ (∀ n, cellKind config (Some (VNumber n)) = DataCell)
  ∧ (∀ b, cellKind config (Some (VBoolean b)) = DataCell)
  ∧ (∀ value, cellKind config value = EmptyCell
       ↔ value = None ∨ value = Some (VString ""))
  ∧ (∀ s, cellKind config (Some (VString s)) = HeaderCell
       ↔ s ≠ EmptyString
         ∧ (existsb (λ pattern : CustomPattern, pattern s) (customPatterns config)
            = true
            ∨ existsChar isLetter s = true))
  ∧ (∀ s, cellKind config (Some (VString s)) = DataCell
       ↔ trim s ≠ EmptyString
         ∧ existsb (λ pattern : CustomPattern, pattern s) (customPatterns config)
           = false
         ∧ existsChar isLetter s = false)
  ∧ (∀ s, cellKind config (Some (VString s)) = OtherCell
       ↔ s ≠ EmptyString ∧ trim s = EmptyString
         ∧ existsb (λ pattern : CustomPattern, pattern s) (customPatterns config)
           = false).
Proof.
  destruct (analyzeRow_counts config ws row) as (Hh & Hd & Hhr & Hdr).
  assert (∀ s, s ≠ EmptyString →
            cellKind config (Some (VString s))
            = if existsb (λ pattern : CustomPattern, pattern s) (customPatterns config)
                 || existsChar isLetter s
              then HeaderCell
              else if bool_decide (trim s ≠ EmptyString) then DataCell
              else OtherCell) as Hkind.
  { intros s Hs. unfold cellKind, isPotentialHeader, isPotentialData.
    destruct s as [|c s]; [done|]. cbn [isBlank].
    pose proof (letter_trim (String c s)) as Hletter.
    destruct (existsb _ _); [done|]. cbn [orb].
    destruct (existsChar isLetter (String c s)).
    - by rewrite bool_decide_eq_true_2 by by apply Hletter.
    - by rewrite andb_false_r. }
  split_and!; [done|done| | | | |by apply cellKind_letter|done|done| | | |].
  - pose proof (countCells_bound config ws row (columns ws) 0 0 0) as Hb.
    unfold analyzeRow.
    destruct (foldl (countCell config ws row) (0, 0, 0) (columns ws)) as [[h d] e].
    cbn [headerCount dataCount]. rewrite length_columns in Hb. lia.
  - rewrite Hhr. apply Nat.leb_le.
  - apply isDataRow_iff.
  - rewrite isEmpty_rowIsEmpty. unfold rowIsEmpty, columns.
    rewrite forallb_forall. split.
    + intros Hall col Hcol.
      specialize (Hall col). rewrite <- list_elem_of_In, elem_of_seq in Hall.
      specialize (Hall ltac:(lia)). unfold cellKind.
      destruct (getCellValue ws row col) as [v|]; [|done]. by rewrite Hall.
    + intros Hall col Hcol%list_elem_of_In%elem_of_seq.
      specialize (Hall col ltac:(lia)). unfold cellKind in Hall.
      destruct (getCellValue ws row col) as [v|]; [|done].
      destruct (isBlank (Some v)); [done|]. by repeat case_match.
  - intros value. unfold cellKind. destruct value as [[[|c s]|n|b]|]; cbn [isBlank].
    + naive_solver.
    + split; [by repeat case_match|]. naive_solver.
    + split; [by repeat case_match|]. naive_solver.
    + split; [by repeat case_match|]. naive_solver.
    + naive_solver.
  - intros s. destruct (decide (s = EmptyString)) as [->|Hs]; [naive_solver|].
    rewrite Hkind by done.
    destruct (existsb _ _), (existsChar isLetter s); cbn [orb];
      try case_bool_decide; naive_solver.
  - intros s. destruct (decide (s = EmptyString)) as [->|Hs].
    { split; [done|]. by intros [? _]. }
    rewrite Hkind by done. pose proof (letter_trim s) as Hletter.
    destruct (existsb _ _), (existsChar isLetter s); cbn [orb];
      try case_bool_decide; naive_solver.
  - intros s. destruct (decide (s = EmptyString)) as [->|Hs]; [naive_solver|].
    rewrite Hkind by done. pose proof (letter_trim s) as Hletter.
    destruct (existsb _ _), (existsChar isLetter s); cbn [orb];
      try case_bool_decide; naive_solver.
Qed.

(** While a table is open, a row that is not empty and whose cells are
    all blank or text with a letter is no data row: it moves [endRow] to
    the row and adds nothing to [dataRows]. *)
Theorem rows_of_words_add_no_data_row
    (config : ExcelConfig) (ws : Worksheet) (st : ScanState) (table : Table)
    (row : nat) :
  currentTable st = Some table →
  (∀ col, col ≤ range_e_c ws →
     isBlank (getCellValue ws row col) = true
     ∨ ∃ s, getCellValue ws row col = Some (VString s)
            ∧ existsChar isLetter s = true) →
  isEmpty (analyzeRow config ws row) = false →
  isDataRow (analyzeRow config ws row) = false
  ∧ scanRow config ws st row
    = {| tables := tables st;
         currentTable := Some (set_endRow (Z.of_nat row) table);
         tableId := tableId st |}.
Proof.
  intros Hopen Hwords Hempty.
  assert (isDataRow (analyzeRow config ws row) = false) as Hdata.
  { apply not_true_iff_false.
    rewrite isDataRow_iff.
    intros (col & Hcol & Hkind).
    destruct (Hwords col Hcol) as [Hblank|(s & Hcell & Hletter)].
    - unfold cellKind in Hkind. destruct (getCellValue ws row col); [|done].
      by rewrite Hblank in Hkind.
    - rewrite Hcell, cellKind_letter in Hkind by done. done. }
  split; [done|]. unfold scanRow. cbv zeta.
  rewrite Hopen, Hempty, Hdata. rewrite bool_decide_eq_false_2 by done.
  by rewrite andb_false_r.
Qed.
Lemma rows_of_words_witness :
  isDataRow (analyzeRow defaultConfig wordsSheet 1) = false
  ∧ scanRow defaultConfig wordsSheet (scanRows defaultConfig wordsSheet scanInit [0]) 1
    = {| tables := [];
         currentTable :=
           Some (set_endRow 1 (initializeTable defaultConfig wordsSheet 0 0));
         tableId := 1 |}.
Proof.
  apply (rows_of_words_add_no_data_row defaultConfig wordsSheet
           (scanRows defaultConfig wordsSheet scanInit [0])
           (initializeTable defaultConfig wordsSheet 0 0) 1).
  - vm_compute. reflexivity.
  - intros col Hcol. change (range_e_c wordsSheet) with 1 in Hcol. right.
    assert (col = 0 ∨ col = 1) as [-> | ->] by lia.
    + exists "Widget". split; vm_compute; reflexivity.
    + exists "Gadget". split; vm_compute; reflexivity.
  - vm_compute. reflexivity.
Defined.

(** The headers [getHeaders] returns for a row, where it returns: one for
    each cell of the range, in column order, whose text is not blank
    after trimming and holds a letter or matches a custom pattern.  The
    header carries the
    row, the column and the trimmed text; its level is 0 unless a merge
    rectangle starts in the row and spans the column, and then the height
    of the last such rectangle of the list. *)
Theorem getHeaders_lists_header_cells_in_column_order
    (config : ExcelConfig) (ws : Worksheet) (row : nat) :
  (∀ header,
     header ∈ getHeaders config ws row
     ↔ ∃ col v,
         col ≤ range_e_c ws
         ∧ cell ws row col = Some (VString v)
         ∧ trim v ≠ EmptyString
         ∧ (existsb (λ pattern : CustomPattern, pattern v) (customPatterns config) = true
            ∨ existsChar isLetter v = true)
         ∧ Header.row header = row ∧ Header.column header = col
         ∧ Header.value header = trim v
         ∧ Header.level header
           = match last (filter (λ merge, covers merge (Header.mk row col (trim v) 0))
                           (merges ws)) with
             | Some merge => (Z.of_nat (merge_e_r merge) - Z.of_nat (merge_s_r merge))%Z
             | None => 0%Z
             end)
  ∧ StronglySorted lt (Header.column <$> getHeaders config ws row).
Proof.
  split.
  - intros header. unfold getHeaders. rewrite adjustForMergedCells_adjusted.
    rewrite list_elem_of_fmap. split.
    + intros (h0 & -> & Hin). apply list_elem_of_bind in Hin as (col & Hat & Hcol).
      apply elem_of_seq in Hcol. apply headerAt_elem in Hat as (v & Hcell & Htrim & Hlike & ->).
      destruct (adjusted_fields (merges ws) (Header.mk row col (trim v) 0))
        as (Hr & Hc & Hv & Hl).
      exists col, v. split_and!; [lia|done..].
    + intros (col & v & Hcol & Hcell & Htrim & Hlike & Hr & Hc & Hv & Hl).
      exists (Header.mk row col (trim v) 0). split.
      * destruct (adjusted_fields (merges ws) (Header.mk row col (trim v) 0))
          as (Hr' & Hc' & Hv' & Hl').
        destruct header as [r c t l], (adjusted (merges ws) _) as [r' c' t' l'].
        cbn in *. congruence.
      * apply list_elem_of_bind. exists col. split.
        -- apply headerAt_elem. by exists v.
        -- apply elem_of_seq. lia.
  - rewrite getHeaders_columns. apply StronglySorted_filter_seq.
Qed.

(** [getHeaders] finds at most as many headers in a row as [analyzeRow]
    counts header-like cells there, and as many when there are no custom
    patterns; so without custom patterns every table of [findBasicTables]
    has at least two headers. *)
Theorem scanned_tables_have_two_headers
    (config : ExcelConfig) (ws : Worksheet) :
  (∀ row, length (getHeaders config ws row) ≤ headerCount (analyzeRow config ws row))
  ∧ (customPatterns config = [] →
     (∀ row, length (getHeaders config ws row) = headerCount (analyzeRow config ws row))
     ∧ ∀ k t, scanTables config ws !! k = Some t → 2 ≤ length (headers t)).
Proof.
  split.
  - intros row. apply getHeaders_length.
  - intros Hnone. split.
    + intros row. by apply getHeaders_length.
    + intros k t Hk.
      destruct (scanTables_finalized config ws k t Hk)
        as [(_ & _ & _ & s & last & Hscanned & _) _].
      destruct Hscanned as (_ & Hhead & -> & _).
      rewrite (proj2 (getHeaders_length config ws s) Hnone).
      revert Hhead. unfold analyzeRow.
      destruct (foldl (countCell config ws s) (0, 0, 0) (columns ws)) as [[h d] e].
      cbn [isHeaderRow headerCount]. by intros ?%Nat.leb_le.
Qed.

Lemma scanned_tables_have_two_headers_witness :
  (∀ row, length (getHeaders defaultConfig widgetSheet row)
          = headerCount (analyzeRow defaultConfig widgetSheet row))
  ∧ ∀ k t, scanTables defaultConfig widgetSheet !! k = Some t → 2 ≤ length (headers t).
Proof.
  apply (proj2 (scanned_tables_have_two_headers defaultConfig widgetSheet)).
  reflexivity.
Defined.

(** ** The run of empty rows after a row *)

Lemma countLeadingEmpty_spec ws start len :
  let n := countLeadingEmpty ws (seq start len) in
  n ≤ len
  ∧ (∀ r, start ≤ r < start + n → rowIsEmpty ws r = true)
  ∧ (n < len → rowIsEmpty ws (start + n) = false).
Proof.
  revert start. induction len as [|len IH]; intros start; cbn [seq countLeadingEmpty].
  - split_and!; [lia| |]; intros; lia.
  - destruct (rowIsEmpty ws start) eqn:Hstart.
    + destruct (IH (S start)) as (Hle & Hrun & Hstop). cbv zeta. split_and!.
      * lia.
      * intros r Hr. destruct (decide (r = start)) as [->|]; [done|].
        apply Hrun. lia.
      * intros Hlt. replace (start + S (countLeadingEmpty ws (seq (S start) len)))
          with (S start + countLeadingEmpty ws (seq (S start) len)) by lia.
        apply Hstop. lia.
    + cbv zeta. split_and!; [lia| |].
      * intros r Hr. lia.
      * intros _. by rewrite Nat.add_0_r.
Qed.

(** [countConsecutiveEmptyRows] counts the empty rows that follow the
    given row, up to the first row that is not empty or the end of the
    range; the row itself is not looked at, and at the last row of the
    range the count is 0. *)
Theorem countConsecutiveEmptyRows_counts_the_rows_after
    (ws : Worksheet) (currentRow : nat) :
  let n := countConsecutiveEmptyRows ws currentRow in
  n ≤ range_e_r ws - currentRow
  ∧ (∀ r, currentRow < r ≤ currentRow + n → rowIsEmpty ws r = true)
  ∧ (currentRow + n < range_e_r ws → rowIsEmpty ws (currentRow + n + 1) = false)
  ∧ (range_e_r ws ≤ currentRow → n = 0).
Proof.
  unfold countConsecutiveEmptyRows.
  destruct (countLeadingEmpty_spec ws (currentRow + 1) (range_e_r ws - currentRow))
    as (Hle & Hrun & Hstop).
  cbv zeta in *. split_and!.
  - done.
  - intros r Hr. apply Hrun. lia.
  - intros Hlt.
    replace (currentRow + countLeadingEmpty ws
               (seq (currentRow + 1) (range_e_r ws - currentRow)) + 1)
      with (currentRow + 1 + countLeadingEmpty ws
               (seq (currentRow + 1) (range_e_r ws - currentRow))) by lia.
    apply Hstop. lia.
  - intros Hlast. lia.
Qed.

(** ** The groups are a partition *)

Lemma startGroup_inv config runtime s tables k acc :
  k < length tables →
  GroupInv config runtime s tables k acc →
  GroupInv config runtime s tables (S k) (startGroup config runtime s tables acc k).
Proof.
  intros Hk (pss & Hgroups & Hnd & Hused & Hrange & Hbefore & Hshape & Hfirst).
  destruct acc as [groups used]. cbn [fst snd] in *.
  destruct (decide (k ∈ used)) as [Hu|Hu].
  - rewrite startGroup_used by done. exists pss. cbn [fst snd].
    split_and!; [done..| | |].
    + intros x Hx Hlen. destruct (decide (x = k)) as [->|]; [done|]. apply Hbefore; lia.
    + done.
    + destruct k as [|k]; [|done].
      subst pss. apply Hused in Hu. by apply elem_of_nil in Hu.
  - destruct (lookup_lt_is_Some_2 tables k Hk) as [rk Hrk].
    rewrite (startGroup_spec config runtime s tables groups used k rk) by done.
    set (js := joined config runtime s tables used k
                 (seq (k + 1) (length tables - (k + 1)))).
    assert (∀ j, j ∈ js ↔ k < j < length tables ∧ j ∉ used
                          ∧ relatedAt config runtime s tables k j = true) as Hjs.
    { intros j. apply elem_of_joined. }
    assert (NoDup js) as Hndjs.
    { unfold js, joined. apply NoDup_filter, NoDup_seq. }
    exists (pss ++ [k :: js]). cbn [fst snd]. split_and!.
    + rewrite fmap_app, Hgroups. cbn [fmap list_fmap omap list_omap]. by rewrite Hrk.
    + rewrite concat_app. cbn [concat]. rewrite app_nil_r.
      apply NoDup_app. split_and!; [done| |].
      * intros x Hx%Hused [->|Hin%Hjs]%elem_of_cons; [done|]. by destruct Hin as (_ & ? & _).
      * apply NoDup_cons. split; [|done]. intros Hin%Hjs. lia.
    + intros x. rewrite concat_app. cbn [concat]. rewrite app_nil_r.
      rewrite elem_of_app, elem_of_cons, <- Hused, !elem_of_union,
        elem_of_list_to_set, elem_of_singleton. tauto.
    + intros x. rewrite !elem_of_union, elem_of_list_to_set, elem_of_singleton.
      intros [Hin%Hjs|[->|Hx]]; [lia|done|by apply Hrange].
    + intros x Hx Hlen. rewrite !elem_of_union, elem_of_singleton.
      destruct (decide (x = k)) as [->|]; [by right; left|].
      right. right. apply Hbefore; lia.
    + apply Forall_app. split; [done|]. apply Forall_singleton.
      exists k, js. split; [done|]. intros j Hj%Hjs. split; [lia|]. by destruct Hj as (_ & _ & ?).
    + destruct k as [|k].
      * subst pss. by eexists _, _.
      * destruct Hfirst as (js0 & rest & ->). by eexists _, _.
Qed.

Lemma groupRelatedTables_inv config runtime s tables :
  GroupInv config runtime s tables (length tables)
    (foldl (startGroup config runtime s tables) ([], ∅) (seq 0 (length tables))).
Proof.
  assert (∀ n k acc, k + n ≤ length tables →
            GroupInv config runtime s tables k acc →
            GroupInv config runtime s tables (k + n)
              (foldl (startGroup config runtime s tables) acc (seq k n))) as Hloop.
  { induction n as [|n IH]; intros k acc Hle Hacc; cbn [seq foldl].
    - by rewrite Nat.add_0_r.
    - replace (k + S n) with (S k + n) by lia. apply IH; [lia|].
      apply startGroup_inv; [lia|done]. }
  apply (Hloop (length tables) 0); [lia|].
  exists []. cbn. split_and!; [done|constructor|set_solver|set_solver|lia|done|done].
Qed.

Lemma omap_concat {A B} (f : A → option B) (ls : list (list A)) :
  omap f (concat ls) = concat ((λ l : list A, omap f l) <$> ls).
Proof.
  induction ls as [|l ls IH]; [done|]. cbn. by rewrite omap_app, IH.
Qed.

Lemma omap_lookup_seq {A} (l : list A) :
  omap (λ j, l !! j) (seq 0 (length l)) = l.
Proof.
  induction l as [|x l IH] using rev_ind; [done|].
  rewrite length_app. cbn [length]. rewrite Nat.add_1_r, seq_S, omap_app.
  cbn [omap list_omap]. rewrite list_lookup_middle by done. cbn.
  rewrite <- IH at 2. f_equal.
  apply omap_ext_elem_of. intros j Hj%elem_of_seq. by rewrite lookup_app_l by lia.
Qed.

(** [groupRelatedTables] loses no table and repeats none: the groups, one
    after the other, are a rearrangement of the input list.  No group is
    empty, and every table of a group after the first is related to the
    first by [areTablesRelated]. *)
Theorem groupRelatedTables_partitions_the_tables
    (config : ExcelConfig) (runtime : Runtime) (s : list Table)
    (tables : list TableRef) :
  (∀ r, r ∈ tables → is_Some (s !! r)) →
  concat (groupRelatedTables config runtime s tables) ≡ₚ tables
  ∧ length (groupRelatedTables config runtime s tables) ≤ length tables
  ∧ ∀ group, group ∈ groupRelatedTables config runtime s tables →
      ∃ first rest,
        group = first :: rest
        ∧ ∀ r, r ∈ rest →
            ∃ T U, s !! first = Some T ∧ s !! r = Some U
                   ∧ areTablesRelated config runtime T U = true.
Proof.
  intros Hrefs.
  destruct (groupRelatedTables_inv config runtime s tables)
    as (pss & Hgroups & Hnd & Hused & Hrange & Hbefore & Hshape & _).
  unfold groupRelatedTables. cbn [fst snd] in *. rewrite Hgroups.
  assert (concat pss ≡ₚ seq 0 (length tables)) as Hperm.
  { apply NoDup_Permutation; [done|apply NoDup_seq|].
    intros x. rewrite <- Hused, elem_of_seq. split.
    - intros Hx%Hrange. lia.
    - intros Hx. apply Hbefore; lia. }
  split_and!.
  - rewrite <- omap_concat, Hperm. by rewrite omap_lookup_seq.
  - rewrite length_fmap.
    assert (length pss ≤ length (concat pss)) as Hle.
    { clear -Hshape. induction Hshape as [|ps pss (i & js & -> & _) _ IH]; [done|].
      cbn. rewrite length_app. lia. }
    rewrite Hperm, length_seq in Hle. done.
  - intros group (ps & -> & Hps)%list_elem_of_fmap.
    rewrite Forall_forall in Hshape.
    destruct (Hshape ps Hps) as (i & js & -> & Hjs).
    assert (i < length tables) as Hi.
    { apply Hrange, Hused, list_elem_of_In, in_concat. exists (i :: js).
      split; [by apply list_elem_of_In|by left]. }
    destruct (lookup_lt_is_Some_2 tables i Hi) as [ri Hri].
    cbn [omap list_omap]. rewrite Hri. eexists _, _. split; [done|].
    intros r (j & Hj & Hr)%list_elem_of_omap.
    destruct (Hjs j Hj) as [_ Hrel]. unfold relatedAt, tableAt in Hrel.
    rewrite Hri, Hr in Hrel. cbn in Hrel.
    destruct (s !! ri) as [T|]; [|done]. destruct (s !! r) as [U|]; [|done].
    by exists T, U.
Qed.

Lemma groupRelatedTables_partitions_witness :
  concat (groupRelatedTables defaultConfig sampleRuntime nearTables [0; 1]) ≡ₚ [0; 1]
  ∧ length (groupRelatedTables defaultConfig sampleRuntime nearTables [0; 1]) ≤ 2
  ∧ ∀ group, group ∈ groupRelatedTables defaultConfig sampleRuntime nearTables [0; 1] →
      ∃ first rest,
        group = first :: rest
        ∧ ∀ r, r ∈ rest →
            ∃ T U, nearTables !! first = Some T ∧ nearTables !! r = Some U
                   ∧ areTablesRelated defaultConfig sampleRuntime T U = true.
Proof.
  apply (groupRelatedTables_partitions_the_tables defaultConfig sampleRuntime
           nearTables [0; 1]).
  intros r [->|[->|Hr%elem_of_nil]%elem_of_cons]%elem_of_cons; [by eexists..|done].
Defined.

(** ** Sheets without a header row *)

Lemma scanRow_built_nil config ws st row :
  built (scanRow config ws st row) = []
  ↔ built st = [] ∧ isHeaderRow (analyzeRow config ws row) = false.
Proof.
  unfold scanRow, built, option_list. cbv zeta.
  assert (∀ (l : list Table) x, l ++ [x] ≠ []) as Hne by (by intros [|??] ?).
  destruct (currentTable st) as [table|] eqn:Hc; cbn [option_rect].
  - rewrite bool_decide_eq_false_2 by done. rewrite andb_false_r.
    repeat case_match; cbn [tables currentTable option_rect]; rewrite ?Hc;
      cbn [option_rect]; rewrite ?app_nil_r; split; try (by intros ?%Hne);
      by intros [?%Hne _].
  - rewrite bool_decide_eq_true_2 by done. rewrite andb_true_r, app_nil_r.
    destruct (isHeaderRow _); cbn [tables currentTable option_rect].
    + split; [by intros ?%Hne|by intros [_ ?]].
    + rewrite Hc. cbn. rewrite app_nil_r. naive_solver.
Qed.

Lemma scanRows_built_nil config ws st rs :
  built (scanRows config ws st rs) = []
  ↔ built st = [] ∧ ∀ row, row ∈ rs → isHeaderRow (analyzeRow config ws row) = false.
Proof.
  revert st. induction rs as [|r rs IH]; intros st.
  - cbn. split; [|by intros [? _]]. intros ?. split; [done|]. by intros ? ?%elem_of_nil.
  - unfold scanRows. cbn [foldl]. fold (scanRows config ws (scanRow config ws st r) rs).
    rewrite IH, scanRow_built_nil. split.
    + intros [[Hst Hr] Hrs]. split; [done|].
      intros row [->|Hrow]%elem_of_cons; [done|by apply Hrs].
    + intros [Hst Hall]. split_and!; [done| |].
      * apply Hall. by left.
      * intros row Hrow. apply Hall. by right.
Qed.

(** The scan finds no table exactly when no row of the range is a header
    row. *)
Lemma scanTables_nil config ws :
  scanTables config ws = []
  ↔ ∀ row, row ≤ range_e_r ws → isHeaderRow (analyzeRow config ws row) = false.
Proof.
  assert (scanTables config ws = [] ↔ built (scanRows config ws scanInit (rows ws)) = [])
    as ->.
  { unfold scanTables, closeScan, built, option_list.
    destruct (currentTable _); cbn [option_rect]; [|by rewrite app_nil_r].
    split; intros Hnil; by apply app_eq_nil in Hnil as [_ ?]. }
  rewrite scanRows_built_nil. unfold rows. split.
  - intros [_ Hall] row Hrow. apply Hall, elem_of_seq. lia.
  - intros Hall. split; [done|]. intros row Hrow%elem_of_seq. apply Hall. lia.
Qed.

(** ** The pipeline on scanned tables *)

(** On tables that lie apart the hierarchy pass returns all of them. *)
Lemma hierarchyLoop_apart T :
  apart T → hierarchicalTables (hierarchyLoop T (seq 0 (length T))) = seq 0 (length T).
Proof.
  intros Hapart. apply StronglySorted_lt_seq.
  - by destruct (hierarchyLoop_spec T) as (_ & ? & _).
  - intros x. rewrite resolvedStore_top. split; [by intros [? _]|].
    intros Hx. split; [done|]. by apply resolvedStore_apart.
Qed.

(** The first merged table is the first table of the input. *)
Lemma mergeRelated_head config runtime s tables :
  head (mergeRelated config runtime s tables).2 = head tables.
Proof.
  destruct (groupRelatedTables_inv config runtime s tables)
    as (pss & Hgroups & _ & _ & _ & _ & _ & Hfirst).
  unfold mergeRelated, groupRelatedTables in *. cbn [fst snd] in *. rewrite Hgroups.
  destruct tables as [|r0 tables]; cbn [length] in Hfirst.
  - by subst pss.
  - destruct Hfirst as (js & rest & ->). done.
Qed.

Lemma mergeRelated_nil config runtime s tables :
  (mergeRelated config runtime s tables).2 = [] ↔ tables = [].
Proof.
  pose proof (mergeRelated_head config runtime s tables) as Hhead.
  destruct tables as [|r0 tables], (mergeRelated config runtime s _).2 as [|m merged];
    naive_solver.
Qed.

Lemma length_omap_le {A B} (f : A → option B) (l : list A) :
  length (omap f l) ≤ length l.
Proof.
  induction l as [|x l IH]; [done|]. cbn. destruct (f x); cbn; lia.
Qed.

Lemma mergeRelated_length config runtime s tables :
  length (mergeRelated config runtime s tables).2 ≤ length tables.
Proof.
  unfold mergeRelated. cbn [snd]. etrans; [apply length_omap_le|].
  destruct (groupRelatedTables_inv config runtime s tables)
    as (pss & Hgroups & Hnd & Hused & Hrange & Hbefore & Hshape & _).
  unfold groupRelatedTables. cbn [fst snd] in *. rewrite Hgroups, length_fmap.
  assert (length pss ≤ length (concat pss)) as Hle.
  { clear -Hshape. induction Hshape as [|ps pss (i & js & -> & _) _ IH]; [done|].
    cbn. rewrite length_app. lia. }
  etrans; [done|]. clear Hle.
  assert (concat pss ⊆+ seq 0 (length tables)) as Hsub.
  { apply NoDup_submseteq; [done|]. intros x Hx%Hused%Hrange. apply elem_of_seq. lia. }
  apply submseteq_length in Hsub. by rewrite length_seq in Hsub.
Qed.

(** What [findTableStructures] returns and leaves, on every sheet. *)
Lemma findTableStructures_scanned config runtime this :
  scanTables_throws config (worksheet this) = None →
  let T := scanTables config (worksheet this) in
  let merged := mergeRelated config runtime (resolvedStore T (seq 0 (length T)))
                  (seq 0 (length T)) in
  findTableStructures config runtime this =
    (Normal merged.2,
     set_tablesProcessed (length merged.2)
       (set_tableStructures (omap (λ r, merged.1 !! r) merged.2)
          (set_heap merged.1 this))).
Proof.
  intros Hscan T merged. rewrite findTableStructures_eq by done. cbv zeta. fold T.
  rewrite (hierarchyLoop_apart T (scanTables_apart config (worksheet this))).
  done.
Qed.
(** ** Data groups, without throwErrors *)

Lemma findRelatedDataGroups_lenient config runtime this :
  throwErrors config = false →
  (findRelatedDataGroups config runtime this).1 = Normal [].
Proof.
  intros Hlenient. unfold findRelatedDataGroups, mbind, Method_bind, bind.
  destruct (scanTables_throws config (worksheet this)) as [error|] eqn:Hscan.
  { rewrite (findTableStructures_throws_eq config runtime this error Hscan).
    by rewrite Hlenient. }
  rewrite findTableStructures_scanned by done. cbv zeta. unfold tryCatch.
  match goal with |- context [findRelatedDataGroups_try runtime ?l ?t] =>
    destruct (findRelatedDataGroups_try_cases runtime l t) as [-> | ->] end.
  - done.
  - unfold handleError. by rewrite Hlenient.
Qed.

(** ** One block *)

Lemma mergeRelated_single config runtime x :
  mergeRelated config runtime [x] [0] = ([processTableData x], [0]).
Proof.
  unfold mergeRelated, groupRelatedTables. cbn [length seq foldl].
  rewrite (startGroup_spec config runtime [x] [0] [] ∅ 0 0) by (done || set_solver).
  reflexivity.
Qed.

Lemma resolvedStore_single table :
  ∃ x, resolvedStore [table] (seq 0 1) = [x]
       ∧ id x = id table ∧ dataRows x = dataRows table ∧ headers x = headers table.
Proof.
  pose proof (resolvedStore_length [table]) as Hlen.
  pose proof (resolvedStore_sameLinks [table] (seq 0 (length [table]))) as Hsame.
  destruct (hierarchyLoop_spec [table]) as (Hframe & _).
  cbn [length] in *.
  destruct (resolvedStore [table] (seq 0 1)) as [|x [|??]]; try done.
  exists x. split; [done|].
  destruct (store (hierarchyLoop [table] (seq 0 1))) as [|y [|??]];
    try (by apply Forall2_length in Hframe).
  apply Forall2_cons in Hframe as [(Hid & _ & _ & Hh & Hd & _) _].
  apply Forall2_cons in Hsame as [Hxy%sameLinks_fields _].
  destruct Hxy as (Hid' & _ & _ & _ & _ & _ & Hh' & Hd' & _).
  split_and!; congruence.
Qed.

(** The scan throws at the first cell, row by row and column by column,
    that holds a text other than the empty string at which the loop over
    the custom patterns gets to a pattern that is no regular expression
    before one that matches; it throws the [SyntaxError] of that pattern.
    It throws nowhere when every custom pattern is a regular
    expression. *)
Theorem findBasicTables_throws_at_the_first_invalid_pattern
    (config : ExcelConfig) (ws : Worksheet) :
  (∀ error,
     scanTables_throws config ws = Some error
     ↔ ∃ row col,
         row ≤ range_e_r ws ∧ col ≤ range_e_c ws
         ∧ throwsAt config ws row col = Some error
         ∧ (∀ row' col', row' < row → col' ≤ range_e_c ws →
              throwsAt config ws row' col' = None)
         ∧ (∀ col', col' < col → throwsAt config ws row col' = None))
  ∧ (∀ row col error,
       throwsAt config ws row col = Some error
       ↔ ∃ s, cell ws row col = Some (VString s) ∧ s ≠ EmptyString
              ∧ patternError (customPatterns config) s = Some error)
  ∧ (∀ patterns s error,
       patternError patterns s = Some error
       ↔ ∃ before after,
           patterns = before ++ Invalid error :: after
           ∧ ∀ pattern, pattern ∈ before →
               ∃ test, pattern = RegExp test ∧ test s = false)
  ∧ (validPatterns config → scanTables_throws config ws = None).
Proof.
  split_and!.
  - intros error. rewrite scanTables_throws_eq. unfold rows.
    rewrite firstSome_seq. split.
    + intros (row & Hrow & Hthrows & Hbefore).
      unfold analyzeRow_throws, columns in Hthrows.
      apply firstSome_seq in Hthrows as (col & Hcol & Hcell & Hleft).
      exists row, col. split_and!; [lia|lia|done| |].
      * intros row' col' Hrow' Hcol'.
        specialize (Hbefore row' ltac:(lia)). unfold analyzeRow_throws, columns in Hbefore.
        rewrite firstSome_seq_None in Hbefore. apply Hbefore. lia.
      * intros col' Hcol'. apply Hleft. lia.
    + intros (row & col & Hrow & Hcol & Hcell & Hbefore & Hleft).
      exists row. split; [lia|split].
      * unfold analyzeRow_throws, columns. apply firstSome_seq.
        exists col. split; [lia|split; [done|]]. intros col' Hcol'. apply Hleft. lia.
      * intros row' Hrow'. unfold analyzeRow_throws, columns.
        apply firstSome_seq_None. intros col' Hcol'. apply Hbefore; lia.
  - intros row col error. unfold throwsAt, getCellValue.
    destruct (cell ws row col) as [[s|n|b]|]; try (split; [done|by intros (? & ? & _)]).
    destruct s as [|c s].
    + split; [done|]. by intros (? & [= <-] & ? & _).
    + cbn. split; [by eauto|]. by intros (? & [= <-] & _ & ?).
  - intros patterns s error. induction patterns as [|pattern patterns IH]; cbn.
    { split; [done|]. intros (before & after & Heq & _). by destruct before. }
    destruct pattern as [test|syntaxError].
    + destruct (test s) eqn:Htest.
      * split; [done|]. intros ([|first before] & after & Heq & Hall); [done|].
        injection Heq as <- ->.
        destruct (Hall (RegExp test)) as (test' & [= <-] & Hfalse); [by left|].
        congruence.
      * rewrite IH. split.
        -- intros (before & after & -> & Hall). exists (RegExp test :: before), after.
           split; [done|]. intros pattern [->|Hin]%elem_of_cons; [by eauto|by apply Hall].
        -- intros ([|first before] & after & Heq & Hall); [done|].
           injection Heq as <- ->. exists before, after. split; [done|].
           intros pattern Hin. apply Hall. by right.
    + split.
      * intros [= ->]. exists [], patterns. split; [done|].
        intros pattern Hin. by apply elem_of_nil in Hin.
      * intros ([|first before] & after & Heq & Hall).
        -- by injection Heq as ->.
        -- injection Heq as <- ->.
           destruct (Hall (Invalid syntaxError)) as (test & ? & _); [by left|done].
  - apply scanTables_throws_valid.
Qed.

(** Where the scan does not throw, [findTableStructures] returns without
    logging an error: the returned tables are stored in [tableStructures]
    and counted in tablesProcessed, the other counters stay as they are,
    and no table is returned exactly when no row of the range is a header
    row; a second call gives the same tables and leaves the parser as the
    first did.  Where the scan throws, the error is logged under
    basic-table-detection; then with throwErrors off the call returns no
    table, stores none and sets tablesProcessed to 0, and with throwErrors
    on the error is logged again under table-detection and thrown. *)
Theorem findTableStructures_returns_and_repeats
    (config : ExcelConfig) (runtime : Runtime) (this : ExcelParser) :
  match scanTables_throws config (worksheet this) with
  | None =>
      ∃ merged this',
        findTableStructures config runtime this = (Normal merged, this')
        ∧ errors this' = errors this
        ∧ errorsEncountered (performanceMetrics this')
          = errorsEncountered (performanceMetrics this)
        ∧ rowsProcessed (performanceMetrics this')
          = rowsProcessed (performanceMetrics this)
        ∧ tablesProcessed (performanceMetrics this') = length merged
        ∧ tableStructures this' = omap (λ r, heap this' !! r) merged
        ∧ length merged ≤ length (scanTables config (worksheet this))
        ∧ (merged = []
           ↔ ∀ row, row ≤ range_e_r (worksheet this) →
               isHeaderRow (analyzeRow config (worksheet this) row) = false)
        ∧ findTableStructures config runtime this' = (Normal merged, this')
  | Some error =>
      let entry context n :=
        ErrorInfo.mk (uuidv4 runtime n) context (message error) (stack error)
          (toISOString runtime n) in
      ∃ this',
        findTableStructures config runtime this
        = (if throwErrors config then Throw error else Normal [], this')
        ∧ errors this'
          = errors this
            ++ entry "basic-table-detection" (clock this)
               :: (if throwErrors config
                   then [entry "table-detection" (S (clock this))] else [])
        ∧ errorsEncountered (performanceMetrics this')
          = errorsEncountered (performanceMetrics this)
            + (if throwErrors config then 2 else 1)
        ∧ (throwErrors config = false →
           tableStructures this' = []
           ∧ tablesProcessed (performanceMetrics this') = 0)
  end.
Proof.
  destruct (scanTables_throws config (worksheet this)) as [error|] eqn:Hscan.
  { cbv zeta. rewrite (findTableStructures_throws_eq config runtime this error Hscan).
    unfold handleError. destruct (throwErrors config); eexists; split; try done; cbn.
    - split_and!; [by rewrite <- app_assoc|lia|done].
    - split_and!; [done|lia|done]. }
  eexists _, _. split; [by apply findTableStructures_scanned|].
  cbn [errors performanceMetrics errorsEncountered rowsProcessed tablesProcessed
       tableStructures heap set_tablesProcessed set_tableStructures set_heap].
  split_and!; [done..| | |].
  - etrans; [apply mergeRelated_length|]. by rewrite length_seq.
  - rewrite mergeRelated_nil, <- scanTables_nil.
    destruct (scanTables config (worksheet this)); naive_solver.
  - rewrite findTableStructures_scanned by done. reflexivity.
Qed.

(** [findRelatedDataGroups] never returns a group.  When no header of
    the tables it gets from [findTableStructures] names a group (holds
    "product" or "date", in any case), it returns the empty map.  When one
    does, the call of [findRelatedData], a method the class does not
    have, throws; the error is logged under data-grouping, and the method
    returns the empty map, or throws the error again when throwErrors is
    set.  Where the scan throws at a custom pattern that is no regular
    expression, [findTableStructures] returns no table or throws, and
    [findRelatedDataGroups] returns the empty map or throws the same
    error. *)
Theorem findRelatedDataGroups_never_returns_a_group
    (config : ExcelConfig) (runtime : Runtime) (this : ExcelParser) :
  match scanTables_throws config (worksheet this) with
  | None =>
      ∃ merged this1,
        findTableStructures config runtime this = (Normal merged, this1)
        ∧ ((∀ r t header, r ∈ merged → heap this1 !! r = Some t → header ∈ headers t →
              identifyDataGroup (Header.value header) = None) →
           findRelatedDataGroups config runtime this = (Normal [], this1))
        ∧ ((∃ r t header, r ∈ merged ∧ heap this1 !! r = Some t ∧ header ∈ headers t
              ∧ is_Some (identifyDataGroup (Header.value header))) →
           let error := newError runtime "this.findRelatedData is not a function" in
           findRelatedDataGroups config runtime this
           = (if throwErrors config then Throw error else Normal [],
              (handleError config runtime "data-grouping" error this1).2)
           ∧ errors (handleError config runtime "data-grouping" error this1).2
             = errors this
               ++ [ErrorInfo.mk (uuidv4 runtime (clock this1)) "data-grouping"
                     "this.findRelatedData is not a function" (stack error)
                     (toISOString runtime (clock this1))])
  | Some error =>
      findRelatedDataGroups config runtime this
      = (if throwErrors config then Throw error else Normal [],
         (findTableStructures config runtime this).2)
  end
  ∧ (throwErrors config = false →
     (findRelatedDataGroups config runtime this).1 = Normal [])
  ∧ (∀ text, is_Some (identifyDataGroup text)
       ↔ includes (toLowerCase text) "product" = true
         ∨ includes (toLowerCase text) "date" = true).
Proof.
  split_and!.
  - destruct (scanTables_throws config (worksheet this)) as [error|] eqn:Hscan.
    { unfold findRelatedDataGroups, mbind, Method_bind, bind.
      rewrite (findTableStructures_throws_eq config runtime this error Hscan).
      by destruct (throwErrors config). }
    eexists _, _. split; [by apply findTableStructures_scanned|]. split.
    + intros Hnone. unfold findRelatedDataGroups, mbind, Method_bind, bind.
      rewrite findTableStructures_scanned by done. cbv zeta. unfold tryCatch.
      by rewrite (proj1 (findRelatedDataGroups_try_eq runtime _ _) Hnone).
    + intros Hnamed error. unfold findRelatedDataGroups, mbind, Method_bind, bind.
      rewrite findTableStructures_scanned by done. cbv zeta. unfold tryCatch.
      rewrite (proj2 (findRelatedDataGroups_try_eq runtime _ _) Hnamed).
      unfold handleError. fold error. destruct (throwErrors config); done.
  - apply findRelatedDataGroups_lenient.
  - intros text. unfold identifyDataGroup. cbv zeta.
    destruct (includes _ "product"), (includes _ "date"); split;
      try (by intros [? ?]); try (by intros [?|?]); eauto.
Qed.

(** [findProductData] on a sheet that holds one block — rows without a
    header row, a header row, N data rows and then only empty rows —
    returns the N rows, read under the headers of the header row, without
    those that agree with a row kept before on more than 70% of their
    fields; on a sheet without a header row it returns the empty list.  It
    logs no error in either case.  This is where the scan does not throw;
    where it throws at a custom pattern that is no regular expression,
    [findProductData] returns the empty list, the error logged, or throws
    the error. *)
Theorem findProductData_returns_the_rows_of_a_single_block
    (config : ExcelConfig) (runtime : Runtime) (this : ExcelParser) :
  match scanTables_throws config (worksheet this) with
  | None =>
      ((∀ row, row ≤ range_e_r (worksheet this) →
          isHeaderRow (analyzeRow config (worksheet this) row) = false) →
       ∃ this', findProductData config runtime this = (Normal [], this')
                ∧ errors this' = errors this)
      ∧ (∀ h N,
           (∀ r, r < h → isHeaderRow (analyzeRow config (worksheet this) r) = false) →
           isHeaderRow (analyzeRow config (worksheet this) h) = true →
           (∀ r, h < r ≤ h + N →
              isDataRow (analyzeRow config (worksheet this) r) = true) →
           (∀ r, h + N < r ≤ range_e_r (worksheet this) →
              isEmpty (analyzeRow config (worksheet this) r) = true) →
           h + N ≤ range_e_r (worksheet this) →
           ∃ this',
             findProductData config runtime this
             = (Normal (uniqueRows
                          ((λ r, extractRowData (worksheet this) r
                                   (getHeaders config (worksheet this) h))
                             <$> seq (S h) N)),
                this')
             ∧ errors this' = errors this)
  | Some error =>
      findProductData config runtime this
      = (if throwErrors config then Throw error else Normal [],
         (findTableStructures config runtime this).2)
      ∧ ∃ entry, head (drop (length (errors this))
                         (errors (findTableStructures config runtime this).2))
                 = Some entry
                 ∧ ErrorInfo.context entry = "basic-table-detection"
                 ∧ ErrorInfo.message entry = message error
  end.
Proof.
  destruct (scanTables_throws config (worksheet this)) as [error|] eqn:Hscan.
  { unfold findProductData, mbind, Method_bind, bind.
    rewrite (findTableStructures_throws_eq config runtime this error Hscan).
    unfold handleError.
    destruct (throwErrors config); (split; [done|]); eexists; cbn;
      rewrite <- ?app_assoc, drop_app_length; done. }
  split.
  - intros Hnone. apply scanTables_nil in Hnone.
    unfold findProductData, mbind, Method_bind, bind.
    rewrite findTableStructures_scanned by done. cbv zeta. rewrite Hnone.
    eexists. split; reflexivity.
  - intros h N Hpre Hhead Hdata Hblank Hlen.
    destruct (scanTables_single_block config (worksheet this) h N)
      as (table & Htables & _ & Hrows & _); [done..|].
    unfold findProductData, mbind, Method_bind, bind.
    rewrite findTableStructures_scanned by done. cbv zeta. rewrite Htables.
    cbn [length].
    destruct (resolvedStore_single table) as (x & -> & _ & Hd & _).
    rewrite mergeRelated_single. cbn. rewrite Hd, Hrows.
    eexists. split; reflexivity.
Qed.

Lemma findProductData_witness :
  ∃ this',
    findProductData defaultConfig sampleRuntime (newParser widgetSheet)
    = (Normal (uniqueRows
                 ((λ r, extractRowData widgetSheet r (getHeaders defaultConfig widgetSheet 0))
                    <$> seq 1 1)),
       this')
    ∧ errors this' = [].
Proof.
  apply (proj2 (findProductData_returns_the_rows_of_a_single_block
                  defaultConfig sampleRuntime (newParser widgetSheet)) 0 1).
  - intros r Hr. lia.
  - vm_compute. reflexivity.
  - intros r Hr. assert (r = 1) as -> by lia. vm_compute. reflexivity.
  - intros r Hr. change (range_e_r (worksheet (newParser widgetSheet))) with 3 in Hr.
    assert (r = 2 ∨ r = 3) as [-> | ->] by lia; vm_compute; reflexivity.
  - vm_compute. lia.
Defined.

(** ** Deduplication, again *)

Lemma rowMatches_self row : rowMatches row row = bool_decide (row ≠ ∅).
Proof.
  unfold rowMatches, exceeds70Percent, matchScore.
  rewrite filter_Forall.
  - rewrite length_map_to_list. case_bool_decide as Hne.
    + apply Nat.ltb_lt. assert (size row ≠ 0) by (by intros ?%map_size_empty_inv). lia.
    + subst row. done.
  - apply Forall_forall. intros [key value] Hin. by apply elem_of_map_to_list in Hin.
Qed.

Lemma rowMatches_empty row : rowMatches ∅ row = false.
Proof. done. Qed.

(** A list of rows in which no row matches an earlier one is left as it
    is. *)
Lemma uniqueRows_fixed rows :
  (∀ i j row1 row2, i < j → rows !! i = Some row1 → rows !! j = Some row2 →
     rowMatches row2 row1 = false) →
  uniqueRows rows = rows.
Proof.
  induction rows as [|row rows IH] using rev_ind; intros Hpair; [done|].
  rewrite uniqueRows_snoc, IH.
  - assert (existsb (rowMatches row) rows = false) as ->; [|done].
    apply not_true_iff_false. intros (kept & Hin & Hmatch)%existsb_exists.
    apply list_elem_of_In, list_elem_of_lookup in Hin as [i Hi].
    rewrite (Hpair i (length rows) kept row) in Hmatch; [done| | |].
    + by apply lookup_lt_Some in Hi.
    + by apply lookup_app_l_Some.
    + by apply list_lookup_middle.
  - intros i j row1 row2 Hij H1 H2. apply (Hpair i j); [done|by apply lookup_app_l_Some..].
Qed.

Lemma uniqueRows_idemp rows : uniqueRows (uniqueRows rows) = uniqueRows rows.
Proof. apply uniqueRows_fixed. apply uniqueRows_pairwise. Qed.

Lemma uniqueRows_empty_rows rows :
  filter (λ row, row = ∅) (uniqueRows rows) = filter (λ row, row = ∅) rows.
Proof.
  induction rows as [|row rows IH] using rev_ind; [done|].
  rewrite uniqueRows_snoc, !filter_app, <- IH. destruct (existsb _ _) eqn:Hex.
  - rewrite filter_cons_False; [by rewrite app_nil_r|].
    intros ->. apply existsb_exists in Hex as (kept & _ & Hmatch).
    by rewrite rowMatches_empty in Hmatch.
  - by rewrite filter_app.
Qed.

Lemma uniqueRows_head row rows :
  head (uniqueRows (row :: rows)) = Some row.
Proof.
  change (row :: rows) with ([row] ++ rows).
  destruct (uniqueRows_prefix [row] rows) as [more ->]. done.
Qed.
(** ** Merged headers *)

Lemma mergeHeaders_shape config runtime headers1 headers2 :
  ∃ added,
    mergeHeaders config runtime headers1 headers2 = headers1 ++ added
    ∧ added `sublist_of` headers2
    ∧ (∀ i j h1 h2,
         i < j → length headers1 ≤ j →
         (headers1 ++ added) !! i = Some h1 → (headers1 ++ added) !! j = Some h2 →
         areHeadersSimilar config runtime h1 h2 = false)
    ∧ (∀ h2, h2 ∈ headers2 →
         h2 ∈ added
         ∨ ∃ h1, h1 ∈ headers1 ++ added ∧ areHeadersSimilar config runtime h1 h2 = true).
Proof.
  induction headers2 as [|h hs (added & Heq & Hsub & Hdis & Hcov)] using rev_ind.
  - exists []. split_and!; [by rewrite app_nil_r|done| |].
    + intros i j h1 h2 Hij Hj _ Hj2. rewrite app_nil_r in Hj2.
      apply lookup_lt_Some in Hj2. lia.
    + intros h2 Hin. by apply elem_of_nil in Hin.
  - rewrite mergeHeaders_snoc, Heq.
    destruct (existsb _ (headers1 ++ added)) eqn:Hex.
    + exists added. split_and!; [done|by apply sublist_inserts_r|done|].
      intros h2 [Hin| ->%list_elem_of_singleton]%elem_of_app; [by apply Hcov|].
      right. apply existsb_exists in Hex as (h1 & Hin%list_elem_of_In & Hs). by exists h1.
    + exists (added ++ [h]). split_and!.
      * by rewrite app_assoc.
      * by apply sublist_app.
      * intros i j h1 h2 Hij Hj Hi1 Hj2. rewrite app_assoc in Hi1, Hj2.
        destruct (decide (j < length (headers1 ++ added))) as [Hlt|Hge].
        -- rewrite lookup_app_l in Hi1, Hj2 by lia. by apply (Hdis i j).
        -- pose proof (lookup_lt_Some _ _ _ Hj2) as Hjlen.
           rewrite length_app in Hjlen. cbn in Hjlen.
           assert (j = length (headers1 ++ added)) as -> by lia.
           rewrite list_lookup_middle in Hj2 by done. injection Hj2 as <-.
           rewrite lookup_app_l in Hi1 by lia.
           apply not_true_iff_false. intros Hs. apply not_true_iff_false in Hex.
           apply Hex, existsb_exists. exists h1. split; [|done].
           apply list_elem_of_In. by eapply list_elem_of_lookup_2.
      * intros h2 [Hin| ->%list_elem_of_singleton]%elem_of_app.
        -- destruct (Hcov h2 Hin) as [Ha|(h1 & Hh1 & Hs)].
           ++ left. apply elem_of_app. by left.
           ++ right. exists h1. split; [|done]. rewrite app_assoc.
              apply elem_of_app. by left.
        -- left. apply elem_of_app. right. by left.
Qed.

(** ** What the validation accepts *)

Lemma forEachTable_Visited (s : list Table)
    (validate : gset string → TableRef → Traversal) visited tables visited' :
  (∀ visited r visited',
     validate visited r = Visited visited' →
     idAt s r ∉ visited ∧ {[idAt s r]} ∪ visited ⊆ visited' ∧ is_Some (s !! r)) →
  forEachTable validate visited tables = Visited visited' →
  visited ⊆ visited'
  ∧ NoDup (idAt s <$> tables)
  ∧ ∀ r, r ∈ tables → idAt s r ∈ visited' ∧ idAt s r ∉ visited ∧ is_Some (s !! r).
Proof.
  intros Hvalidate. revert visited.
  induction tables as [|r tables IH]; intros visited Hrun; cbn in Hrun.
  - injection Hrun as <-. split_and!; [done|constructor|]. by intros r Hr%elem_of_nil.
  - destruct (validate visited r) as [v1| | |] eqn:Hr; try done.
    destruct (Hvalidate _ _ _ Hr) as (Hnot & Hsub & Hsome).
    destruct (IH _ Hrun) as (Hsub' & Hnd & Hall).
    split_and!.
    + set_solver.
    + cbn. apply NoDup_cons. split; [|done].
      intros (r' & Hid & Hin)%list_elem_of_fmap.
      destruct (Hall r' Hin) as (_ & Hfresh & _). rewrite <- Hid in Hfresh. set_solver.
    + intros r' [->|Hin]%elem_of_cons.
      * split_and!; [set_solver|done|done].
      * destruct (Hall r' Hin) as (? & ? & ?). split_and!; [done|set_solver|done].
Qed.

Lemma validateTable_Visited fuel s visited r visited' :
  validateTable fuel s visited r = Visited visited' →
  idAt s r ∉ visited ∧ {[idAt s r]} ∪ visited ⊆ visited' ∧ is_Some (s !! r).
Proof.
  revert visited r visited'. induction fuel as [|fuel IH]; intros visited r visited' Hrun;
    [done|].
  cbn in Hrun. unfold idAt. destruct (s !! r) as [t|] eqn:Ht; [|done]. cbn.
  case_bool_decide as Hin; [done|].
  apply (forEachTable_Visited s) in Hrun as (Hsub & _); [|apply IH].
  split_and!; [done|done|by eexists].
Qed.

(** [processTableData] a second time changes nothing.  It keeps the
    first row; of the rows it keeps no two with a field are equal; and it
    keeps every row object without fields, since such a row matches
    nothing. *)
Theorem processTableData_is_idempotent (table : Table) :
  processTableData (processTableData table) = processTableData table
  ∧ head (dataRows (processTableData table)) = head (dataRows table)
  ∧ NoDup (filter (λ row, row ≠ ∅) (dataRows (processTableData table)))
  ∧ filter (λ row, row = ∅) (dataRows (processTableData table))
    = filter (λ row, row = ∅) (dataRows table).
Proof.
  unfold processTableData. cbn [dataRows set_dataRows]. split_and!.
  - unfold set_dataRows. cbn. by rewrite uniqueRows_idemp.
  - destruct (dataRows table) as [|row rows]; [done|]. by rewrite uniqueRows_head.
  - apply NoDup_alt. intros i j row Hi Hj.
    destruct (decide (i = j)) as [|Hne]; [done|exfalso].
    assert (∃ i' j', i' < j'
              ∧ uniqueRows (dataRows table) !! i' = Some row
              ∧ uniqueRows (dataRows table) !! j' = Some row ∧ row ≠ ∅)
      as (i' & j' & Hlt & Hi' & Hj' & Hrow).
    { assert (∀ (l : list RowData) a b x,
                a < b → filter (λ row, row ≠ ∅) l !! a = Some x →
                filter (λ row, row ≠ ∅) l !! b = Some x →
                ∃ a' b', a' < b' ∧ l !! a' = Some x ∧ l !! b' = Some x ∧ x ≠ ∅)
        as Hlift.
      { clear. intros l. induction l as [|y l IH]; intros a b x Hab Ha Hb;
          [by rewrite filter_nil, lookup_nil in Ha|].
        rewrite filter_cons in Ha, Hb. case_decide as Hy.
        - destruct a as [|a], b as [|b]; try lia.
          + cbn in Ha, Hb. injection Ha as ->.
            assert (x ∈ filter (λ row, row ≠ ∅) l) as Hin
              by by eapply list_elem_of_lookup_2.
            apply list_elem_of_filter in Hin as [_ [b' Hb']%list_elem_of_lookup].
            exists 0, (S b'). split_and!; [lia|done..].
          + cbn in Ha, Hb. destruct (IH a b x) as (a' & b' & ? & ? & ? & ?);
              [lia|done..|].
            exists (S a'), (S b'). split_and!; [lia|done..].
        - destruct (IH a b x) as (a' & b' & ? & ? & ? & ?); [done..|].
          exists (S a'), (S b'). split_and!; [lia|done..]. }
      destruct (decide (i < j)).
      - by apply (Hlift _ i j).
      - apply (Hlift _ j i); [lia|done..]. }
    pose proof (uniqueRows_pairwise (dataRows table) i' j' row row Hlt Hi' Hj') as Hno.
    rewrite rowMatches_self, bool_decide_eq_true_2 in Hno by done. done.
  - apply uniqueRows_empty_rows.
Qed.
(** [mergeHeaders] keeps the headers of the first list, in place, and
    appends, in order, those of the second list that are similar to no
    header before them in the result; every header of the second list is
    in the result or similar to a header of it. *)
Theorem mergeHeaders_appends_dissimilar_headers
    (config : ExcelConfig) (runtime : Runtime) (headers1 headers2 : list Header.t) :
  ∃ added,
    mergeHeaders config runtime headers1 headers2 = headers1 ++ added
    ∧ added `sublist_of` headers2
    ∧ (∀ i j h1 h2,
         i < j → length headers1 ≤ j →
         mergeHeaders config runtime headers1 headers2 !! i = Some h1 →
         mergeHeaders config runtime headers1 headers2 !! j = Some h2 →
         areHeadersSimilar config runtime h1 h2 = false)
    ∧ (∀ h2, h2 ∈ headers2 →
         h2 ∈ mergeHeaders config runtime headers1 headers2
         ∨ ∃ h1, h1 ∈ mergeHeaders config runtime headers1 headers2
                 ∧ areHeadersSimilar config runtime h1 h2 = true).
Proof.
  destruct (mergeHeaders_shape config runtime headers1 headers2)
    as (added & Heq & Hsub & Hdis & Hcov).
  exists added. rewrite Heq. split_and!; [done..|].
  intros h2 Hin. destruct (Hcov h2 Hin) as [Ha|?]; [|by right].
  left. apply elem_of_app. by right.
Qed.

(** When [validateTableHierarchy] returns, the tables of the list have
    pairwise distinct ids, each differs in id from its children, and the
    children of one table have pairwise distinct ids: tables that share
    an id are reported as a circular reference, whether or not one is
    reachable from the other. *)
Theorem validateTableHierarchy_accepts_only_distinct_ids
    (s : list Table) (tables : list TableRef) (visited : gset string) :
  validateTableHierarchy s tables = Visited visited →
  NoDup (idAt s <$> tables)
  ∧ ∀ r, r ∈ tables →
      ∃ t, s !! r = Some t ∧ id t ∈ visited
           ∧ NoDup (idAt s <$> children t)
           ∧ ∀ c, c ∈ children t → idAt s c ≠ id t ∧ idAt s c ∈ visited.
Proof.
  unfold validateTableHierarchy. intros Hrun.
  pose proof Hrun as Htop.
  apply (forEachTable_Visited s) in Htop as (_ & Hnd & Hall);
    [|apply validateTable_Visited].
  split; [done|]. intros r Hr. destruct (Hall r Hr) as (Hin & _ & [t Ht]).
  exists t. unfold idAt in Hin. rewrite Ht in Hin. cbn in Hin. split_and!; [done..| |].
  - clear Hnd Hall Hin. revert Hrun. generalize (∅ : gset string) as seen.
    induction tables as [|r' tables IH]; intros seen Hrun; [by apply elem_of_nil in Hr|].
    cbn [forEachTable] in Hrun.
    destruct (validateTable (S (length s)) s seen r') as [v1| | |] eqn:Hr'; try done.
    apply elem_of_cons in Hr as [->|Hr]; [|by apply (IH Hr v1)].
    cbn [validateTable] in Hr'. rewrite Ht in Hr'. case_bool_decide; [done|].
    by apply (forEachTable_Visited s) in Hr' as (_ & ? & _); [|apply validateTable_Visited].
  - clear Hnd Hin. revert Hrun Hall. generalize (∅ : gset string) as seen.
    induction tables as [|r' tables IH]; intros seen Hrun Hall;
      [by apply elem_of_nil in Hr|].
    cbn [forEachTable] in Hrun.
    destruct (validateTable (S (length s)) s seen r') as [v1| | |] eqn:Hr'; try done.
    apply (forEachTable_Visited s) in Hrun as Hrest; [|apply validateTable_Visited].
    destruct Hrest as (Hsub & _ & Hrest).
    apply elem_of_cons in Hr as [->|Hr].
    + cbn [validateTable] in Hr'. rewrite Ht in Hr'. case_bool_decide; [done|].
      apply (forEachTable_Visited s) in Hr' as (_ & _ & Hkids);
        [|apply validateTable_Visited].
      intros c Hc. destruct (Hkids c Hc) as (Hv & Hfresh & _). split; [set_solver|set_solver].
    + apply (IH Hr v1 Hrun). intros r0 Hr0. destruct (Hrest r0 Hr0) as (? & ? & ?).
      split_and!; [done| |done]. 
      destruct (Hall r0 ltac:(by right)) as (_ & ? & _). done.
Qed.

Lemma validateTableHierarchy_accepts_witness :
  NoDup (idAt adjacentTables <$> [0; 1]).
Proof.
  eapply (validateTableHierarchy_accepts_only_distinct_ids adjacentTables [0; 1]).
  vm_compute. reflexivity.
Defined.

(** ** Related data *)

Lemma mergeRelatedData_lookup {V} (target : gmap string (list V)) source key :
  mergeRelatedData target source !! key =
    match (filter (λ entry, entry.1 = key) source).*2 with
    | [] => target !! key
    | values => Some (default [] (target !! key) ++ values)
    end.
Proof.
  induction source as [|[k v] source IH] using rev_ind; [done|].
  unfold mergeRelatedData in *. rewrite foldl_snoc. cbn [fst snd]. cbv zeta.
  rewrite filter_app, fmap_app, filter_cons, filter_nil. cbn [fst].
  set (before := foldl _ target source) in *.
  destruct (decide (k = key)) as [->|Hne].
  - cbn [fmap list_fmap snd].
    assert (∀ m : gmap string (list V),
              alter (λ array, array ++ [v]) key
                (match m !! key with Some _ => m | None => <[key := []]> m end) !! key
              = Some (default [] (m !! key) ++ [v])) as Halter.
    { intros m. destruct (m !! key) as [array|] eqn:Hm.
      - by rewrite lookup_alter_eq, Hm.
      - by rewrite lookup_alter_eq, lookup_insert_eq. }
    rewrite Halter, IH.
    destruct ((filter (λ entry, entry.1 = key) source).*2) as [|v0 values].
    + by destruct (target !! key).
    + cbn. by rewrite <- app_assoc.
  - cbn [fmap list_fmap]. rewrite app_nil_r, <- IH.
    destruct (before !! k); [by rewrite lookup_alter_ne|].
    by rewrite lookup_alter_ne, lookup_insert_ne.
Qed.
(** ** Types and formats of values *)

Lemma includes_later c s needle : includes s needle = true → includes (String c s) needle = true.
Proof. intros H. cbn [includes]. rewrite H. apply orb_true_r. Qed.

Lemma matchesPrefix_isoDate_dash s :
  matchesPrefix isoDate s = true → includes s "-" = true.
Proof.
  destruct s as [|c1 [|c2 [|c3 [|c4 [|c5 s]]]]]; cbn [matchesPrefix isoDate];
    rewrite ?andb_false_r; try done.
  intros (_ & (_ & (_ & (_ & (Hdash & _)%andb_prop)%andb_prop)%andb_prop)%andb_prop)%andb_prop.
  unfold isChar in Hdash. apply bool_decide_eq_true in Hdash as ->.
  do 4 apply includes_later. cbn [includes startsWith].
  rewrite bool_decide_eq_true_2 by done. by destruct s.
Qed.

Lemma matchesPrefix_usDate_slash s :
  matchesPrefix usDate s = true → includes s "/" = true.
Proof.
  destruct s as [|c1 [|c2 [|c3 s]]]; cbn [matchesPrefix usDate];
    rewrite ?andb_false_r; try done.
  intros (_ & (_ & (Hslash & _)%andb_prop)%andb_prop)%andb_prop.
  unfold isChar in Hslash. apply bool_decide_eq_true in Hslash as ->.
  do 2 apply includes_later. cbn [includes startsWith].
  rewrite bool_decide_eq_true_2 by done. by destruct s.
Qed.

Lemma digits_have_no_sign s (c : ascii) :
  isDigit c = false → forallChar isDigit s = true → includes s (String c "") = false.
Proof.
  intros Hc. induction s as [|d s IH]; [done|].
  cbn [forallChar includes startsWith]. intros [Hd Hs]%andb_prop.
  rewrite IH by done. rewrite orb_false_r.
  case_bool_decide as Heq; [|done]. subst d. congruence.
Qed.

Lemma detectFormatOf_date runtime s :
  Format.type (detectFormatOf runtime s) = "date"
  ↔ matchesPrefix isoDate s = true ∨ matchesPrefix usDate s = true.
Proof.
  unfold detectFormatOf, detectDateFormat.
  destruct (matchesPrefix isoDate s) eqn:Hiso.
  - rewrite (matchesPrefix_isoDate_dash s Hiso), orb_true_r. cbn. naive_solver.
  - destruct (matchesPrefix usDate s) eqn:Hus.
    + rewrite (matchesPrefix_usDate_slash s Hus). cbn. naive_solver.
    + assert (∀ b : bool, (if b then @None string else None) = None) as -> by by intros [].
      split; [|by intros [?|?]].
      destruct (negb (isNaN runtime s)); [done|]. by destruct (isCode s).
Qed.

(** After [mergeRelatedData] the array under a key is the array that was
    there, or an empty one, followed by the values the source has under
    that key; a key the source does not have keeps what it had, and stays
    missing when it was. *)
Theorem mergeRelatedData_appends_under_each_key
    {V} (target : gmap string (list V)) (source : list (string * V)) (key : string) :
  (key ∉ source.*1 →
   mergeRelatedData target source !! key = target !! key)
  ∧ (key ∈ source.*1 →
     mergeRelatedData target source !! key
     = Some (default [] (target !! key)
             ++ (filter (λ entry, entry.1 = key) source).*2))
  ∧ (NoDup source.*1 →
     ∀ value, (key, value) ∈ source →
       mergeRelatedData target source !! key
       = Some (default [] (target !! key) ++ [value])).
Proof.
  rewrite mergeRelatedData_lookup. split_and!.
  - intros Hnot.
    assert (filter (λ entry : string * V, entry.1 = key) source = []) as ->; [|done].
    apply filter_none. intros [k v] Hin Hk. cbn in Hk. subst k.
    apply Hnot, list_elem_of_fmap. by exists (key, v).
  - intros ([k v] & Hk & Hin)%list_elem_of_fmap. cbn in Hk. subst k.
    destruct (filter _ source) as [|e es] eqn:Hf; [|done].
    assert ((key, v) ∈ filter (λ entry : string * V, entry.1 = key) source) as Habs
      by by apply list_elem_of_filter.
    rewrite Hf in Habs. by apply elem_of_nil in Habs.
  - intros Hnd value Hin.
    assert (filter (λ entry : string * V, entry.1 = key) source = [(key, value)]) as ->;
      [|done].
    clear -Hnd Hin. induction source as [|[k v] source IH]; [by apply elem_of_nil in Hin|].
    cbn in Hnd. apply NoDup_cons in Hnd as [Hnot Hnd].
    rewrite filter_cons. cbn [fst]. apply elem_of_cons in Hin as [[= <- <-]|Hin].
    + rewrite decide_True by done. f_equal.
      apply filter_none. intros [k' v'] Hin' Hk. cbn in Hk. subst k'.
      apply Hnot, list_elem_of_fmap. by exists (key, v').
    + rewrite decide_False; [by apply IH|].
      intros ->. apply Hnot, list_elem_of_fmap. by exists (key, value).
Qed.

Lemma mergeRelatedData_appends_witness :
  mergeRelatedData ({["sku" := [1]]} : gmap string (list nat)) [("sku", 2); ("lot", 3)]
    !! "sku"
  = Some (default [] (({["sku" := [1]]} : gmap string (list nat)) !! "sku") ++ [2]).
Proof.
  apply (proj2 (proj2 (mergeRelatedData_appends_under_each_key
                         ({["sku" := [1]]} : gmap string (list nat))
                         [("sku", 2); ("lot", 3)] "sku"))).
  - vm_compute. repeat constructor; set_solver.
  - by left.
Defined.
(** The type and the format of a pattern agree on dates and can differ
    elsewhere.  A text is typed "date" exactly when its format is a date
    format: when it starts with four digits, a dash, two digits, a dash
    and two digits (YYYY-MM-DD, whatever follows and whatever the digits)
    or, failing that, with two digits, a slash, two digits, a slash and
    four digits (MM/DD/YYYY).  A text of digits only is typed "code",
    while its format, when [isNaN] rejects it as it does for a numeral, is
    that of a number. *)
Theorem dates_are_typed_and_formatted_alike (runtime : Runtime) :
  (∀ s, identifyValueType (Some (VString s)) = "date"
        ↔ Format.type (detectFormatOf runtime s) = "date")
  ∧ (∀ s, matchesPrefix isoDate s = true →
          detectFormatOf runtime s = Format.mk "date" (Some "YYYY-MM-DD"))
  ∧ (∀ s, matchesPrefix isoDate s = false → matchesPrefix usDate s = true →
          detectFormatOf runtime s = Format.mk "date" (Some "MM/DD/YYYY"))
  ∧ (∀ s, s ≠ EmptyString → forallChar isDigit s = true → isNaN runtime s = false →
          identifyValueType (Some (VString s)) = "code"
          ∧ detectFormatOf runtime s = Format.mk "number" (Some "standard")).
Proof.
  split_and!.
  - intros s. rewrite detectFormatOf_date. unfold identifyValueType.
    destruct (matchesPrefix isoDate s); [naive_solver|].
    destruct (matchesPrefix usDate s); [naive_solver|].
    split; [|by intros [?|?]]. by destruct (isCode s).
  - intros s Hiso. unfold detectFormatOf, detectDateFormat.
    by rewrite Hiso, (matchesPrefix_isoDate_dash s Hiso), orb_true_r.
  - intros s Hiso Hus. unfold detectFormatOf, detectDateFormat.
    by rewrite Hiso, Hus, (matchesPrefix_usDate_slash s Hus).
  - intros s Hne Hdigits Hnum.
    pose proof (digits_have_no_sign s "-" eq_refl Hdigits) as Hdash.
    pose proof (digits_have_no_sign s "/" eq_refl Hdigits) as Hslash.
    assert (matchesPrefix isoDate s = false) as Hiso.
    { apply not_true_iff_false. intros H%matchesPrefix_isoDate_dash. congruence. }
    assert (matchesPrefix usDate s = false) as Hus.
    { apply not_true_iff_false. intros H%matchesPrefix_usDate_slash. congruence. }
    assert (isCode s = true) as Hcode.
    { unfold isCode. rewrite bool_decide_eq_true_2 by done. cbn [andb].
      clear -Hdigits. induction s as [|c s IH]; [done|].
      cbn in *. apply andb_prop in Hdigits as [-> Hs]. rewrite orb_true_r. cbn. by apply IH. }
    split.
    + unfold identifyValueType. by rewrite Hiso, Hus, Hcode.
    + unfold detectFormatOf. by rewrite Hslash, Hdash, Hnum.
Qed.

Lemma dates_are_typed_witness :
  detectFormatOf sampleRuntime "2024-01-01" = Format.mk "date" (Some "YYYY-MM-DD").
Proof.
  apply (proj1 (proj2 (dates_are_typed_and_formatted_alike sampleRuntime)) "2024-01-01").
  vm_compute. reflexivity.
Defined.

(** ** Merging group by group *)

Lemma foldl_mergeTables_spec config runtime (groups : list (list TableRef))
    (s0 s : list Table) :
  NoDup (concat groups) →
  Forall (λ group : list TableRef, group ≠ []) groups →
  (∀ r, r ∈ concat groups → is_Some (s0 !! r) ∧ s !! r = s0 !! r) →
  (∀ base rest,
     (base :: rest) ∈ groups →
     ∃ b, s0 !! base = Some b
          ∧ foldl (mergeTables config runtime) s groups !! base
            = Some (foldl (absorb config runtime) b (omap (λ r, s0 !! r) rest)))
  ∧ (∀ r, r ∉ omap head groups →
       foldl (mergeTables config runtime) s groups !! r = s !! r).
Proof.
  revert s. induction groups as [|group groups IH]; intros s Hnd Hne Hvalid.
  { split; [by intros ?? ?%elem_of_nil|done]. }
  apply Forall_cons in Hne as [Hgroup Hne].
  destruct group as [|base rest]; [done|]. clear Hgroup.
  cbn [concat] in Hnd, Hvalid. cbn [foldl].
  apply NoDup_app in Hnd as (Hndg & Hdisj & Hnd').
  apply NoDup_cons in Hndg as [Hbase Hndrest].
  destruct (Hvalid base) as [[b Hb0] Hb]; [apply elem_of_app; left; by left|].
  rewrite Hb0 in Hb.
  assert (omap (λ r, s !! r) rest = omap (λ r, s0 !! r) rest) as Hmembers.
  { apply omap_ext_elem_of. intros r Hr. apply Hvalid, elem_of_app. left. by right. }
  rewrite (mergeTables_spec config runtime s base rest b); [|done|done|]; last first.
  { intros r Hr. destruct (Hvalid r) as [Hsome ->]; [|done].
    apply elem_of_app. left. by right. }
  rewrite Hmembers.
  set (B := foldl (absorb config runtime) b (omap (λ r, s0 !! r) rest)).
  assert (∀ r, r ∈ concat groups → r ≠ base) as Hother.
  { intros r Hr ->. apply (Hdisj base); [by left|done]. }
  destruct (IH (<[base := B]> s) Hnd' Hne) as [IH1 IH2].
  { intros r Hr. destruct (Hvalid r) as [Hsome Heq]; [apply elem_of_app; by right|].
    split; [done|]. rewrite list_lookup_insert_ne; [done|]. intros ->. by apply (Hother r). }
  assert (∀ r, r ∈ omap head groups → r ∈ concat groups) as Hheads.
  { intros r (g & Hg & Hhead)%list_elem_of_omap.
    apply list_elem_of_In, in_concat. exists g. split; [by apply list_elem_of_In|].
    destruct g; [done|]. injection Hhead as ->. by left. }
  split.
  - intros base' rest' [[= -> ->]|Hin]%elem_of_cons.
    + exists b. split; [done|]. rewrite IH2.
      * apply list_lookup_insert_eq. by apply lookup_lt_Some in Hb.
      * intros Hin%Hheads. by apply (Hother _ Hin).
    + by apply IH1.
  - intros r Hr. cbn [omap list_omap head] in Hr.
    apply not_elem_of_cons in Hr as [Hne' Hr].
    rewrite IH2 by done. by rewrite list_lookup_insert_ne.
Qed.

Lemma foldl_alter_lookup {A} (f : A → A) (l : list nat) (s : list A) x :
  NoDup l →
  foldl (λ acc r, alter f r acc) s l !! x
  = if decide (x ∈ l) then f <$> s !! x else s !! x.
Proof.
  revert s. induction l as [|r l IH]; intros s Hnd.
  - cbn. by rewrite decide_False by by intros ?%elem_of_nil.
  - apply NoDup_cons in Hnd as [Hr Hnd]. cbn [foldl]. rewrite IH by done.
    destruct (decide (x = r)) as [->|Hne].
    + rewrite decide_False by done. rewrite decide_True by by left.
      by rewrite list_lookup_alter_eq.
    + rewrite list_lookup_alter_ne by done.
      destruct (decide (x ∈ l)).
      * by rewrite decide_True by by right.
      * rewrite decide_False; [done|]. by intros [?|?]%elem_of_cons.
Qed.

Lemma groupRelatedTables_concat config runtime s tables :
  concat (groupRelatedTables config runtime s tables) ≡ₚ tables
  ∧ Forall (λ group : list TableRef, group ≠ [])
      (groupRelatedTables config runtime s tables).
Proof.
  split.
  - destruct (groupRelatedTables_inv config runtime s tables)
      as (pss & Hgroups & Hnd & Hused & Hrange & Hbefore & Hshape & _).
    unfold groupRelatedTables. cbn [fst snd] in *. rewrite Hgroups.
    assert (concat pss ≡ₚ seq 0 (length tables)) as Hperm.
    { apply NoDup_Permutation; [done|apply NoDup_seq|].
      intros x. rewrite <- Hused, elem_of_seq. split.
      - intros Hx%Hrange. lia.
      - intros Hx. apply Hbefore; lia. }
    rewrite <- omap_concat, Hperm. by rewrite omap_lookup_seq.
  - eapply Forall_impl; [apply groupRelatedTables_heads|].
    intros group (r & Hhead & _). by destruct group.
Qed.

Lemma mergeRelated_spec config runtime s tables :
  NoDup tables → (∀ r, r ∈ tables → is_Some (s !! r)) →
  (∀ base rest,
     (base :: rest) ∈ groupRelatedTables config runtime s tables →
     ∃ b, s !! base = Some b
          ∧ (mergeRelated config runtime s tables).1 !! base
            = Some (processTableData
                      (foldl (absorb config runtime) b (omap (λ r, s !! r) rest))))
  ∧ (∀ r, r ∉ (mergeRelated config runtime s tables).2 →
       (mergeRelated config runtime s tables).1 !! r = s !! r).
Proof.
  intros Hnd Hvalid.
  destruct (groupRelatedTables_concat config runtime s tables) as [Hperm Hne].
  unfold mergeRelated. cbn [fst snd].
  set (groups := groupRelatedTables config runtime s tables) in *.
  assert (NoDup (concat groups)) as Hndg by by rewrite Hperm.
  destruct (foldl_mergeTables_spec config runtime groups s s Hndg Hne) as [H1 H2].
  { intros r Hr. split; [|done]. apply Hvalid. by rewrite <- Hperm. }
  assert (NoDup (omap head groups)) as Hheads.
  { clear -Hndg Hne. induction groups as [|g groups IH]; [constructor|].
    apply Forall_cons in Hne as [Hg Hne]. destruct g as [|base rest]; [done|].
    cbn [concat] in Hndg. apply NoDup_app in Hndg as (_ & Hdisj & Hnd).
    cbn [omap list_omap head]. apply NoDup_cons. split; [|by apply IH].
    intros (g & Hg' & Hhead)%list_elem_of_omap.
    apply (Hdisj base); [by left|].
    apply list_elem_of_In, in_concat. exists g. split; [by apply list_elem_of_In|].
    destruct g; [done|]. injection Hhead as ->. by left. }
  split.
  - intros base rest Hin. destruct (H1 base rest Hin) as (b & Hb & Hmerged).
    exists b. split; [done|]. rewrite foldl_alter_lookup by done.
    rewrite decide_True; [by rewrite Hmerged|].
    apply list_elem_of_omap. by exists (base :: rest).
  - intros r Hr. rewrite foldl_alter_lookup by done.
    rewrite decide_False by done. by apply H2.
Qed.

(** What [processAndMergeTables] does with a list of distinct tables.  It
    returns the first table of each group, in the order of the groups.
    The first table of a group takes, from the other tables of the group
    in order, the headers that are similar to none it has, the data rows
    and the larger end row, and is then deduplicated; it keeps its id, its
    start row, and its rowCount and metadata, which are not computed
    anew.  Every table that is not returned is left as it was. *)
Theorem processAndMergeTables_folds_each_group_into_its_first
    (config : ExcelConfig) (runtime : Runtime) (tables : list TableRef)
    (this : ExcelParser) :
  NoDup tables → (∀ r, r ∈ tables → is_Some (heap this !! r)) →
  let groups := groupRelatedTables config runtime (heap this) tables in
  ∃ this',
    processAndMergeTables config runtime tables this = (Normal (omap head groups), this')
    ∧ errors this' = errors this
    ∧ (∀ base rest,
         (base :: rest) ∈ groups →
         let members := omap (λ r, heap this !! r) rest in
         ∃ b merged,
           heap this !! base = Some b ∧ heap this' !! base = Some merged
           ∧ id merged = id b ∧ startRow merged = startRow b
           ∧ rowCount merged = rowCount b ∧ metadata merged = metadata b
           ∧ headers merged
             = foldl (mergeHeaders config runtime) (headers b) (headers <$> members)
           ∧ dataRows merged
             = uniqueRows (dataRows b ++ concat (dataRows <$> members))
           ∧ endRow merged = foldl Z.max (endRow b) (endRow <$> members))
    ∧ (∀ r, r ∉ omap head groups → heap this' !! r = heap this !! r).
Proof.
  intros Hnd Hvalid groups.
  exists (set_heap (mergeRelated config runtime (heap this) tables).1 this).
  split; [apply processAndMergeTables_eq|]. cbn [errors heap set_heap].
  destruct (mergeRelated_spec config runtime (heap this) tables Hnd Hvalid) as [H1 H2].
  split_and!; [done| |done].
  intros base rest Hin. cbv zeta. set (members := omap (λ r, heap this !! r) rest).
  destruct (H1 base rest Hin) as (b & Hb & Hmerged).
  exists b, (processTableData (foldl (absorb config runtime) b members)).
  destruct (absorb_fold_fields config runtime b members) as (Hh & Hd & He & Hlinks).
  split_and!; [done|done|..]; unfold processTableData;
    cbn [id startRow headers dataRows endRow rowCount metadata set_dataRows];
    rewrite ?Hd; try done; symmetry; apply Hlinks.
Qed.

Lemma processAndMergeTables_folds_witness :
  ∃ this',
    processAndMergeTables defaultConfig sampleRuntime [0; 1] (parserWith nearTables)
    = (Normal (omap head (groupRelatedTables defaultConfig sampleRuntime
                            (heap (parserWith nearTables)) [0; 1])), this')
    ∧ errors this' = errors (parserWith nearTables)
    ∧ (∀ base rest,
         (base :: rest) ∈ groupRelatedTables defaultConfig sampleRuntime
                            (heap (parserWith nearTables)) [0; 1] →
         let members := omap (λ r, heap (parserWith nearTables) !! r) rest in
         ∃ b merged,
           heap (parserWith nearTables) !! base = Some b
           ∧ heap this' !! base = Some merged
           ∧ id merged = id b ∧ startRow merged = startRow b
           ∧ rowCount merged = rowCount b ∧ metadata merged = metadata b
           ∧ headers merged
             = foldl (mergeHeaders defaultConfig sampleRuntime) (headers b)
                 (headers <$> members)
           ∧ dataRows merged
             = uniqueRows (dataRows b ++ concat (dataRows <$> members))
           ∧ endRow merged = foldl Z.max (endRow b) (endRow <$> members))
    ∧ (∀ r, r ∉ omap head (groupRelatedTables defaultConfig sampleRuntime
                             (heap (parserWith nearTables)) [0; 1]) →
         heap this' !! r = heap (parserWith nearTables) !! r).
Proof.
  apply (processAndMergeTables_folds_each_group_into_its_first
           defaultConfig sampleRuntime [0; 1] (parserWith nearTables)).
  - repeat constructor; set_solver.
  - intros r [->|[->|Hr%elem_of_nil]%elem_of_cons]%elem_of_cons; [by eexists..|done].
Defined.

(** ** The returned tables *)

(** A scanned table after the hierarchy pass: labelled "independent" and
    otherwise as the scan left it. *)
Lemma resolvedStore_scanned config ws r s0 :
  let T := scanTables config ws in
  T !! r = Some s0 →
  resolvedStore T (seq 0 (length T)) !! r
  = Some (set_metadata (set_relationshipType "independent" (metadata s0)) s0).
Proof.
  intros T Hr. pose proof (lookup_lt_Some _ _ _ Hr) as Hlt.
  pose proof (scanTables_apart config ws) as Hapart. fold T in Hapart.
  destruct (scanTables_finalized config ws r s0 Hr)
    as [(_ & _ & _ & s & last & (_ & _ & _ & _ & Hc0 & Hl0 & Hp0) & _) _].
  destruct (hierarchyLoop_spec T) as (Hframe & Hsorted & _).
  destruct (lookup_lt_is_Some_2 (store (hierarchyLoop T (seq 0 (length T)))) r)
    as [y Hy]; [by rewrite <- (Forall2_length _ _ _ Hframe)|].
  assert (frame s0 y) as (Hid & Hs & He & Hh & Hd & Hrc & Hm).
  { destruct (Forall2_lookup_l _ _ _ _ _ Hframe Hr) as (y' & Hy' & Hf). congruence. }
  assert (resolvedStore T (seq 0 (length T)) !! r = Some (labelRelationship y)) as Hb.
  { unfold resolvedStore. rewrite analyzeTableRelationships_labelled.
    - by rewrite Hy.
    - rewrite (hierarchyLoop_apart T Hapart). apply elem_of_seq. lia.
    - by apply StronglySorted_lt_NoDup. }
  pose proof (resolvedStore_apart T r Hapart) as Hparent.
  unfold parentAt in Hparent. rewrite Hb in Hparent. cbn in Hparent.
  destruct (resolvedStore_children_top T r _ Hb Hparent) as [Hlevel Hchildren].
  rewrite (filter_none (λ j, parentAt (resolvedStore T (seq 0 (length T))) j = Some r))
    in Hchildren by (intros j _; by rewrite resolvedStore_apart).
  rewrite Hb. f_equal.
  pose proof (labelRelationship_sameLinks y) as (_ & Hch & Hpar & Hlev & _)%sameLinks_fields.
  rewrite <- Hch in Hchildren. rewrite <- Hpar in Hparent. rewrite <- Hlev in Hlevel.
  unfold labelRelationship.
  rewrite bool_decide_eq_false_2 by (by rewrite Hchildren; intros ?).
  rewrite bool_decide_eq_false_2 by (by rewrite Hparent; intros ?).
  destruct s0, y. cbn in *. by subst.
Qed.
Lemma mergeRelated_NoDup config runtime s tables :
  NoDup tables → NoDup (mergeRelated config runtime s tables).2.
Proof.
  intros Hnd.
  destruct (groupRelatedTables_concat config runtime s tables) as [Hperm Hne].
  unfold mergeRelated. cbn [snd].
  set (groups := groupRelatedTables config runtime s tables) in *.
  assert (NoDup (concat groups)) as Hndg by by rewrite Hperm.
  clear -Hndg Hne. induction groups as [|g groups IH]; [constructor|].
  apply Forall_cons in Hne as [Hg Hne]. destruct g as [|base rest]; [done|].
  cbn [concat] in Hndg. apply NoDup_app in Hndg as (_ & Hdisj & Hnd).
  cbn [omap list_omap head]. apply NoDup_cons. split; [|by apply IH].
  intros (g & Hg' & Hhead)%list_elem_of_omap.
  apply (Hdisj base); [by left|].
  apply list_elem_of_In, in_concat. exists g. split; [by apply list_elem_of_In|].
  destruct g; [done|]. injection Hhead as ->. by left.
Qed.

Lemma resolvedStore_scanned_fmap config ws :
  let T := scanTables config ws in
  resolvedStore T (seq 0 (length T))
  = (λ t, set_metadata (set_relationshipType "independent" (metadata t)) t) <$> T.
Proof.
  intros T. apply list_eq. intros r. rewrite list_lookup_fmap.
  destruct (T !! r) as [s0|] eqn:Hr.
  - pose proof (resolvedStore_scanned config ws r s0 Hr) as H. cbv zeta in H.
    fold T in H. by rewrite H.
  - apply lookup_ge_None. rewrite resolvedStore_length. by apply lookup_ge_None.
Qed.

(** The tables [findTableStructures] returns, on every sheet.  They are
    distinct tables of the scan.  The table at position [r] of the scan,
    when returned, is named table_r and has the start row the scan gave
    it; it has no parent, no children, level 0 and the label
    "independent"; it holds the headers, the data rows and the largest end
    row of itself and of the scanned tables it absorbed, the headers
    merged and the rows deduplicated; its rowCount is still the number of
    data rows the scan gave it.  Where the scan throws at a custom pattern
    that is no regular expression, no table is returned: the call returns
    the empty list, or throws. *)
Theorem findTableStructures_returns_merged_scanned_tables
    (config : ExcelConfig) (runtime : Runtime) (this : ExcelParser) :
  let T := scanTables config (worksheet this) in
  match scanTables_throws config (worksheet this) with
  | None =>
      ∃ merged this',
        findTableStructures config runtime this = (Normal merged, this')
        ∧ NoDup merged
        ∧ ∀ r, r ∈ merged →
            ∃ s0 rest t,
              T !! r = Some s0 ∧ heap this' !! r = Some t
              ∧ (∀ x, x ∈ rest → x ≠ r ∧ x ∉ merged ∧ is_Some (T !! x))
              ∧ id t = "table_" +:+ pretty r
              ∧ startRow t = startRow s0
              ∧ headers t
                = foldl (mergeHeaders config runtime) (headers s0)
                    (headers <$> omap (λ x, T !! x) rest)
              ∧ dataRows t
                = uniqueRows (dataRows s0
                              ++ concat (dataRows <$> omap (λ x, T !! x) rest))
              ∧ endRow t
                = foldl Z.max (endRow s0) (endRow <$> omap (λ x, T !! x) rest)
              ∧ rowCount t = Some (length (dataRows s0))
              ∧ parent t = None ∧ children t = [] ∧ level t = 0
              ∧ relationshipType (metadata t) = Some "independent"
  | Some error =>
      (findTableStructures config runtime this).1
      = if throwErrors config then Throw error else Normal []
  end.
Proof.
  intros T.
  destruct (scanTables_throws config (worksheet this)) as [error|] eqn:Hscan.
  { rewrite (findTableStructures_throws_eq config runtime this error Hscan).
    by destruct (throwErrors config). }
  eexists _, _. split; [by apply findTableStructures_scanned|].
  cbn [heap set_tablesProcessed set_tableStructures set_heap]. fold T.
  set (s := resolvedStore T (seq 0 (length T))).
  assert (NoDup (seq 0 (length T))) as Hnd by apply NoDup_seq.
  assert (∀ r, r ∈ seq 0 (length T) → is_Some (s !! r)) as Hvalid.
  { intros r Hr%elem_of_seq. apply lookup_lt_is_Some_2. unfold s.
    rewrite resolvedStore_length. lia. }
  split; [by apply mergeRelated_NoDup|].
  intros r Hr.
  destruct (mergeRelated_spec config runtime s (seq 0 (length T)) Hnd Hvalid) as [H1 _].
  pose proof (mergeRelated_NoDup config runtime s (seq 0 (length T)) Hnd) as Hndm.
  destruct (groupRelatedTables_concat config runtime s (seq 0 (length T)))
    as [Hperm Hne].
  pose proof Hr as Hgroup. unfold mergeRelated in Hgroup. cbn [snd] in Hgroup.
  apply list_elem_of_omap in Hgroup as (group & Hgroup & Hhead).
  destruct group as [|r' rest]; [done|]. injection Hhead as ->.
  destruct (H1 r rest Hgroup) as (b & Hb & Hmerged).
  assert (NoDup (concat (groupRelatedTables config runtime s (seq 0 (length T)))))
    as Hndg by by rewrite Hperm.
  assert (∀ x, x ∈ rest → x ≠ r ∧ x ∉ (mergeRelated config runtime s (seq 0 (length T))).2
                          ∧ is_Some (T !! x)) as Hrest.
  { intros x Hx.
    assert (x ∈ seq 0 (length T)) as Hxt.
    { rewrite <- Hperm. apply list_elem_of_In, in_concat. exists (r :: rest).
      split; [by apply list_elem_of_In|]. apply list_elem_of_In. by right. }
    apply elem_of_seq in Hxt. split_and!.
    - apply list_elem_of_split in Hgroup as (g1 & g2 & Hsplit).
      rewrite Hsplit, concat_app in Hndg. cbn [concat] in Hndg.
      apply NoDup_app in Hndg as (_ & _ & Hndg).
      apply NoDup_app in Hndg as (Hndg & _).
      apply NoDup_cons in Hndg as [Hnot _]. by intros ->.
    - unfold mergeRelated. cbn [snd]. intros (g & Hg & Hhead)%list_elem_of_omap.
      destruct g as [|x' rest']; [done|]. injection Hhead as ->.
      (* x heads a group and is a later member of another one *)
      clear -Hndg Hgroup Hg Hx.
      induction (groupRelatedTables config runtime s (seq 0 (length T)))
        as [|g groups IH]; [by apply elem_of_nil in Hg|].
      cbn [concat] in Hndg. apply NoDup_app in Hndg as (Hg1 & Hdisj & Hrest).
      apply elem_of_cons in Hgroup as [Hgroup|Hgroup];
        apply elem_of_cons in Hg as [Hg|Hg].
      + subst g. injection Hg as -> ->. apply NoDup_cons in Hg1 as [Hnot _]. done.
      + subst g. apply (Hdisj x); [by right|].
        apply list_elem_of_In, in_concat. exists (x :: rest').
        split; [by apply list_elem_of_In|by left].
      + subst g. apply (Hdisj x); [by left|].
        apply list_elem_of_In, in_concat. exists (r :: rest).
        split; [by apply list_elem_of_In|]. apply list_elem_of_In. by right.
      + by apply IH.
    - apply lookup_lt_is_Some_2. lia. }
  assert (r < length T) as Hrlt.
  { apply mergeRelated_subset in Hr. apply elem_of_seq in Hr. lia. }
  destruct (lookup_lt_is_Some_2 T r Hrlt) as [s0 Hs0].
  pose proof (resolvedStore_scanned config (worksheet this) r s0 Hs0) as Hres.
  cbv zeta in Hres. fold T in Hres. fold s in Hres. rewrite Hres in Hb.
  injection Hb as <-.
  eexists s0, rest, _. split; [done|]. split; [exact Hmerged|]. split; [done|].
  set (members := omap (λ x, s !! x) rest) in *.
  assert (members
          = (λ t, set_metadata (set_relationshipType "independent" (metadata t)) t)
              <$> omap (λ x, T !! x) rest) as Hmembers.
  { pose proof (resolvedStore_scanned_fmap config (worksheet this)) as Hfmap.
    cbv zeta in Hfmap. fold T in Hfmap. unfold members, s. rewrite Hfmap.
    clear. induction rest as [|x rest IH]; [done|].
    cbn [omap list_omap]. rewrite list_lookup_fmap.
    destruct (T !! x); cbn; by rewrite IH. }
  destruct (absorb_fold_fields config runtime
              (set_metadata (set_relationshipType "independent" (metadata s0)) s0)
              members) as (Hh & Hd & He & Hlinks).
  destruct Hlinks as (Hid & Hstart & Hch & Hlev & Hpar & Hrc & Hmeta).
  destruct (scanTables_finalized config (worksheet this) r s0 Hs0)
    as [(Hid0 & Hrc0 & _ & hrow & last & (_ & _ & _ & _ & Hc0 & Hl0 & Hp0) & _) _].
  unfold processTableData.
  cbn [id startRow headers dataRows endRow rowCount metadata parent children level
       set_dataRows].
  rewrite <- Hid, <- Hstart, <- Hch, <- Hlev, <- Hpar, <- Hrc, <- Hmeta, Hh, Hd, He.
  cbn [id startRow headers dataRows endRow rowCount metadata parent children level
       set_metadata set_relationshipType relationshipType].
  rewrite Hmembers, <- !list_fmap_compose.
  split_and!; try done.
Qed.
